(** * A generational LRU cache with lazy TTL expiry, and its Map facade

    Shallow embedding of the statement cache used by the SQLite dialect:
    the engine [LRUBase] (two insertion-ordered maps, a counter, lazy
    expiry, rotation, resize, ordered iteration) and the facade
    [QuickLRU] (the engine plus a mirror map serving [keys], [values]
    and [entries]).

    Conventions of the embedding.
    - A JavaScript [Map] is an association list in insertion order with
      at most one entry per key ([JSMap]).
    - Numbers that count or measure time are integers ([Z]); a [maxAge]
      is a finite number or [Number.POSITIVE_INFINITY] ([age]).
    - [Date.now()] is an explicit argument [now] of every operation that
      reads the clock; one operation sees one clock value.
    - The eviction callback is a function [K -> V -> bool] that answers
      whether the call throws; it does not call back into the cache.
      Every call is appended to the ghost field [_notified].  A throw
      leaves the operation at once (the source has no handler), so the
      state carried by [Throw] is the state at the moment of the call.
    - A generator is run to completion and modelled by the list of the
      values it yields.

    Around the cache, the driver's two statement caches
    ([EnhancedStatementCache], which counts hits, misses and evictions
    over a [QuickLRU], and the plain [Map] of
    [createDefaultStatementCache]), the result codes and the
    classification methods of [NodeSqliteError], and
    [getPragmaStatements].  There, an errcode and a numeric pragma
    option are integers, a number is rendered in decimal ([pretty]), and
    a prepared statement is an opaque value. *)

From stdpp Require Import prelude strings pretty.
From Stdlib Require Import ZArith Lia.

Local Open Scope Z_scope.

(** ** Insertion-ordered maps *)

Module JSMap.
Section JSMap.
Context {K A : Type} `{EqDecision K}.

Definition keys (m : list (K * A)) : list K := m.*1.

Fixpoint get (key : K) (m : list (K * A)) : option A :=
  match m with
  | [] => None
  | (k, a) :: m' => if decide (key = k) then Some a else get key m'
  end.

Definition has (key : K) (m : list (K * A)) : bool :=
  match get key m with Some _ => true | None => false end.

(** [set] on a present key overwrites the value in place; on a fresh
    key it appends the entry. *)
Fixpoint set (key : K) (a : A) (m : list (K * A)) : list (K * A) :=
  match m with
  | [] => [(key, a)]
  | (k, b) :: m' =>
      if decide (key = k) then (k, a) :: m' else (k, b) :: set key a m'
  end.

(** [delete] drops the entry of [key]; a well-formed map has at most
    one. *)
Definition delete (key : K) (m : list (K * A)) : list (K * A) :=
  filter (λ p, p.1 ≠ key) m.

Definition size (m : list (K * A)) : Z := Z.of_nat (length m).

(** [new Map(items)] *)
Definition from_entries (items : list (K * A)) : list (K * A) :=
  fold_left (λ m p, set p.1 p.2 m) items [].

(** The representation invariant of a map: one entry per key. *)
Definition wf (m : list (K * A)) : Prop := NoDup (keys m).
End JSMap.
End JSMap.

(** ** State and exceptions *)

Inductive error :=
  | TypeError
  | CallbackError.

Inductive outcome (S A : Type) :=
  | Ret (a : A) (s : S)
  | Throw (e : error) (s : S).
Arguments Ret {S A} a s.
Arguments Throw {S A} e s.

Definition M (S A : Type) : Type := S → outcome S A.

Definition ret {S A} (a : A) : M S A := λ s, Ret a s.
Definition bind {S A B} (m : M S A) (f : A → M S B) : M S B :=
  λ s, match m s with
       | Ret a s' => f a s'
       | Throw e s' => Throw e s'
       end.
Definition throw {S A} (e : error) : M S A := λ s, Throw e s.
Definition get_state {S} : M S S := λ s, Ret s s.
Definition modify {S} (f : S → S) : M S unit := λ s, Ret tt (f s).

Declare Scope lru_scope.
Delimit Scope lru_scope with lru.
Notation "x <- m ;; f" := (bind m (λ x, f))
  (at level 100, m at next level, right associativity) : lru_scope.
Notation "m ;; f" := (bind m (λ _, f))
  (at level 100, right associativity) : lru_scope.

(** The state an operation leaves behind, whether it returned or threw. *)
Definition state_of {S A} (o : outcome S A) : S :=
  match o with Ret _ s => s | Throw _ s => s end.

(** Generator loops: the body says, for each visited element, whether a
    value is yielded. *)
Fixpoint for_array {S X Y} (body : X → M S (option Y)) (xs : list X)
    : M S (list Y) :=
  match xs with
  | [] => ret []
  | x :: xs' =>
      (y <- body x ;;
       ys <- for_array body xs' ;;
       ret (match y with Some y => y :: ys | None => ys end))%lru
  end.

(** ** The engine *)

Module LRUBase.
Section LRUBase.
Context {K V : Type} `{EqDecision K}.

Record CacheItem := { value : V; expiry : option Z }.

Inductive age := Finite (ms : Z) | Infinite.

Record Options := {
  opt_maxAge : option age;
  opt_maxSize : Z;
  opt_onEviction : option (K → V → bool);
}.

Record t := {
  _size : Z;
  _cache : list (K * CacheItem);
  _oldCache : list (K * CacheItem);
  _maxSize : Z;
  _maxAge : age;
  _onEviction : option (K → V → bool);
  _notified : list (K * V);
}.

Definition with_size (n : Z) (s : t) : t :=
  {| _size := n; _cache := _cache s; _oldCache := _oldCache s;
     _maxSize := _maxSize s; _maxAge := _maxAge s;
     _onEviction := _onEviction s; _notified := _notified s |}.
Definition with_cache (c : list (K * CacheItem)) (s : t) : t :=
  {| _size := _size s; _cache := c; _oldCache := _oldCache s;
     _maxSize := _maxSize s; _maxAge := _maxAge s;
     _onEviction := _onEviction s; _notified := _notified s |}.
Definition with_oldCache (c : list (K * CacheItem)) (s : t) : t :=
  {| _size := _size s; _cache := _cache s; _oldCache := c;
     _maxSize := _maxSize s; _maxAge := _maxAge s;
     _onEviction := _onEviction s; _notified := _notified s |}.
Definition with_maxSize (n : Z) (s : t) : t :=
  {| _size := _size s; _cache := _cache s; _oldCache := _oldCache s;
     _maxSize := n; _maxAge := _maxAge s;
     _onEviction := _onEviction s; _notified := _notified s |}.
Definition with_notified (l : list (K * V)) (s : t) : t :=
  {| _size := _size s; _cache := _cache s; _oldCache := _oldCache s;
     _maxSize := _maxSize s; _maxAge := _maxAge s;
     _onEviction := _onEviction s; _notified := l |}.

Definition constructor (options : Options) : error + t :=
  if negb (0 <? opt_maxSize options) then inl TypeError
  else match opt_maxAge options with
       | Some (Finite 0) => inl TypeError
       | _ =>
           inr {| _size := 0; _cache := []; _oldCache := [];
                  _maxSize := opt_maxSize options;
                  _maxAge := default Infinite (opt_maxAge options);
                  _onEviction := opt_onEviction options;
                  _notified := [] |}
       end.

(** One call [onEviction(key, value)]. *)
Definition call (f : K → V → bool) (key : K) (v : V) : M t unit :=
  (modify (λ s, with_notified (_notified s ++ [(key, v)]) s) ;;
   if f key v then throw CallbackError else ret tt)%lru.

Fixpoint emit_loop (f : K → V → bool) (c : list (K * CacheItem))
    : M t unit :=
  match c with
  | [] => ret tt
  | (key, item) :: c' => (call f key (value item) ;; emit_loop f c')%lru
  end.

Definition _emitEvictions (c : list (K * CacheItem)) : M t unit :=
  (s <- get_state ;;
   match _onEviction s with
   | None => ret tt
   | Some f => emit_loop f c
   end)%lru.

Definition delete (key : K) : M t bool :=
  (s <- get_state ;;
   let deleted := JSMap.has key (_cache s) in
   modify (with_cache (JSMap.delete key (_cache s))) ;;
   (if deleted then modify (λ s, with_size (_size s - 1) s) else ret tt) ;;
   s <- get_state ;;
   let deleted_old := JSMap.has key (_oldCache s) in
   modify (with_oldCache (JSMap.delete key (_oldCache s))) ;;
   ret (deleted_old || deleted))%lru.

(** [typeof item.expiry === "number" && item.expiry <= Date.now()] *)
Definition is_expired (item : CacheItem) (now : Z) : bool :=
  match expiry item with
  | Some e => e <=? now
  | None => false
  end.

Definition _deleteIfExpired (key : K) (item : CacheItem) (now : Z)
    : M t bool :=
  if is_expired item now then
    (s <- get_state ;;
     match _onEviction s with
     | Some f => call f key (value item)
     | None => ret tt
     end ;;
     delete key)%lru
  else ret false.

Definition _getOrDeleteIfExpired (key : K) (item : CacheItem) (now : Z)
    : M t (option V) :=
  (deleted <- _deleteIfExpired key item now ;;
   if deleted then ret None else ret (Some (value item)))%lru.

(** [item.expiry ? ... : item.value]: an absent expiry and the number 0
    are both falsy. *)
Definition _getItemValue (key : K) (item : CacheItem) (now : Z)
    : M t (option V) :=
  match expiry item with
  | Some e =>
      if e =? 0 then ret (Some (value item))
      else _getOrDeleteIfExpired key item now
  | None => ret (Some (value item))
  end.

Definition _peek (key : K) (sel : t → list (K * CacheItem)) (now : Z)
    : M t (option V) :=
  (s <- get_state ;;
   match JSMap.get key (sel s) with
   | None => ret None
   | Some item => _getItemValue key item now
   end)%lru.

Definition _set (key : K) (item : CacheItem) : M t unit :=
  (modify (λ s, with_cache (JSMap.set key item (_cache s)) s) ;;
   modify (λ s, with_size (_size s + 1) s) ;;
   s <- get_state ;;
   if _maxSize s <=? _size s then
     modify (with_size 0) ;;
     _emitEvictions (_oldCache s) ;;
     modify (λ s, with_oldCache (_cache s) s) ;;
     modify (with_cache [])
   else ret tt)%lru.

Definition _moveToRecent (key : K) (item : CacheItem) : M t unit :=
  (modify (λ s, with_oldCache (JSMap.delete key (_oldCache s)) s) ;;
   _set key item)%lru.

(** [for (const item of map)] over the live map [sel]: the entries are
    visited in the order they had when the loop started; an entry that
    was deleted before its turn is skipped, and the value is read when
    the entry is reached.  (The loops below never add entries.) *)
Definition for_of {Y} (sel : t → list (K * CacheItem))
    (body : K * CacheItem → M t (option Y)) : M t (list Y) :=
  (s <- get_state ;;
   for_array (λ p,
     s' <- get_state ;;
     match JSMap.get p.1 (sel s') with
     | Some item => body (p.1, item)
     | None => ret None
     end) (sel s))%lru.

Definition _entriesAscending (now : Z) : M t (list (K * CacheItem)) :=
  (xs <- for_of _oldCache (λ '(key, item),
     s <- get_state ;;
     if negb (JSMap.has key (_cache s)) then
       deleted <- _deleteIfExpired key item now ;;
       if deleted then ret None else ret (Some (key, item))
     else ret None) ;;
   ys <- for_of _cache (λ '(key, item),
     deleted <- _deleteIfExpired key item now ;;
     if deleted then ret None else ret (Some (key, item))) ;;
   ret (xs ++ ys))%lru.

Definition get (key : K) (now : Z) : M t (option V) :=
  (s <- get_state ;;
   match JSMap.get key (_cache s) with
   | Some item => _getItemValue key item now
   | None =>
       match JSMap.get key (_oldCache s) with
       | Some item =>
           deleted <- _deleteIfExpired key item now ;;
           if deleted then ret None
           else (_moveToRecent key item ;; ret (Some (value item)))
       | None => ret None
       end
   end)%lru.

Definition set (key : K) (v : V) (options_maxAge : option age) (now : Z)
    : M t unit :=
  (s <- get_state ;;
   let maxAge := default (_maxAge s) options_maxAge in
   let expiry :=
     match maxAge with
     | Finite a => Some (now + a)
     | Infinite => None
     end in
   if JSMap.has key (_cache s) then
     modify (with_cache
               (JSMap.set key {| value := v; expiry := expiry |} (_cache s)))
   else _set key {| value := v; expiry := expiry |})%lru.

Definition has (key : K) (now : Z) : M t bool :=
  (s <- get_state ;;
   match JSMap.get key (_cache s) with
   | Some item => deleted <- _deleteIfExpired key item now ;; ret (negb deleted)
   | None =>
       match JSMap.get key (_oldCache s) with
       | Some item =>
           deleted <- _deleteIfExpired key item now ;; ret (negb deleted)
       | None => ret false
       end
   end)%lru.

Definition peek (key : K) (now : Z) : M t (option V) :=
  (s <- get_state ;;
   if JSMap.has key (_cache s) then _peek key _cache now
   else if JSMap.has key (_oldCache s) then _peek key _oldCache now
   else ret None)%lru.

Definition clear : M t unit :=
  (modify (with_cache []) ;;
   modify (with_oldCache []) ;;
   modify (with_size 0))%lru.

Definition resize (maxSize : Z) (now : Z) : M t unit :=
  if negb (0 <? maxSize) then throw TypeError
  else
    (items <- _entriesAscending now ;;
     let removeCount := Z.of_nat (length items) - maxSize in
     (if removeCount <? 0 then
        modify (with_cache (JSMap.from_entries items)) ;;
        modify (with_oldCache []) ;;
        modify (with_size (Z.of_nat (length items)))
      else
        (if 0 <? removeCount then
           _emitEvictions
             (JSMap.from_entries (take (Z.to_nat removeCount) items))
         else ret tt) ;;
        modify (with_oldCache
                  (JSMap.from_entries (drop (Z.to_nat removeCount) items))) ;;
        modify (with_cache []) ;;
        modify (with_size 0)) ;;
     modify (with_maxSize maxSize))%lru.

Definition entriesDescending (now : Z) : M t (list (K * V)) :=
  (s <- get_state ;;
   let cacheItems := _cache s in
   xs <- for_array (λ '(key, item),
     deleted <- _deleteIfExpired key item now ;;
     if deleted then ret None else ret (Some (key, value item)))
     (reverse cacheItems) ;;
   s <- get_state ;;
   let oldItems := _oldCache s in
   ys <- for_array (λ '(key, item),
     s <- get_state ;;
     if negb (JSMap.has key (_cache s)) then
       deleted <- _deleteIfExpired key item now ;;
       if deleted then ret None else ret (Some (key, value item))
     else ret None)
     (reverse oldItems) ;;
   ret (xs ++ ys))%lru.

Definition entriesAscending (now : Z) : M t (list (K * V)) :=
  (items <- _entriesAscending now ;;
   ret (map (λ p, (p.1, value p.2)) items))%lru.

Definition size (s : t) : Z :=
  if _size s =? 0 then JSMap.size (_oldCache s)
  else
    let oldCacheSize :=
      fold_left (λ n key, if JSMap.has key (_cache s) then n else n + 1)
                (JSMap.keys (_oldCache s)) 0 in
    Z.min (_size s + oldCacheSize) (_maxSize s).

Definition maxSize (s : t) : Z := _maxSize s.

End LRUBase.
End LRUBase.

Arguments LRUBase.CacheItem : clear implicits.
Arguments LRUBase.Options : clear implicits.
Arguments LRUBase.t : clear implicits.

(** ** The facade *)

Module QuickLRU.
Section QuickLRU.
Context {K V : Type} `{EqDecision K}.

Record t := {
  _base : LRUBase.t K V;
  _map : list (K * V);
}.

Definition with_base (b : LRUBase.t K V) (q : t) : t :=
  {| _base := b; _map := _map q |}.
Definition with_map (m : list (K * V)) (q : t) : t :=
  {| _base := _base q; _map := m |}.

(** A call [this.#base.method(...)]. *)
Definition on_base {A} (m : M (LRUBase.t K V) A) : M t A :=
  λ q, match m (_base q) with
       | Ret a b => Ret a (with_base b q)
       | Throw e b => Throw e (with_base b q)
       end.

Definition constructor (options : LRUBase.Options K V) : error + t :=
  match LRUBase.constructor options with
  | inl e => inl e
  | inr b => inr {| _base := b; _map := [] |}
  end.

Definition clear : M t unit :=
  (on_base LRUBase.clear ;;
   modify (with_map []))%lru.

Definition delete (key : K) : M t bool :=
  on_base (LRUBase.delete key).

Definition get (key : K) (now : Z) : M t (option V) :=
  on_base (LRUBase.get key now).

Definition has (key : K) (now : Z) : M t bool :=
  on_base (LRUBase.has key now).

Definition set (key : K) (v : V) (now : Z) : M t unit :=
  (on_base (LRUBase.set key v None now) ;;
   modify (λ q, with_map (JSMap.set key v (_map q)) q))%lru.

Definition size (q : t) : Z := LRUBase.size (_base q).
Definition maxSize (q : t) : Z := LRUBase.maxSize (_base q).

Definition peek (key : K) (now : Z) : M t (option V) :=
  on_base (LRUBase.peek key now).

Definition resize (maxSize : Z) (now : Z) : M t unit :=
  on_base (LRUBase.resize maxSize now).

Definition entriesAscending (now : Z) : M t (list (K * V)) :=
  on_base (LRUBase.entriesAscending now).

Definition entriesDescending (now : Z) : M t (list (K * V)) :=
  on_base (LRUBase.entriesDescending now).

Definition entries (q : t) : list (K * V) := _map q.
Definition keys (q : t) : list K := (_map q).*1.
Definition values (q : t) : list V := (_map q).*2.

End QuickLRU.
End QuickLRU.

Arguments QuickLRU.t : clear implicits.

(** ** Specification vocabulary for the engine *)

Module LRUSpec.
Section LRUSpec.
Context {K V : Type} `{EqDecision K}.
Local Abbreviation item := (LRUBase.CacheItem V).
Local Abbreviation state := (LRUBase.t K V).

(** The configured callback, if any, never throws. *)
Definition no_throw (s : state) : Prop :=
  match LRUBase._onEviction s with
  | Some f => ∀ k v, f k v = false
  | None => True
  end.

(** What an iteration yields, and a notification reports, for an
    entry. *)
Definition view (p : K * item) : K * V := (p.1, LRUBase.value p.2).

(** The notifications [(key, value)] of a list of entries. *)
Definition events (c : list (K * item)) : list (K * V) := view <$> c.

(** The state after the calls [evs] were made (none is made without a
    callback). *)
Definition note (evs : list (K * V)) (s : state) : state :=
  match LRUBase._onEviction s with
  | Some _ => LRUBase.with_notified (LRUBase._notified s ++ evs) s
  | None => s
  end.

(** The state after [delete key]. *)
Definition del (key : K) (s : state) : state :=
  LRUBase.with_oldCache (JSMap.delete key (LRUBase._oldCache s))
    (LRUBase.with_size
       (if JSMap.has key (LRUBase._cache s)
        then LRUBase._size s - 1 else LRUBase._size s)
       (LRUBase.with_cache (JSMap.delete key (LRUBase._cache s)) s)).

(** The state after the entries [E] were found expired, one after the
    other: each is notified, then deleted. *)
Definition purge (E : list (K * item)) (s : state) : state :=
  fold_left (λ s p, del p.1 (note [(p.1, LRUBase.value p.2)] s)) E s.

(** The test [get] and [peek] apply to an entry they found: its expiry
    is a truthy number and the clock has reached it. *)
Definition stale (it : item) (now : Z) : bool :=
  match LRUBase.expiry it with
  | Some e => negb (e =? 0) && (e <=? now)
  | None => false
  end.

(** The state after [#set]: the entry is stored in the active
    generation and counted; a full active generation is rotated. *)
Definition insert (key : K) (it : item) (s : state) : state :=
  LRUBase.with_size (LRUBase._size s + 1)
    (LRUBase.with_cache (JSMap.set key it (LRUBase._cache s)) s).
Definition rotate (s : state) : state :=
  LRUBase.with_cache []
    (LRUBase.with_oldCache (LRUBase._cache s)
       (note (events (LRUBase._oldCache s)) (LRUBase.with_size 0 s))).
Definition store (key : K) (it : item) (s : state) : state :=
  if LRUBase._maxSize s <=? LRUBase._size s + 1
  then rotate (insert key it s) else insert key it s.

(** The state after [#moveToRecent]. *)
Definition promote (key : K) (it : item) (s : state) : state :=
  store key it
    (LRUBase.with_oldCache (JSMap.delete key (LRUBase._oldCache s)) s).

(** The entry that [set] stores. *)
Definition new_item (v : V) (maxAge : option LRUBase.age) (now : Z)
    (s : state) : item :=
  {| LRUBase.value := v;
     LRUBase.expiry :=
       match default (LRUBase._maxAge s) maxAge with
       | LRUBase.Finite a => Some (now + a)
       | LRUBase.Infinite => None
       end |}.

(** The entry that answers for [key]: the one of the active generation,
    else the one of the previous generation. *)
Definition entry (key : K) (s : state) : option item :=
  match JSMap.get key (LRUBase._cache s) with
  | Some it => Some it
  | None => JSMap.get key (LRUBase._oldCache s)
  end.

(** The entries collected by the ascending walk: previous entries that
    are neither shadowed nor expired, then active entries that are not
    expired, each generation in insertion order. *)
Definition live_old (now : Z) (s : state) : list (K * item) :=
  filter (λ p, JSMap.has p.1 (LRUBase._cache s) = false
               ∧ LRUBase.is_expired p.2 now = false) (LRUBase._oldCache s).
Definition live_cache (now : Z) (s : state) : list (K * item) :=
  filter (λ p, LRUBase.is_expired p.2 now = false) (LRUBase._cache s).
Definition live (now : Z) (s : state) : list (K * item) :=
  live_old now s ++ live_cache now s.

(** The entries the ascending walk finds expired, in the order it
    meets them. *)
Definition dead_old (now : Z) (s : state) : list (K * item) :=
  filter (λ p, JSMap.has p.1 (LRUBase._cache s) = false
               ∧ LRUBase.is_expired p.2 now = true) (LRUBase._oldCache s).
Definition dead_cache (now : Z) (s : state) : list (K * item) :=
  filter (λ p, LRUBase.is_expired p.2 now = true) (LRUBase._cache s).

Definition none_expiredb (now : Z) (s : state) : bool :=
  forallb (λ p, negb (LRUBase.is_expired p.2 now))
          (LRUBase._cache s ++ LRUBase._oldCache s).

(** The state after a successful [resize]. *)
Definition resized (m now : Z) (s : state) : state :=
  let items := live now s in
  let s1 := purge (dead_cache now s) (purge (dead_old now s) s) in
  let removeCount := Z.of_nat (length items) - m in
  LRUBase.with_maxSize m
    (if removeCount <? 0 then
       LRUBase.with_size (Z.of_nat (length items))
         (LRUBase.with_oldCache [] (LRUBase.with_cache items s1))
     else
       LRUBase.with_size 0
         (LRUBase.with_cache []
            (LRUBase.with_oldCache (drop (Z.to_nat removeCount) items)
               (note (events (take (Z.to_nat removeCount) items)) s1)))).

(** The entries of the previous generation that the active generation
    does not shadow. *)
Definition unshadowed_entries (s : state) : list (K * item) :=
  filter (λ p, JSMap.has p.1 (LRUBase._cache s) = false)
         (LRUBase._oldCache s).

(** No entry of either generation is expired at [now]. *)
Definition none_expired (now : Z) (s : state) : Prop :=
  (∀ p, p ∈ LRUBase._cache s → LRUBase.is_expired p.2 now = false) ∧
  (∀ p, p ∈ LRUBase._oldCache s → LRUBase.is_expired p.2 now = false).

(** One turn of a generator loop over the entries of a generation:
    [lv] says whether the loop reads the live map [sel] (a [for ... of]
    over the map) or a copy of its entries (an array), [guard] whether
    entries shadowed by the active generation are skipped, [proj] what is
    yielded. *)
Definition visit {Y} (sel : state → list (K * item)) (lv guard : bool)
    (proj : K * item → Y) (now : Z) (p : K * item) : M state (option Y) :=
  (s <- get_state ;;
   match (if lv then JSMap.get p.1 (sel s) else Some p.2) with
   | Some it =>
       if guard && JSMap.has p.1 (LRUBase._cache s) then ret None
       else
         deleted <- LRUBase._deleteIfExpired p.1 it now ;;
         if deleted then ret None else ret (Some (proj (p.1, it)))
   | None => ret None
   end)%lru.

(** The invariant of the states the cache goes through between
    operations. *)
Record Inv (s : state) : Prop := {
  inv_cache : JSMap.wf (LRUBase._cache s);
  inv_oldCache : JSMap.wf (LRUBase._oldCache s);
  inv_size : LRUBase._size s = JSMap.size (LRUBase._cache s);
  inv_room : LRUBase._size s < LRUBase._maxSize s;
  inv_old_bound : JSMap.size (LRUBase._oldCache s) ≤ LRUBase._maxSize s;
}.

(** Operations, each with the clock value it sees. *)
Inductive op :=
  | OGet (key : K)
  | OSet (key : K) (v : V) (maxAge : option LRUBase.age)
  | OHas (key : K)
  | OPeek (key : K)
  | ODelete (key : K)
  | OClear
  | OResize (maxSize : Z)
  | OEntriesAscending
  | OEntriesDescending.

Definition exec (o : op) (now : Z) (s : state) : state :=
  match o with
  | OGet key => state_of (LRUBase.get key now s)
  | OSet key v maxAge => state_of (LRUBase.set key v maxAge now s)
  | OHas key => state_of (LRUBase.has key now s)
  | OPeek key => state_of (LRUBase.peek key now s)
  | ODelete key => state_of (LRUBase.delete key s)
  | OClear => state_of (LRUBase.clear s)
  | OResize n => state_of (LRUBase.resize n now s)
  | OEntriesAscending => state_of (LRUBase.entriesAscending now s)
  | OEntriesDescending => state_of (LRUBase.entriesDescending now s)
  end.

Definition run (ops : list (Z * op)) (s : state) : state :=
  fold_left (λ s x, exec x.2 x.1 s) ops s.

(** From [s] to [s'] the entry that answers for [k] is kept or lost,
    never replaced. *)
Definition keeps (k : K) (s s' : state) : Prop :=
  entry k s' = entry k s ∨ entry k s' = None.

(** The states a cache goes through when its callback never throws. *)
Definition reachable (s : state) : Prop :=
  ∃ options s0 ops,
    LRUBase.constructor options = inr s0 ∧ no_throw s0 ∧ s = run ops s0.

(** The keys of the previous generation that the active generation does
    not shadow, and the distinct keys held by the two generations. *)
Definition unshadowed (s : state) : list K :=
  filter (λ key, JSMap.has key (LRUBase._cache s) = false)
         (JSMap.keys (LRUBase._oldCache s)).
Definition present_keys (s : state) : list K :=
  JSMap.keys (LRUBase._cache s) ++ unshadowed s.

(** The reading of [size] as the number of live entries: the keys whose
    entry is, at [now], neither shadowed nor expired. *)
Definition size_counts_live : Prop :=
  ∀ s now, reachable s → LRUBase.size s = Z.of_nat (length (live now s)).

(** The reading of [resize] without overflow in which the boundary
    [overflow = 0] fills the active generation and nothing is notified. *)
Definition resize_fills_active : Prop :=
  ∀ s m now,
    reachable s → 0 < m → Z.of_nat (length (live now s)) - m ≤ 0 →
    let s' := state_of (LRUBase.resize m now s) in
    LRUBase._cache s' = live now s ∧
    LRUBase._oldCache s' = [] ∧
    LRUBase._size s' = Z.of_nat (length (live now s)) ∧
    LRUBase._notified s' = LRUBase._notified s.

(** The reading of the notifications in which the change they report is
    already made when the callback runs: should the callback throw, the
    expired entry is gone, the rotated generations are in place, the
    resized generations and bound are in place. *)
Definition notified_after_change : Prop :=
  (∀ (s : state) (key : K) (it : item) now s',
     LRUBase._deleteIfExpired key it now s = Throw CallbackError s' →
     entry key s' = None) ∧
  (∀ (s : state) (key : K) (it : item) s',
     LRUBase._set key it s = Throw CallbackError s' →
     LRUBase._cache s' = [] ∧
     LRUBase._oldCache s' = JSMap.set key it (LRUBase._cache s)) ∧
  (∀ (s : state) m now s',
     Inv s →
     LRUBase.resize m now s = Throw CallbackError s' →
     LRUBase._cache s' = [] ∧ LRUBase._maxSize s' = m).

Definition sets_key (key : K) (o : op) : Prop :=
  match o with OSet k _ _ => k = key | _ => False end.

(** The reading of the bound in which it holds after every operation of
    every sequence, whatever the eviction callback does. *)
Definition size_bounded_always : Prop :=
  ∀ options s0 ops,
    LRUBase.constructor options = inr s0 →
    LRUBase.size (run ops s0) ≤ LRUBase.maxSize (run ops s0).

(** The computation leaves maxSize as it is, whether it returns or
    throws. *)
Definition keeps_maxSize {A} (m : M state A) : Prop :=
  ∀ s, LRUBase._maxSize (state_of (m s)) = LRUBase._maxSize s.

End LRUSpec.
End LRUSpec.

(** ** Specification vocabulary for the facade *)

Module QuickSpec.
Section QuickSpec.
Context {K V : Type} `{EqDecision K}.
Local Abbreviation facade := (QuickLRU.t K V).

Inductive op :=
  | OClear
  | ODelete (key : K)
  | OGet (key : K)
  | OHas (key : K)
  | OSet (key : K) (v : V)
  | OPeek (key : K)
  | OResize (maxSize : Z)
  | OEntriesAscending
  | OEntriesDescending.

Definition exec (o : op) (now : Z) (q : facade) : facade :=
  match o with
  | OClear => state_of (QuickLRU.clear q)
  | ODelete key => state_of (QuickLRU.delete key q)
  | OGet key => state_of (QuickLRU.get key now q)
  | OHas key => state_of (QuickLRU.has key now q)
  | OSet key v => state_of (QuickLRU.set key v now q)
  | OPeek key => state_of (QuickLRU.peek key now q)
  | OResize n => state_of (QuickLRU.resize n now q)
  | OEntriesAscending => state_of (QuickLRU.entriesAscending now q)
  | OEntriesDescending => state_of (QuickLRU.entriesDescending now q)
  end.

Definition run (ops : list (Z * op)) (q : facade) : facade :=
  fold_left (λ q x, exec x.2 x.1 q) ops q.

(** The same operation on the engine. *)
Definition on_engine (o : op) : LRUSpec.op :=
  match o with
  | OClear => LRUSpec.OClear
  | ODelete key => LRUSpec.ODelete key
  | OGet key => LRUSpec.OGet key
  | OHas key => LRUSpec.OHas key
  | OSet key v => LRUSpec.OSet key v None
  | OPeek key => LRUSpec.OPeek key
  | OResize n => LRUSpec.OResize n
  | OEntriesAscending => LRUSpec.OEntriesAscending
  | OEntriesDescending => LRUSpec.OEntriesDescending
  end.

(** The [(key, value)] pairs of the [set] calls of a sequence, in
    order. *)
Definition sets (ops : list (Z * op)) : list (K * V) :=
  omap (λ x, match x.2 with OSet key v => Some (key, v) | _ => None end) ops.

(** The distinct elements of a list, each at its first occurrence. *)
Fixpoint first_occurrences (ks : list K) : list K :=
  match ks with
  | [] => []
  | k :: ks' => k :: filter (λ x, x ≠ k) (first_occurrences ks')
  end.

(** The value of the latest pair for [k]. *)
Definition latest (k : K) (kvs : list (K * V)) : option V :=
  JSMap.get k (reverse kvs).

(** The reading of the mirror in which, without [clear], [keys()] yields
    every key [set] was called on, whatever the eviction callback
    does. *)
Definition mirror_keeps_always : Prop :=
  ∀ options q0 ops,
    QuickLRU.constructor options = inr q0 →
    Forall (λ x, x.2 ≠ OClear) ops →
    QuickLRU.keys (run ops q0) = first_occurrences (JSMap.keys (sets ops)).

End QuickSpec.
End QuickSpec.

(** ** Concrete caches used by the examples *)

Module Scenario.

Definition quiet : string → Z → bool := λ _ _, false.
Definition throwing : string → Z → bool := λ _ _, true.
(** A callback that throws when called for [key], and only then. *)
Definition throwing_on (key : string) : string → Z → bool :=
  λ k _, bool_decide (k = key).

Definition options (m : Z) (a : option LRUBase.age)
    (f : option (string → Z → bool)) : LRUBase.Options string Z :=
  {| LRUBase.opt_maxAge := a; LRUBase.opt_maxSize := m;
     LRUBase.opt_onEviction := f |}.

(** [new LRUBase({maxSize: m, maxAge: a, onEviction: f})] *)
Definition fresh (m : Z) (a : LRUBase.age) (f : option (string → Z → bool))
    : LRUBase.t string Z :=
  {| LRUBase._size := 0; LRUBase._cache := []; LRUBase._oldCache := [];
     LRUBase._maxSize := m; LRUBase._maxAge := a;
     LRUBase._onEviction := f; LRUBase._notified := [] |}.

Definition entry_of (v : Z) (e : option Z) : LRUBase.CacheItem Z :=
  {| LRUBase.value := v; LRUBase.expiry := e |}.

(** [new QuickLRU({maxSize: m, maxAge: a, onEviction: f})] *)
Definition fresh_facade (m : Z) (a : LRUBase.age)
    (f : option (string → Z → bool)) : QuickLRU.t string Z :=
  {| QuickLRU._base := fresh m a f; QuickLRU._map := [] |}.

End Scenario.

(** ** Vocabulary for the retention guarantee *)

Module Retention.
Section Retention.
Context {K V : Type} `{EqDecision K}.
Local Abbreviation item := (LRUBase.CacheItem V).
Local Abbreviation state := (LRUBase.t K V).

(** No time-to-live is in play: the default maxAge is infinite and no
    stored entry carries an expiry. *)
Definition no_ttl (s : state) : Prop :=
  LRUBase._maxAge s = LRUBase.Infinite ∧
  ∀ p, p ∈ LRUBase._cache s ++ LRUBase._oldCache s →
       LRUBase.expiry p.2 = None.

(** The operations that read or store without a per-call maxAge. *)
Definition plain (o : @LRUSpec.op K V) : Prop :=
  match o with
  | LRUSpec.OGet _ | LRUSpec.OHas _ | LRUSpec.OPeek _
  | LRUSpec.OSet _ _ None => True
  | _ => False
  end.

(** The number of insertions into the active generation that [k] is
    sure to outlive: an entry of the active generation goes at the
    second rotation from now, one of the previous generation at the
    next. *)
Definition credit (k : K) (s : state) : Z :=
  if JSMap.has k (LRUBase._cache s)
  then 2 * LRUBase._maxSize s - LRUBase._size s - 1
  else if JSMap.has k (LRUBase._oldCache s)
  then LRUBase._maxSize s - LRUBase._size s - 1
  else -1.

End Retention.
End Retention.

(** ** Vocabulary for the mirror of the facade *)

Module Mirror.
Section Mirror.
Context {K V : Type} `{EqDecision K}.

(** Every entry of the engine is mirrored with its value. *)
Definition covered (q : QuickLRU.t K V) : Prop :=
  ∀ k it, LRUSpec.entry k (QuickLRU._base q) = Some it →
          JSMap.get k (QuickLRU._map q) = Some (LRUBase.value it).

End Mirror.
End Mirror.

(** ** The statement caches of the driver *)

Module EnhancedStatementCache.
Section EnhancedStatementCache.
Context {V : Type}.

(** What [getStats] returns. *)
Record CacheStats := {
  hits : Z;
  misses : Z;
  size : Z;
  evictions : Z;
  totalQueries : Z;
}.

(** The object: the cache and the counters its methods update.  The
    fifth counter, [stats.evictions], is incremented by the closure that
    the constructor passes to the cache as [onEviction], before that
    closure calls the caller's own callback; every call of the closure
    is a call recorded by the engine in [_notified], so the counter is
    the length of that list ([getStats]). *)
Record t := {
  cache : QuickLRU.t string V;
  stats_hits : Z;
  stats_misses : Z;
  stats_size : Z;
  stats_totalQueries : Z;
}.

Definition with_cache (c : QuickLRU.t string V) (e : t) : t :=
  {| cache := c; stats_hits := stats_hits e; stats_misses := stats_misses e;
     stats_size := stats_size e;
     stats_totalQueries := stats_totalQueries e |}.
Definition with_hits (n : Z) (e : t) : t :=
  {| cache := cache e; stats_hits := n; stats_misses := stats_misses e;
     stats_size := stats_size e;
     stats_totalQueries := stats_totalQueries e |}.
Definition with_misses (n : Z) (e : t) : t :=
  {| cache := cache e; stats_hits := stats_hits e; stats_misses := n;
     stats_size := stats_size e;
     stats_totalQueries := stats_totalQueries e |}.
Definition with_size (n : Z) (e : t) : t :=
  {| cache := cache e; stats_hits := stats_hits e;
     stats_misses := stats_misses e; stats_size := n;
     stats_totalQueries := stats_totalQueries e |}.
Definition with_totalQueries (n : Z) (e : t) : t :=
  {| cache := cache e; stats_hits := stats_hits e;
     stats_misses := stats_misses e; stats_size := stats_size e;
     stats_totalQueries := n |}.

(** A call [this.cache.method(...)]. *)
Definition on_cache {A} (m : M (QuickLRU.t string V) A) : M t A :=
  λ e, match m (cache e) with
       | Ret a c => Ret a (with_cache c e)
       | Throw x c => Throw x (with_cache c e)
       end.

(** The closure given to the cache: it throws when the caller's callback
    does. *)
Definition counting (onEviction : option (string → V → bool))
    : string → V → bool :=
  λ sql stmt, match onEviction with Some f => f sql stmt | None => false end.

Definition constructor (maxSize : Z) (maxAge : option LRUBase.age)
    (onEviction : option (string → V → bool)) : error + t :=
  match QuickLRU.constructor
          {| LRUBase.opt_maxAge := maxAge; LRUBase.opt_maxSize := maxSize;
             LRUBase.opt_onEviction := Some (counting onEviction) |} with
  | inl x => inl x
  | inr c =>
      inr {| cache := c; stats_hits := 0; stats_misses := 0;
             stats_size := 0; stats_totalQueries := 0 |}
  end.

Definition get (sql : string) (now : Z) : M t (option V) :=
  (modify (λ e, with_totalQueries (stats_totalQueries e + 1) e) ;;
   stmt <- on_cache (QuickLRU.get sql now) ;;
   match stmt with
   | Some _ => modify (λ e, with_hits (stats_hits e + 1) e)
   | None => modify (λ e, with_misses (stats_misses e + 1) e)
   end ;;
   ret stmt)%lru.

Definition set (sql : string) (statement : V) (now : Z) : M t unit :=
  (on_cache (QuickLRU.set sql statement now) ;;
   modify (λ e, with_size (QuickLRU.size (cache e)) e))%lru.

Definition delete (sql : string) : M t unit :=
  (on_cache (QuickLRU.delete sql) ;;
   modify (λ e, with_size (QuickLRU.size (cache e)) e))%lru.

Definition clear : M t unit :=
  (on_cache QuickLRU.clear ;;
   modify (with_size 0))%lru.

Definition getStats (e : t) : CacheStats :=
  {| hits := stats_hits e; misses := stats_misses e; size := stats_size e;
     evictions :=
       Z.of_nat (length (LRUBase._notified (QuickLRU._base (cache e))));
     totalQueries := stats_totalQueries e |}.

(** Sequences of calls. *)
Inductive op :=
  | OGet (sql : string)
  | OSet (sql : string) (statement : V)
  | ODelete (sql : string)
  | OClear.

Definition exec (o : op) (now : Z) (e : t) : t :=
  match o with
  | OGet sql => state_of (get sql now e)
  | OSet sql statement => state_of (set sql statement now e)
  | ODelete sql => state_of (delete sql e)
  | OClear => state_of (clear e)
  end.

Definition run (ops : list (Z * op)) (e : t) : t :=
  fold_left (λ e x, exec x.2 x.1 e) ops e.

Definition is_get (o : op) : bool :=
  match o with OGet _ => true | _ => false end.

(** The engine under the cache, and the engine operation a call comes
    down to. *)
Definition engine (e : t) : LRUBase.t string V := QuickLRU._base (cache e).
Definition on_engine (o : op) : @LRUSpec.op string V :=
  match o with
  | OGet sql => LRUSpec.OGet sql
  | OSet sql statement => LRUSpec.OSet sql statement None
  | ODelete sql => LRUSpec.ODelete sql
  | OClear => LRUSpec.OClear
  end.

(** What the counters are between calls, after [n] calls of [get] on a
    cache of bound [m] whose callback never throws. *)
Record counted (m : Z) (n : nat) (e : t) : Prop := {
  counted_queries : stats_hits e + stats_misses e = stats_totalQueries e;
  counted_gets : stats_totalQueries e = Z.of_nat n;
  counted_hits : 0 ≤ stats_hits e;
  counted_misses : 0 ≤ stats_misses e;
  counted_size : 0 ≤ stats_size e ≤ m;
  counted_bound : LRUBase._maxSize (engine e) = m;
  counted_inv : LRUSpec.Inv (engine e);
  counted_quiet : LRUSpec.no_throw (engine e);
}.

End EnhancedStatementCache.
End EnhancedStatementCache.

Arguments EnhancedStatementCache.t : clear implicits.
Arguments EnhancedStatementCache.CacheStats : clear implicits.

(** [createDefaultStatementCache]: a plain [Map]. *)
Module DefaultStatementCache.
Section DefaultStatementCache.
Context {V : Type}.

Definition get (sql : string) : M (list (string * V)) (option V) :=
  (cacheMap <- get_state ;; ret (JSMap.get sql cacheMap))%lru.
Definition set (sql : string) (stmt : V) : M (list (string * V)) unit :=
  modify (JSMap.set sql stmt).
Definition delete (sql : string) : M (list (string * V)) unit :=
  modify (JSMap.delete sql).
Definition clear : M (list (string * V)) unit :=
  modify (λ _, []).

Inductive op :=
  | OGet (sql : string)
  | OSet (sql : string) (stmt : V)
  | ODelete (sql : string)
  | OClear.

Definition exec (o : op) (m : list (string * V)) : list (string * V) :=
  match o with
  | OGet sql => state_of (get sql m)
  | OSet sql stmt => state_of (set sql stmt m)
  | ODelete sql => state_of (delete sql m)
  | OClear => state_of (clear m)
  end.

Definition run (ops : list op) (m : list (string * V)) : list (string * V) :=
  fold_left (λ m o, exec o m) ops m.

(** The call removes [sql], alone or with everything else. *)
Definition drops (sql : string) (o : op) : Prop :=
  match o with
  | ODelete k => k = sql
  | OClear => True
  | _ => False
  end.
Definition stores (sql : string) (o : op) : Prop :=
  match o with OSet k _ => k = sql | _ => False end.

End DefaultStatementCache.
End DefaultStatementCache.

(** ** Result codes and the error class of the driver *)

Module SqlitePrimaryResultCode.

Inductive t :=
  | SQLITE_OK | SQLITE_ERROR | SQLITE_INTERNAL | SQLITE_PERM | SQLITE_ABORT
  | SQLITE_BUSY | SQLITE_LOCKED | SQLITE_NOMEM | SQLITE_READONLY
  | SQLITE_INTERRUPT | SQLITE_IOERR | SQLITE_CORRUPT | SQLITE_NOTFOUND
  | SQLITE_FULL | SQLITE_CANTOPEN | SQLITE_PROTOCOL | SQLITE_EMPTY
  | SQLITE_SCHEMA | SQLITE_TOOBIG | SQLITE_CONSTRAINT | SQLITE_MISMATCH
  | SQLITE_MISUSE | SQLITE_NOLFS | SQLITE_AUTH | SQLITE_FORMAT
  | SQLITE_RANGE | SQLITE_NOTADB | SQLITE_NOTICE | SQLITE_WARNING
  | SQLITE_ROW | SQLITE_DONE.

#[global] Instance eq_dec : EqDecision t.
Proof. solve_decision. Defined.

(** The number of an enum member. *)
Definition code (c : t) : Z :=
  match c with
  | SQLITE_OK => 0 | SQLITE_ERROR => 1 | SQLITE_INTERNAL => 2
  | SQLITE_PERM => 3 | SQLITE_ABORT => 4 | SQLITE_BUSY => 5
  | SQLITE_LOCKED => 6 | SQLITE_NOMEM => 7 | SQLITE_READONLY => 8
  | SQLITE_INTERRUPT => 9 | SQLITE_IOERR => 10 | SQLITE_CORRUPT => 11
  | SQLITE_NOTFOUND => 12 | SQLITE_FULL => 13 | SQLITE_CANTOPEN => 14
  | SQLITE_PROTOCOL => 15 | SQLITE_EMPTY => 16 | SQLITE_SCHEMA => 17
  | SQLITE_TOOBIG => 18 | SQLITE_CONSTRAINT => 19 | SQLITE_MISMATCH => 20
  | SQLITE_MISUSE => 21 | SQLITE_NOLFS => 22 | SQLITE_AUTH => 23
  | SQLITE_FORMAT => 24 | SQLITE_RANGE => 25 | SQLITE_NOTADB => 26
  | SQLITE_NOTICE => 27 | SQLITE_WARNING => 28
  | SQLITE_ROW => 100 | SQLITE_DONE => 101
  end.

End SqlitePrimaryResultCode.

Module SqliteExtendedResultCode.

Inductive t :=
  | SQLITE_CONSTRAINT_CHECK | SQLITE_CONSTRAINT_COMMITHOOK
  | SQLITE_CONSTRAINT_FOREIGNKEY | SQLITE_CONSTRAINT_FUNCTION
  | SQLITE_CONSTRAINT_NOTNULL | SQLITE_CONSTRAINT_PRIMARYKEY
  | SQLITE_CONSTRAINT_TRIGGER | SQLITE_CONSTRAINT_UNIQUE
  | SQLITE_CONSTRAINT_VTAB | SQLITE_CONSTRAINT_ROWID
  | SQLITE_CONSTRAINT_PINNED | SQLITE_CONSTRAINT_DATATYPE
  | SQLITE_IOERR_READ | SQLITE_IOERR_WRITE | SQLITE_IOERR_FSYNC
  | SQLITE_IOERR_LOCK | SQLITE_IOERR_UNLOCK | SQLITE_IOERR_NOMEM
  | SQLITE_BUSY_RECOVERY | SQLITE_BUSY_SNAPSHOT | SQLITE_BUSY_TIMEOUT
  | SQLITE_LOCKED_SHAREDCACHE
  | SQLITE_CORRUPT_VTAB | SQLITE_CORRUPT_SEQUENCE | SQLITE_CORRUPT_INDEX.

Definition code (c : t) : Z :=
  match c with
  | SQLITE_CONSTRAINT_CHECK => 275
  | SQLITE_CONSTRAINT_COMMITHOOK => 531
  | SQLITE_CONSTRAINT_FOREIGNKEY => 787
  | SQLITE_CONSTRAINT_FUNCTION => 1043
  | SQLITE_CONSTRAINT_NOTNULL => 1299
  | SQLITE_CONSTRAINT_PRIMARYKEY => 1555
  | SQLITE_CONSTRAINT_TRIGGER => 1811
  | SQLITE_CONSTRAINT_UNIQUE => 2067
  | SQLITE_CONSTRAINT_VTAB => 2323
  | SQLITE_CONSTRAINT_ROWID => 2579
  | SQLITE_CONSTRAINT_PINNED => 2835
  | SQLITE_CONSTRAINT_DATATYPE => 3091
  | SQLITE_IOERR_READ => 266
  | SQLITE_IOERR_WRITE => 778
  | SQLITE_IOERR_FSYNC => 1034
  | SQLITE_IOERR_LOCK => 3850
  | SQLITE_IOERR_UNLOCK => 2058
  | SQLITE_IOERR_NOMEM => 3082
  | SQLITE_BUSY_RECOVERY => 261
  | SQLITE_BUSY_SNAPSHOT => 517
  | SQLITE_BUSY_TIMEOUT => 773
  | SQLITE_LOCKED_SHAREDCACHE => 262
  | SQLITE_CORRUPT_VTAB => 267
  | SQLITE_CORRUPT_SEQUENCE => 523
  | SQLITE_CORRUPT_INDEX => 779
  end.

(** The primary code that the name of an extended code announces. *)
Definition family (c : t) : SqlitePrimaryResultCode.t :=
  match c with
  | SQLITE_CONSTRAINT_CHECK | SQLITE_CONSTRAINT_COMMITHOOK
  | SQLITE_CONSTRAINT_FOREIGNKEY | SQLITE_CONSTRAINT_FUNCTION
  | SQLITE_CONSTRAINT_NOTNULL | SQLITE_CONSTRAINT_PRIMARYKEY
  | SQLITE_CONSTRAINT_TRIGGER | SQLITE_CONSTRAINT_UNIQUE
  | SQLITE_CONSTRAINT_VTAB | SQLITE_CONSTRAINT_ROWID
  | SQLITE_CONSTRAINT_PINNED | SQLITE_CONSTRAINT_DATATYPE =>
      SqlitePrimaryResultCode.SQLITE_CONSTRAINT
  | SQLITE_IOERR_READ | SQLITE_IOERR_WRITE | SQLITE_IOERR_FSYNC
  | SQLITE_IOERR_LOCK | SQLITE_IOERR_UNLOCK | SQLITE_IOERR_NOMEM =>
      SqlitePrimaryResultCode.SQLITE_IOERR
  | SQLITE_BUSY_RECOVERY | SQLITE_BUSY_SNAPSHOT | SQLITE_BUSY_TIMEOUT =>
      SqlitePrimaryResultCode.SQLITE_BUSY
  | SQLITE_LOCKED_SHAREDCACHE => SqlitePrimaryResultCode.SQLITE_LOCKED
  | SQLITE_CORRUPT_VTAB | SQLITE_CORRUPT_SEQUENCE | SQLITE_CORRUPT_INDEX =>
      SqlitePrimaryResultCode.SQLITE_CORRUPT
  end.

End SqliteExtendedResultCode.

Module NodeSqliteError.
Import SqlitePrimaryResultCode.

(** The fields the methods below read; [errcode] is an integer.  The
    field [errorType], a label looked up from [errcode], is left out. *)
Record t := {
  code : string;
  errcode : Z;
  errstr : string;
  message : string;
}.

(** The conversion of a number to a signed 32-bit integer that the
    bitwise operators apply to their operands. *)
Definition ToInt32 (n : Z) : Z := (n + 2 ^ 31) mod 2 ^ 32 - 2 ^ 31.

Definition getPrimaryResultCode (e : t) : Z :=
  Z.land (ToInt32 (errcode e)) 255.

Definition getExtendedResultCode (e : t) : option Z :=
  if 255 <? errcode e then Some (errcode e) else None.

Definition isConstraintError (e : t) : bool :=
  let primary := getPrimaryResultCode e in
  primary =? SqlitePrimaryResultCode.code SQLITE_CONSTRAINT.

Definition isConstraintType (e : t) (type : SqliteExtendedResultCode.t)
    : bool :=
  errcode e =? SqliteExtendedResultCode.code type.

Definition isDatabaseLocked (e : t) : bool :=
  let primary := getPrimaryResultCode e in
  (primary =? SqlitePrimaryResultCode.code SQLITE_BUSY)
  || (primary =? SqlitePrimaryResultCode.code SQLITE_LOCKED).

Definition isCorruption (e : t) : bool :=
  let primary := getPrimaryResultCode e in
  primary =? SqlitePrimaryResultCode.code SQLITE_CORRUPT.

(** [x || d] on an optional string and on an optional number: the empty
    string and 0 are falsy, as is a missing property. *)
Definition or_string (x : option string) (d : string) : string :=
  match x with
  | Some EmptyString | None => d
  | Some s => s
  end.
Definition or_number (x : option Z) (d : Z) : Z :=
  match x with
  | Some 0 | None => d
  | Some n => n
  end.

(** [fromNodeSqlite(error)], from the properties of [error] it reads. *)
Definition fromNodeSqlite (error_code : option string)
    (error_errcode : option Z) (error_errstr : option string)
    (error_message : string) : t :=
  {| code := or_string error_code "ERR_SQLITE_ERROR";
     errcode := or_number error_errcode
                  (SqlitePrimaryResultCode.code SQLITE_ERROR);
     errstr := or_string error_errstr "unknown error";
     message := error_message |}.

End NodeSqliteError.

(** A statement cache of bound [m] without maxAge and without callback,
    as built by [new EnhancedStatementCache({maxSize: m})]; statements
    are stood for by numbers. *)
Module StatementScenario.

Definition fresh (m : Z) : EnhancedStatementCache.t Z :=
  {| EnhancedStatementCache.cache :=
       Scenario.fresh_facade m LRUBase.Infinite
         (Some (EnhancedStatementCache.counting None));
     EnhancedStatementCache.stats_hits := 0;
     EnhancedStatementCache.stats_misses := 0;
     EnhancedStatementCache.stats_size := 0;
     EnhancedStatementCache.stats_totalQueries := 0 |}.

Definition error_of (errcode : Z) : NodeSqliteError.t :=
  {| NodeSqliteError.code := "ERR_SQLITE_ERROR";
     NodeSqliteError.errcode := errcode;
     NodeSqliteError.errstr := "constraint failed";
     NodeSqliteError.message := "constraint failed" |}.

End StatementScenario.

(** ** Pragma configuration *)

Module JournalMode.
Inductive t := DELETE | TRUNCATE | PERSIST | MEMORY | WAL | OFF.
Definition to_string (m : t) : string :=
  match m with
  | DELETE => "DELETE" | TRUNCATE => "TRUNCATE" | PERSIST => "PERSIST"
  | MEMORY => "MEMORY" | WAL => "WAL" | OFF => "OFF"
  end.
End JournalMode.

Module SynchronousMode.
Inductive t := OFF | NORMAL | FULL | EXTRA.
Definition to_string (m : t) : string :=
  match m with
  | OFF => "OFF" | NORMAL => "NORMAL" | FULL => "FULL" | EXTRA => "EXTRA"
  end.
End SynchronousMode.

Module TempStore.
Inductive t := DEFAULT | FILE | MEMORY.
Definition to_string (m : t) : string :=
  match m with
  | DEFAULT => "DEFAULT" | FILE => "FILE" | MEMORY => "MEMORY"
  end.
End TempStore.

Module LockingMode.
Inductive t := NORMAL | EXCLUSIVE.
Definition to_string (m : t) : string :=
  match m with NORMAL => "NORMAL" | EXCLUSIVE => "EXCLUSIVE" end.
End LockingMode.

Module Pragmas.

(** Every option may be missing; the numeric ones are integers. *)
Record PragmaConfig := {
  journalMode : option JournalMode.t;
  synchronous : option SynchronousMode.t;
  cacheSize : option Z;
  mmapSize : option Z;
  tempStore : option TempStore.t;
  lockingMode : option LockingMode.t;
  busyTimeout : option Z;
  foreignKeys : option bool;
  walAutocheckpoint : option Z;
  trustedSchema : option bool;
}.

(** The test [if (config.field)] on a numeric option: a missing option
    and the number 0 fail it.  The mode options are non-empty strings,
    which pass it whenever present; the boolean options are tested with
    [typeof ... === "boolean"], which passes whenever present. *)
Definition truthy (x : option Z) : option Z :=
  match x with
  | Some 0 | None => None
  | Some n => Some n
  end.

(** [if (present) statements.push(text)] *)
Definition push_if {A} (x : option A) (text : A → string)
    (statements : list string) : list string :=
  match x with
  | Some a => statements ++ [text a]
  | None => statements
  end.

Definition on_off (b : bool) : string := if b then "ON" else "OFF".

Definition getPragmaStatements (config : PragmaConfig) : list string :=
  let statements := [] in
  let statements :=
    push_if (journalMode config)
      (λ v, "PRAGMA journal_mode=" +:+ JournalMode.to_string v +:+ ";")
      statements in
  let statements :=
    push_if (synchronous config)
      (λ v, "PRAGMA synchronous=" +:+ SynchronousMode.to_string v +:+ ";")
      statements in
  let statements :=
    push_if (truthy (cacheSize config))
      (λ v, "PRAGMA cache_size=" +:+ pretty v +:+ ";") statements in
  let statements :=
    push_if (truthy (mmapSize config))
      (λ v, "PRAGMA mmap_size=" +:+ pretty v +:+ ";") statements in
  let statements :=
    push_if (tempStore config)
      (λ v, "PRAGMA temp_store=" +:+ TempStore.to_string v +:+ ";")
      statements in
  let statements :=
    push_if (lockingMode config)
      (λ v, "PRAGMA locking_mode=" +:+ LockingMode.to_string v +:+ ";")
      statements in
  let statements :=
    push_if (truthy (busyTimeout config))
      (λ v, "PRAGMA busy_timeout=" +:+ pretty v +:+ ";") statements in
  let statements :=
    push_if (foreignKeys config)
      (λ v, "PRAGMA foreign_keys=" +:+ on_off v +:+ ";") statements in
  let statements :=
    push_if (truthy (walAutocheckpoint config))
      (λ v, "PRAGMA wal_autocheckpoint=" +:+ pretty v +:+ ";") statements in
  let statements :=
    push_if (trustedSchema config)
      (λ v, "PRAGMA trusted_schema=" +:+ on_off v +:+ ";") statements in
  statements.

(** A statement [PRAGMA name=value;]. *)
Definition is_pragma (stmt : string) : Prop :=
  ∃ name value, stmt = "PRAGMA " +:+ name +:+ "=" +:+ value +:+ ";".

(** The option is missing or, being a number, is 0. *)
Definition unset (x : option Z) : Prop := x = None ∨ x = Some 0.

(** The numeric options that are 0, taken out. *)
Definition without_zeros (config : PragmaConfig) : PragmaConfig :=
  {| journalMode := journalMode config;
     synchronous := synchronous config;
     cacheSize := truthy (cacheSize config);
     mmapSize := truthy (mmapSize config);
     tempStore := tempStore config;
     lockingMode := lockingMode config;
     busyTimeout := truthy (busyTimeout config);
     foreignKeys := foreignKeys config;
     walAutocheckpoint := truthy (walAutocheckpoint config);
     trustedSchema := trustedSchema config |}.

(** The number of statements an optional setting accounts for. *)
Definition counts {A} (x : option A) : nat :=
  match x with Some _ => 1%nat | None => 0%nat end.

End Pragmas.

(** * Verification *)

(** ** Facts about insertion-ordered maps *)

Module JSMapFacts.
Section JSMapFacts.
Context {K A : Type} `{EqDecision K}.
Implicit Types (m items : list (K * A)) (k key : K) (a : A).

Lemma get_None m k : JSMap.get k m = None ↔ k ∉ JSMap.keys m.
Proof.
  unfold JSMap.keys. induction m as [|[k' a'] m IH]; simpl.
  - split; [intros _; apply not_elem_of_nil | done].
  - rewrite not_elem_of_cons. destruct (decide (k = k')) as [->|Hne].
    + split; [done | by intros [? _]].
    + rewrite IH. split; [by split | by intros [_ ?]].
Qed.

Lemma has_true m k : JSMap.has k m = true ↔ k ∈ JSMap.keys m.
Proof.
  unfold JSMap.has. destruct (JSMap.get k m) eqn:E.
  - split; [|done]. intros _. destruct (decide (k ∈ JSMap.keys m)); [done|].
    apply get_None in n. congruence.
  - split; [done|]. intros Hin. apply get_None in E. done.
Qed.

Lemma has_false m k : JSMap.has k m = false ↔ k ∉ JSMap.keys m.
Proof. rewrite <- has_true. destruct (JSMap.has k m); naive_solver. Qed.

Lemma has_get m k : JSMap.has k m = true ↔ is_Some (JSMap.get k m).
Proof.
  unfold JSMap.has. destruct (JSMap.get k m) eqn:E.
  - split; [by eexists | done].
  - split; [done | by intros [? ?]].
Qed.

Lemma get_has m k a : JSMap.get k m = Some a → JSMap.has k m = true.
Proof. intros E. unfold JSMap.has. by rewrite E. Qed.

Lemma get_has_false m k : JSMap.has k m = false → JSMap.get k m = None.
Proof. unfold JSMap.has. by destruct (JSMap.get k m). Qed.

Lemma get_elem_of m k a : JSMap.get k m = Some a → (k, a) ∈ m.
Proof.
  induction m as [|[k' a'] m IH]; simpl; [done|].
  destruct (decide (k = k')) as [->|]; intros E.
  - injection E as ->. apply list_elem_of_here.
  - apply list_elem_of_further; auto.
Qed.

Lemma elem_of_get m k a : JSMap.wf m → (k, a) ∈ m → JSMap.get k m = Some a.
Proof.
  unfold JSMap.wf, JSMap.keys.
  induction m as [|[k' a'] m IH]; simpl; intros Hnd Hin.
  - by apply elem_of_nil in Hin.
  - apply NoDup_cons in Hnd as [Hk' Hnd].
    apply elem_of_cons in Hin as [Heq|Hin].
    + injection Heq as -> ->. by rewrite decide_True.
    + rewrite decide_False; [auto|]. intros ->. apply Hk'.
      apply list_elem_of_fmap. by exists (k', a).
Qed.

Lemma get_set m k k' a :
  JSMap.get k' (JSMap.set k a m) =
  if decide (k' = k) then Some a else JSMap.get k' m.
Proof.
  induction m as [|[k0 a0] m IH]; simpl.
  - by destruct (decide (k' = k)).
  - destruct (decide (k = k0)) as [->|]; simpl.
    + by destruct (decide (k' = k0)).
    + rewrite IH. destruct (decide (k' = k0)) as [->|]; [|done].
      by rewrite decide_False.
Qed.

Lemma get_delete m k k' :
  JSMap.get k' (JSMap.delete k m) =
  if decide (k' = k) then None else JSMap.get k' m.
Proof.
  unfold JSMap.delete. induction m as [|[k0 a0] m IH]; simpl.
  - by destruct (decide (k' = k)).
  - rewrite filter_cons. simpl. destruct (decide (k0 ≠ k)) as [Hne|Heq]; simpl.
    + rewrite IH. destruct (decide (k' = k0)) as [->|]; [|done].
      by rewrite decide_False.
    + apply dec_stable in Heq as ->. rewrite IH.
      by destruct (decide (k' = k)).
Qed.

Lemma has_set m k k' a :
  JSMap.has k' (JSMap.set k a m) =
  if decide (k' = k) then true else JSMap.has k' m.
Proof. unfold JSMap.has. rewrite get_set. by destruct (decide (k' = k)). Qed.

Lemma has_delete m k k' :
  JSMap.has k' (JSMap.delete k m) =
  if decide (k' = k) then false else JSMap.has k' m.
Proof. unfold JSMap.has. rewrite get_delete. by destruct (decide (k' = k)). Qed.

Lemma set_absent m k a :
  JSMap.has k m = false → JSMap.set k a m = m ++ [(k, a)].
Proof.
  unfold JSMap.has. induction m as [|[k0 a0] m IH]; simpl; [done|].
  destruct (decide (k = k0)); [done|]. intros E. by rewrite IH.
Qed.

Lemma keys_set_present m k a :
  JSMap.has k m = true → JSMap.keys (JSMap.set k a m) = JSMap.keys m.
Proof.
  unfold JSMap.has, JSMap.keys. induction m as [|[k0 a0] m IH]; simpl; [done|].
  destruct (decide (k = k0)); simpl; [done|]. intros E. f_equal. by apply IH.
Qed.

Lemma length_set_present m k a :
  JSMap.has k m = true → length (JSMap.set k a m) = length m.
Proof.
  intros E. pose proof (keys_set_present m k a E) as Hk.
  unfold JSMap.keys in Hk.
  apply (f_equal length) in Hk. by rewrite !length_fmap in Hk.
Qed.

Lemma wf_set m k a : JSMap.wf m → JSMap.wf (JSMap.set k a m).
Proof.
  unfold JSMap.wf. intros Hnd. destruct (JSMap.has k m) eqn:E.
  - by rewrite keys_set_present.
  - rewrite set_absent by done. unfold JSMap.keys. rewrite fmap_app. simpl.
    apply NoDup_app. split_and!; [done| |apply NoDup_singleton].
    intros x Hx ->%list_elem_of_singleton. by apply has_false in E.
Qed.

Lemma keys_filter (P : K → Prop) `{!∀ x, Decision (P x)} m :
  JSMap.keys (filter (λ p, P p.1) m) = filter P (JSMap.keys m).
Proof.
  unfold JSMap.keys. induction m as [|[k0 a0] m IH]; [done|].
  rewrite fmap_cons, !filter_cons. cbn [fst].
  destruct (decide (P k0)); [rewrite fmap_cons|]; by rewrite IH.
Qed.

Lemma wf_filter (P : K * A → Prop) `{!∀ x, Decision (P x)} m :
  JSMap.wf m → JSMap.wf (filter P m).
Proof.
  unfold JSMap.wf, JSMap.keys. induction m as [|[k0 a0] m IH]; simpl; [done|].
  intros [Hk Hnd]%NoDup_cons. rewrite filter_cons.
  destruct (decide (P (k0, a0))); simpl; [|auto].
  apply NoDup_cons. split; [|auto].
  intros [[k1 a1] [Heq Hin]]%list_elem_of_fmap. simpl in Heq. subst k1.
  apply list_elem_of_filter in Hin as [_ Hin]. apply Hk.
  apply list_elem_of_fmap. by exists (k0, a1).
Qed.

Lemma wf_delete m k : JSMap.wf m → JSMap.wf (JSMap.delete k m).
Proof. apply wf_filter. Qed.

Lemma delete_absent m k : JSMap.has k m = false → JSMap.delete k m = m.
Proof.
  intros E%has_false. unfold JSMap.delete, JSMap.keys in *.
  induction m as [|[k0 a0] m IH]; simpl; [done|].
  rewrite fmap_cons, not_elem_of_cons in E. destruct E as [Hne Hni].
  rewrite filter_cons_True by (simpl; intros ?; by subst). by rewrite IH.
Qed.

Lemma length_delete_le m k : (length (JSMap.delete k m) ≤ length m)%nat.
Proof. apply length_filter. Qed.

Lemma length_delete_present m k :
  JSMap.wf m → JSMap.has k m = true →
  length m = S (length (JSMap.delete k m)).
Proof.
  unfold JSMap.wf, JSMap.keys. induction m as [|[k0 a0] m IH]; simpl.
  - done.
  - intros [Hk Hnd]%NoDup_cons E. unfold JSMap.delete. rewrite filter_cons. simpl.
    destruct (decide (k0 ≠ k)) as [Hne|Heq]; simpl.
    + f_equal. apply IH; [done|]. rewrite <- E. unfold JSMap.has. simpl.
      by rewrite decide_False.
    + apply dec_stable in Heq as ->. f_equal.
      change (filter _ m) with (JSMap.delete k m).
      rewrite delete_absent; [done|]. by apply has_false.
Qed.

Lemma from_entries_snoc items k a :
  JSMap.from_entries (items ++ [(k, a)]) =
  JSMap.set k a (JSMap.from_entries items).
Proof. unfold JSMap.from_entries. by rewrite fold_left_app. Qed.

Lemma from_entries_wf items :
  JSMap.wf items → JSMap.from_entries items = items.
Proof.
  unfold JSMap.wf, JSMap.keys.
  induction items as [|[k a] items IH] using rev_ind; [done|].
  rewrite fmap_app. simpl. intros (Hnd & Hdisj & _)%NoDup_app.
  rewrite from_entries_snoc, IH by done. apply set_absent, has_false.
  intros Hin. apply (Hdisj k Hin). apply list_elem_of_singleton. done.
Qed.
End JSMapFacts.
End JSMapFacts.

(** ** Facts about generator loops *)

Lemma for_array_ext {S X Y} (f g : X → M S (option Y)) xs (s : S) :
  (∀ x (s : S), f x s = g x s) → for_array f xs s = for_array g xs s.
Proof.
  intros Hfg. revert s. induction xs as [|x xs IH]; intros s; [done|].
  simpl. unfold bind. rewrite Hfg. destruct (g x s) as [y s'|e s']; [|done].
  by rewrite IH.
Qed.

Lemma for_array_cons {S X Y} (f : X → M S (option Y)) x xs (s : S) :
  for_array f (x :: xs) s =
  match f x s with
  | Ret y s1 =>
      match for_array f xs s1 with
      | Ret ys s2 => Ret (match y with Some y => y :: ys | None => ys end) s2
      | Throw e s2 => Throw e s2
      end
  | Throw e s1 => Throw e s1
  end.
Proof. done. Qed.

(** ** Facts about the engine *)

Module LRUFacts.
Section LRUFacts.
Context {K V : Type} `{EqDecision K}.
Local Abbreviation item := (LRUBase.CacheItem V).
Local Abbreviation state := (LRUBase.t K V).
Implicit Types (s : state) (key k : K) (it : item) (now : Z).
Implicit Types (c l E : list (K * item)) (evs : list (K * V)) (p q : K * item).
Import LRUSpec.

Ltac run_m := unfold bind, modify, get_state, ret, throw; simpl.

Lemma emit_loop_ok f c s :
  (∀ k v, f k v = false) →
  LRUBase.emit_loop f c s =
  Ret tt (LRUBase.with_notified (LRUBase._notified s ++ events c) s).
Proof.
  intros Hf. revert s. induction c as [|[k it] c IH]; intros s; simpl.
  - unfold ret. rewrite app_nil_r. by destruct s.
  - unfold LRUBase.call. run_m. rewrite Hf, IH. simpl.
    by rewrite <- app_assoc.
Qed.

Lemma _emitEvictions_ok c s :
  no_throw s → LRUBase._emitEvictions c s = Ret tt (note (events c) s).
Proof.
  unfold no_throw, LRUBase._emitEvictions, note. run_m.
  destruct (LRUBase._onEviction s) as [f|]; [|done].
  intros Hf. by apply emit_loop_ok.
Qed.

Lemma delete_ok key s :
  LRUBase.delete key s =
  Ret (JSMap.has key (LRUBase._oldCache s) || JSMap.has key (LRUBase._cache s))
      (del key s).
Proof.
  unfold LRUBase.delete, del. run_m.
  by destruct (JSMap.has key (LRUBase._cache s)).
Qed.

Lemma _deleteIfExpired_ok key it now s :
  no_throw s →
  LRUBase._deleteIfExpired key it now s =
  if LRUBase.is_expired it now
  then Ret (JSMap.has key (LRUBase._oldCache s)
            || JSMap.has key (LRUBase._cache s))
           (del key (note [(key, LRUBase.value it)] s))
  else Ret false s.
Proof.
  unfold no_throw, LRUBase._deleteIfExpired, note.
  destruct (LRUBase.is_expired it now); [|done]. run_m.
  destruct (LRUBase._onEviction s) as [f|] eqn:E; intros Hf.
  - unfold LRUBase.call. run_m. rewrite Hf. by rewrite delete_ok.
  - by rewrite delete_ok.
Qed.

Lemma onEviction_note evs s :
  LRUBase._onEviction (note evs s) = LRUBase._onEviction s.
Proof. unfold note. by destruct (LRUBase._onEviction s) eqn:E. Qed.

Lemma cache_note evs s : LRUBase._cache (note evs s) = LRUBase._cache s.
Proof. unfold note. by destruct (LRUBase._onEviction s) eqn:E. Qed.

Lemma oldCache_note evs s :
  LRUBase._oldCache (note evs s) = LRUBase._oldCache s.
Proof. unfold note. by destruct (LRUBase._onEviction s) eqn:E. Qed.

Lemma size_note evs s : LRUBase._size (note evs s) = LRUBase._size s.
Proof. unfold note. by destruct (LRUBase._onEviction s) eqn:E. Qed.

Lemma maxSize_note evs s : LRUBase._maxSize (note evs s) = LRUBase._maxSize s.
Proof. unfold note. by destruct (LRUBase._onEviction s) eqn:E. Qed.

Lemma maxAge_note evs s : LRUBase._maxAge (note evs s) = LRUBase._maxAge s.
Proof. unfold note. by destruct (LRUBase._onEviction s) eqn:E. Qed.

Lemma note_nil s : note [] s = s.
Proof.
  unfold note. destruct (LRUBase._onEviction s); [|done].
  rewrite app_nil_r. by destruct s.
Qed.

Lemma note_note evs1 evs2 s : note evs2 (note evs1 s) = note (evs1 ++ evs2) s.
Proof.
  unfold note. destruct (LRUBase._onEviction s) eqn:E; simpl; rewrite E; [|done].
  by rewrite app_assoc.
Qed.

Lemma no_throw_note evs s : no_throw s → no_throw (note evs s).
Proof. unfold no_throw. by rewrite onEviction_note. Qed.

Lemma no_throw_del key s : no_throw s → no_throw (del key s).
Proof. done. Qed.

Lemma no_throw_purge E s : no_throw s → no_throw (purge E s).
Proof.
  revert s. induction E as [|p E IH]; intros s Hs; [done|].
  simpl. apply IH, no_throw_del, no_throw_note, Hs.
Qed.

Lemma visit_ok {Y} (sel : state → list (K * item)) (lv guard : bool)
    (proj : K * item → Y) now p it s :
  no_throw s →
  (if lv then JSMap.get p.1 (sel s) else Some p.2) = Some it →
  visit sel lv guard proj now p s =
  if guard && JSMap.has p.1 (LRUBase._cache s) then Ret None s
  else if LRUBase.is_expired it now then
    Ret (if JSMap.has p.1 (LRUBase._oldCache s)
            || JSMap.has p.1 (LRUBase._cache s)
         then None else Some (proj (p.1, it)))
        (del p.1 (note [(p.1, LRUBase.value it)] s))
  else Ret (Some (proj (p.1, it))) s.
Proof.
  intros Hs Hit. unfold visit. run_m. rewrite Hit.
  destruct (guard && JSMap.has p.1 (LRUBase._cache s)); [done|].
  rewrite _deleteIfExpired_ok by done.
  destruct (LRUBase.is_expired it now); [|done].
  by destruct (JSMap.has p.1 (LRUBase._oldCache s)
               || JSMap.has p.1 (LRUBase._cache s)).
Qed.

(** A loop over entries of the active generation. *)
Lemma loop_cache {Y} (lv : bool) (proj : K * item → Y) now l s :
  no_throw s → JSMap.wf l →
  (∀ p, p ∈ l → JSMap.get p.1 (LRUBase._cache s) = Some p.2) →
  for_array (visit LRUBase._cache lv false proj now) l s =
  Ret (map proj (filter (λ p, LRUBase.is_expired p.2 now = false) l))
      (purge (filter (λ p, LRUBase.is_expired p.2 now = true) l) s).
Proof.
  revert s. induction l as [|[k it] l IH]; intros s Hs Hwf Hl; [done|].
  unfold JSMap.wf, JSMap.keys in Hwf. rewrite fmap_cons in Hwf.
  apply NoDup_cons in Hwf as [Hk Hwf].
  assert (Hget : JSMap.get k (LRUBase._cache s) = Some it).
  { apply (Hl (k, it)), list_elem_of_here. }
  rewrite !filter_cons, for_array_cons. cbn [snd].
  pose proof (visit_ok LRUBase._cache lv false proj now (k, it) it s Hs) as Hv.
  cbn [fst snd] in Hv. rewrite Hv by (by destruct lv). clear Hv.
  cbn [andb]. destruct (LRUBase.is_expired it now) eqn:Hexp.
  - rewrite decide_False, decide_True by done.
    rewrite (JSMapFacts.get_has _ _ _ Hget), orb_true_r.
    rewrite IH; [done| |done|].
    + apply no_throw_del, no_throw_note, Hs.
    + intros p Hp. simpl. rewrite cache_note, JSMapFacts.get_delete.
      rewrite decide_False; [apply Hl; by apply list_elem_of_further|].
      intros Heq. apply Hk. rewrite <- Heq. apply list_elem_of_fmap.
      by exists p.
  - rewrite decide_True, decide_False by done.
    rewrite IH; try done.
    intros p Hp. apply Hl. by apply list_elem_of_further.
Qed.

Lemma cache_del_absent key evs s :
  JSMap.has key (LRUBase._cache s) = false →
  LRUBase._cache (del key (note evs s)) = LRUBase._cache s.
Proof. intros E. simpl. rewrite cache_note. by apply JSMapFacts.delete_absent. Qed.

(** A loop over entries of the previous generation, skipping the
    shadowed ones. *)
Lemma loop_old {Y} (lv : bool) (proj : K * item → Y) now l s c :
  no_throw s → JSMap.wf l → LRUBase._cache s = c →
  (∀ p, p ∈ l → JSMap.get p.1 (LRUBase._oldCache s) = Some p.2) →
  for_array (visit LRUBase._oldCache lv true proj now) l s =
  Ret (map proj (filter (λ p, JSMap.has p.1 c = false
                              ∧ LRUBase.is_expired p.2 now = false) l))
      (purge (filter (λ p, JSMap.has p.1 c = false
                           ∧ LRUBase.is_expired p.2 now = true) l) s).
Proof.
  revert s. induction l as [|[k it] l IH]; intros s Hs Hwf Hc Hl; [done|].
  unfold JSMap.wf, JSMap.keys in Hwf. rewrite fmap_cons in Hwf.
  apply NoDup_cons in Hwf as [Hk Hwf].
  assert (Hget : JSMap.get k (LRUBase._oldCache s) = Some it).
  { apply (Hl (k, it)), list_elem_of_here. }
  rewrite !filter_cons, for_array_cons. cbn [fst snd].
  pose proof (visit_ok LRUBase._oldCache lv true proj now (k, it) it s Hs) as Hv.
  cbn [fst snd] in Hv. rewrite Hv by (by destruct lv). clear Hv.
  cbn [andb]. rewrite Hc. destruct (JSMap.has k c) eqn:Hshadow.
  - rewrite !decide_False by (by intros [? _]).
    rewrite (IH s); try done.
    intros p Hp. apply Hl. by apply list_elem_of_further.
  - destruct (LRUBase.is_expired it now) eqn:Hexp.
    + rewrite decide_False by (by intros [_ ?]). rewrite decide_True by done.
      rewrite (JSMapFacts.get_has _ _ _ Hget). cbn [orb].
      rewrite IH; [done| |done| |].
      * apply no_throw_del, no_throw_note, Hs.
      * rewrite cache_del_absent; congruence.
      * intros p Hp. simpl. rewrite oldCache_note, JSMapFacts.get_delete.
        rewrite decide_False; [apply Hl; by apply list_elem_of_further|].
        intros Heq. apply Hk. rewrite <- Heq. apply list_elem_of_fmap.
        by exists p.
    + rewrite decide_True by done. rewrite decide_False by (by intros [_ ?]).
      rewrite (IH s); try done.
      intros p Hp. apply Hl. by apply list_elem_of_further.
Qed.

Lemma cache_purge_absent E s :
  (∀ p, p ∈ E → JSMap.has p.1 (LRUBase._cache s) = false) →
  LRUBase._cache (purge E s) = LRUBase._cache s.
Proof.
  revert s. induction E as [|p E IH]; intros s HE; [done|].
  assert (Hp : JSMap.has p.1 (LRUBase._cache s) = false).
  { apply HE, list_elem_of_here. }
  simpl. rewrite IH.
  - by apply cache_del_absent.
  - intros q Hq. rewrite cache_del_absent by done.
    apply HE. by apply list_elem_of_further.
Qed.

Lemma cache_purge_dead_old now s :
  LRUBase._cache (purge (dead_old now s) s) = LRUBase._cache s.
Proof.
  apply cache_purge_absent. intros p Hp. unfold dead_old in Hp.
  by apply list_elem_of_filter in Hp as [[? _] _].
Qed.

Lemma for_of_visit {Y} (sel : state → list (K * item)) (guard : bool)
    (proj : K * item → Y) now (body : K * item → M state (option Y)) s :
  (∀ k it s',
     body (k, it) s' =
     if guard && JSMap.has k (LRUBase._cache s') then Ret None s'
     else match LRUBase._deleteIfExpired k it now s' with
          | Ret deleted s'' =>
              Ret (if deleted then None else Some (proj (k, it))) s''
          | Throw e s'' => Throw e s''
          end) →
  LRUBase.for_of sel body s =
  for_array (visit sel true guard proj now) (sel s) s.
Proof.
  intros Hbody. unfold LRUBase.for_of, bind, get_state.
  apply for_array_ext. intros [k it] s'. unfold visit, bind, get_state, ret.
  cbn [fst snd]. destruct (JSMap.get k (sel s')) as [it'|]; [|done].
  rewrite Hbody. destruct (guard && JSMap.has k (LRUBase._cache s')); [done|].
  destruct (LRUBase._deleteIfExpired k it' now s') as [[] ?|]; done.
Qed.

(** The ascending walk collects the live entries and purges the expired
    ones it meets. *)
Lemma _entriesAscending_ok now s :
  no_throw s →
  JSMap.wf (LRUBase._cache s) → JSMap.wf (LRUBase._oldCache s) →
  LRUBase._entriesAscending now s =
  Ret (live now s) (purge (dead_cache now s) (purge (dead_old now s) s)).
Proof.
  intros Hs Hc Ho. unfold LRUBase._entriesAscending, bind.
  rewrite (for_of_visit LRUBase._oldCache true id now).
  2:{ intros k it s'. unfold bind, get_state, ret. cbn [andb].
      destruct (JSMap.has k (LRUBase._cache s')); [done|]. cbn [negb].
      destruct (LRUBase._deleteIfExpired k it now s') as [[] ?|]; done. }
  rewrite (loop_old true id now _ s (LRUBase._cache s)); try done.
  2:{ intros [k it] Hp. by apply JSMapFacts.elem_of_get. }
  fold (dead_old now s). fold (live_old now s).
  rewrite (for_of_visit LRUBase._cache false id now).
  2:{ intros k it s'. unfold bind, ret. cbn [andb].
      destruct (LRUBase._deleteIfExpired k it now s') as [[] ?|]; done. }
  rewrite cache_purge_dead_old.
  rewrite loop_cache; try done.
  - unfold ret, live. by rewrite !list_fmap_id.
  - by apply no_throw_purge.
  - intros [k it] Hp. rewrite cache_purge_dead_old.
    by apply JSMapFacts.elem_of_get.
Qed.

(** *** The operations when the callback does not throw *)

Ltac no_throw_tac :=
  first [ assumption
        | unfold no_throw in *; simpl; rewrite ?onEviction_note; assumption ].

Lemma _set_ok key it s :
  no_throw s → LRUBase._set key it s = Ret tt (store key it s).
Proof.
  intros Hs. unfold LRUBase._set, store. run_m.
  destruct (LRUBase._maxSize s <=? LRUBase._size s + 1); [|done].
  rewrite _emitEvictions_ok by no_throw_tac.
  unfold rotate, insert. by rewrite cache_note.
Qed.

Lemma _moveToRecent_ok key it s :
  no_throw s → LRUBase._moveToRecent key it s = Ret tt (promote key it s).
Proof.
  intros Hs. unfold LRUBase._moveToRecent, promote. run_m.
  by rewrite _set_ok by no_throw_tac.
Qed.

Lemma _getItemValue_ok key it now s :
  no_throw s →
  LRUBase._getItemValue key it now s =
  if stale it now then
    Ret (if JSMap.has key (LRUBase._oldCache s)
            || JSMap.has key (LRUBase._cache s)
         then None else Some (LRUBase.value it))
        (del key (note [(key, LRUBase.value it)] s))
  else Ret (Some (LRUBase.value it)) s.
Proof.
  intros Hs. unfold LRUBase._getItemValue, LRUBase._getOrDeleteIfExpired, stale.
  run_m. destruct (LRUBase.expiry it) as [e|] eqn:He; [|done].
  destruct (e =? 0); [done|]. cbn [negb andb].
  rewrite _deleteIfExpired_ok by done. unfold LRUBase.is_expired. rewrite He.
  destruct (e <=? now); [|done].
  by destruct (JSMap.has key (LRUBase._oldCache s)
               || JSMap.has key (LRUBase._cache s)).
Qed.

Lemma get_active key it now s :
  no_throw s → JSMap.get key (LRUBase._cache s) = Some it →
  LRUBase.get key now s =
  if stale it now
  then Ret None (del key (note [(key, LRUBase.value it)] s))
  else Ret (Some (LRUBase.value it)) s.
Proof.
  intros Hs Hit. unfold LRUBase.get. run_m. rewrite Hit.
  rewrite _getItemValue_ok by done.
  by rewrite (JSMapFacts.get_has _ _ _ Hit), orb_true_r.
Qed.

Lemma get_previous key it now s :
  no_throw s → JSMap.get key (LRUBase._cache s) = None →
  JSMap.get key (LRUBase._oldCache s) = Some it →
  LRUBase.get key now s =
  if LRUBase.is_expired it now
  then Ret None (del key (note [(key, LRUBase.value it)] s))
  else Ret (Some (LRUBase.value it)) (promote key it s).
Proof.
  intros Hs Hc Hit. unfold LRUBase.get. run_m. rewrite Hc, Hit.
  rewrite _deleteIfExpired_ok by done.
  destruct (LRUBase.is_expired it now).
  - by rewrite (JSMapFacts.get_has _ _ _ Hit).
  - by rewrite _moveToRecent_ok.
Qed.

Lemma get_absent key now s :
  JSMap.get key (LRUBase._cache s) = None →
  JSMap.get key (LRUBase._oldCache s) = None →
  LRUBase.get key now s = Ret None s.
Proof. intros Hc Ho. unfold LRUBase.get. run_m. by rewrite Hc, Ho. Qed.

Lemma has_present key it now s :
  no_throw s → entry key s = Some it →
  LRUBase.has key now s =
  if LRUBase.is_expired it now
  then Ret false (del key (note [(key, LRUBase.value it)] s))
  else Ret true s.
Proof.
  intros Hs Hit. unfold entry in Hit. unfold LRUBase.has. run_m.
  destruct (JSMap.get key (LRUBase._cache s)) as [it'|] eqn:Hc.
  - injection Hit as ->. rewrite _deleteIfExpired_ok by done.
    destruct (LRUBase.is_expired it now); [|done].
    by rewrite (JSMapFacts.get_has _ _ _ Hc), orb_true_r.
  - rewrite Hit. rewrite _deleteIfExpired_ok by done.
    destruct (LRUBase.is_expired it now); [|done].
    by rewrite (JSMapFacts.get_has _ _ _ Hit).
Qed.

Lemma has_absent key now s :
  entry key s = None → LRUBase.has key now s = Ret false s.
Proof.
  unfold entry, LRUBase.has. run_m.
  destruct (JSMap.get key (LRUBase._cache s)); [done|]. by intros ->.
Qed.

Lemma peek_present key it now s :
  no_throw s → entry key s = Some it →
  LRUBase.peek key now s =
  if stale it now
  then Ret None (del key (note [(key, LRUBase.value it)] s))
  else Ret (Some (LRUBase.value it)) s.
Proof.
  intros Hs Hit. unfold entry in Hit. unfold LRUBase.peek, LRUBase._peek.
  run_m. destruct (JSMap.get key (LRUBase._cache s)) as [it'|] eqn:Hc.
  - injection Hit as ->. rewrite (JSMapFacts.get_has _ _ _ Hc), Hc.
    rewrite _getItemValue_ok by done.
    by rewrite (JSMapFacts.get_has _ _ _ Hc), orb_true_r.
  - unfold JSMap.has at 1. rewrite Hc.
    rewrite (JSMapFacts.get_has _ _ _ Hit), Hit.
    rewrite _getItemValue_ok by done.
    by rewrite (JSMapFacts.get_has _ _ _ Hit).
Qed.

Lemma peek_absent key now s :
  entry key s = None → LRUBase.peek key now s = Ret None s.
Proof.
  unfold entry, LRUBase.peek, JSMap.has. run_m.
  destruct (JSMap.get key (LRUBase._cache s)) eqn:Hc; [done|].
  intros Ho. by rewrite Ho.
Qed.

Lemma set_ok key v maxAge now s :
  no_throw s →
  LRUBase.set key v maxAge now s =
  Ret tt (if JSMap.has key (LRUBase._cache s)
          then LRUBase.with_cache
                 (JSMap.set key (new_item v maxAge now s) (LRUBase._cache s)) s
          else store key (new_item v maxAge now s) s).
Proof.
  intros Hs. unfold LRUBase.set. run_m.
  destruct (JSMap.has key (LRUBase._cache s)); [done|].
  by rewrite _set_ok.
Qed.

Lemma clear_ok s :
  LRUBase.clear s =
  Ret tt (LRUBase.with_size 0
            (LRUBase.with_oldCache [] (LRUBase.with_cache [] s))).
Proof. done. Qed.

(** *** The invariant *)

Lemma Inv_note evs s : Inv s → Inv (note evs s).
Proof.
  intros [].
  split; rewrite ?cache_note, ?oldCache_note, ?size_note, ?maxSize_note; done.
Qed.

Lemma Inv_del key s : Inv s → Inv (del key s).
Proof.
  intros [Hc Ho Hsz Hroom Hold]. unfold JSMap.size in *. split; simpl.
  - by apply JSMapFacts.wf_delete.
  - by apply JSMapFacts.wf_delete.
  - unfold JSMap.size. destruct (JSMap.has key (LRUBase._cache s)) eqn:E.
    + pose proof (JSMapFacts.length_delete_present _ _ Hc E). lia.
    + by rewrite JSMapFacts.delete_absent.
  - destruct (JSMap.has key (LRUBase._cache s)); lia.
  - unfold JSMap.size.
    pose proof (JSMapFacts.length_delete_le (LRUBase._oldCache s) key). lia.
Qed.

Lemma Inv_purge E s : Inv s → Inv (purge E s).
Proof.
  revert s. induction E as [|p E IH]; intros s Hs; [done|].
  simpl. by apply IH, Inv_del, Inv_note.
Qed.

Lemma Inv_store key it s :
  Inv s → JSMap.has key (LRUBase._cache s) = false → Inv (store key it s).
Proof.
  intros [Hc Ho Hsz Hroom Hold] Hfresh. unfold JSMap.size in *.
  assert (Hlen : length (JSMap.set key it (LRUBase._cache s))
                 = S (length (LRUBase._cache s))).
  { rewrite JSMapFacts.set_absent by done. rewrite length_app. simpl. lia. }
  unfold store.
  destruct (LRUBase._maxSize s <=? LRUBase._size s + 1) eqn:Hfull.
  - apply Z.leb_le in Hfull. unfold rotate, insert.
    split; simpl; rewrite ?cache_note, ?oldCache_note, ?size_note,
      ?maxSize_note; simpl; unfold JSMap.size; simpl.
    + apply NoDup_nil_2.
    + by apply JSMapFacts.wf_set.
    + done.
    + lia.
    + lia.
  - apply Z.leb_gt in Hfull. unfold insert. split; simpl; unfold JSMap.size.
    + by apply JSMapFacts.wf_set.
    + done.
    + lia.
    + lia.
    + done.
Qed.

Lemma Inv_overwrite key it s :
  Inv s → JSMap.has key (LRUBase._cache s) = true →
  Inv (LRUBase.with_cache (JSMap.set key it (LRUBase._cache s)) s).
Proof.
  intros [Hc Ho Hsz Hroom Hold] Hin. unfold JSMap.size in *.
  split; simpl; unfold JSMap.size; try done.
  - by apply JSMapFacts.wf_set.
  - by rewrite JSMapFacts.length_set_present.
Qed.

Lemma Inv_promote key it s :
  Inv s → JSMap.get key (LRUBase._cache s) = None → Inv (promote key it s).
Proof.
  intros [Hc Ho Hsz Hroom Hold] Hfresh. unfold promote.
  apply Inv_store.
  - unfold JSMap.size in *. split; simpl; unfold JSMap.size; try done.
    + by apply JSMapFacts.wf_delete.
    + pose proof (JSMapFacts.length_delete_le (LRUBase._oldCache s) key). lia.
  - simpl. unfold JSMap.has. by rewrite Hfresh.
Qed.

Lemma Inv_clear s :
  Inv s →
  Inv (LRUBase.with_size 0 (LRUBase.with_oldCache [] (LRUBase.with_cache [] s))).
Proof.
  intros [Hc Ho Hsz Hroom Hold]. unfold JSMap.size in *.
  split; simpl; unfold JSMap.size; simpl; try apply NoDup_nil_2; lia.
Qed.

(** *** What a purge leaves *)

Lemma onEviction_purge E s :
  LRUBase._onEviction (purge E s) = LRUBase._onEviction s.
Proof.
  revert s. induction E as [|p E IH]; intros s; [done|].
  simpl. rewrite IH. simpl. apply onEviction_note.
Qed.

Lemma maxSize_purge E s : LRUBase._maxSize (purge E s) = LRUBase._maxSize s.
Proof.
  revert s. induction E as [|p E IH]; intros s; [done|].
  simpl. rewrite IH. simpl. apply maxSize_note.
Qed.

Lemma maxAge_purge E s : LRUBase._maxAge (purge E s) = LRUBase._maxAge s.
Proof.
  revert s. induction E as [|p E IH]; intros s; [done|].
  simpl. rewrite IH. simpl. apply maxAge_note.
Qed.

Lemma filter_delete (P : K * item → Prop) `{!∀ x, Decision (P x)} key c :
  filter P (JSMap.delete key c) = filter (λ q, P q ∧ q.1 ≠ key) c.
Proof. unfold JSMap.delete. apply list_filter_filter. Qed.

Lemma cache_purge E s :
  LRUBase._cache (purge E s) =
  filter (λ q, q.1 ∉ JSMap.keys E) (LRUBase._cache s).
Proof.
  revert s. induction E as [|p E IH]; intros s.
  - simpl. symmetry. induction (LRUBase._cache s) as [|q c IHc]; [done|].
    rewrite filter_cons_True; [by f_equal|]. apply not_elem_of_nil.
  - simpl. rewrite IH. simpl. rewrite cache_note, filter_delete.
    apply list_filter_iff. intros q. unfold JSMap.keys.
    rewrite not_elem_of_cons. tauto.
Qed.

Lemma oldCache_purge E s :
  LRUBase._oldCache (purge E s) =
  filter (λ q, q.1 ∉ JSMap.keys E) (LRUBase._oldCache s).
Proof.
  revert s. induction E as [|p E IH]; intros s.
  - simpl. symmetry. induction (LRUBase._oldCache s) as [|q c IHc]; [done|].
    rewrite filter_cons_True; [by f_equal|]. apply not_elem_of_nil.
  - simpl. rewrite IH. simpl. rewrite oldCache_note, filter_delete.
    apply list_filter_iff. intros q. unfold JSMap.keys.
    rewrite not_elem_of_cons. tauto.
Qed.

Lemma notified_purge E s :
  LRUBase._notified (purge E s) = LRUBase._notified (note (events E) s).
Proof.
  revert s. induction E as [|p E IH]; intros s.
  - by rewrite note_nil.
  - simpl. rewrite IH.
    transitivity (LRUBase._notified
      (note (events E) (note [(p.1, LRUBase.value p.2)] s))).
    + generalize (note [(p.1, LRUBase.value p.2)] s). intros s'.
      unfold note. simpl. by destruct (LRUBase._onEviction s').
    + by rewrite note_note.
Qed.

Lemma purge_nil_of_none_expired now s :
  none_expired now s → dead_old now s = [] ∧ dead_cache now s = [].
Proof.
  intros [Hc Ho]. unfold dead_old, dead_cache. split.
  - induction (LRUBase._oldCache s) as [|q c IHc]; [done|].
    rewrite filter_cons_False.
    + apply IHc. intros p Hp. apply Ho. by apply list_elem_of_further.
    + intros [_ Hq]. rewrite Ho in Hq; [done|apply list_elem_of_here].
  - induction (LRUBase._cache s) as [|q c IHc]; [done|].
    rewrite filter_cons_False.
    + apply IHc. intros p Hp. apply Hc. by apply list_elem_of_further.
    + intros Hq. rewrite Hc in Hq; [done|apply list_elem_of_here].
Qed.

(** *** The descending walk *)

Lemma wf_reverse l : JSMap.wf l → JSMap.wf (reverse l).
Proof.
  unfold JSMap.wf, JSMap.keys. rewrite fmap_reverse.
  by rewrite reverse_Permutation.
Qed.

Lemma entriesDescending_ok now s :
  no_throw s →
  JSMap.wf (LRUBase._cache s) → JSMap.wf (LRUBase._oldCache s) →
  let s1 := purge (reverse (dead_cache now s)) s in
  LRUBase.entriesDescending now s =
  Ret (map (λ p, (p.1, LRUBase.value p.2))
         (reverse (live_cache now s) ++ reverse (live_old now s1)))
      (purge (reverse (dead_old now s1)) s1).
Proof.
  intros Hs Hc Ho s1. unfold LRUBase.entriesDescending.
  unfold bind at 1. unfold get_state at 1. unfold bind at 1.
  rewrite (for_array_ext _
    (visit LRUBase._cache false false (λ p, (p.1, LRUBase.value p.2)) now)).
  2:{ intros [k it] s'. unfold visit, bind, get_state, ret. cbn [fst snd andb].
      destruct (LRUBase._deleteIfExpired k it now s') as [[] ?|]; done. }
  rewrite loop_cache; [|done|by apply wf_reverse|].
  2:{ intros [k it] Hp. rewrite elem_of_reverse in Hp.
      by apply JSMapFacts.elem_of_get. }
  rewrite !filter_reverse. fold (dead_cache now s). fold (live_cache now s).
  fold s1. unfold bind at 1. unfold get_state at 1. unfold bind at 1.
  rewrite (for_array_ext _
    (visit LRUBase._oldCache false true (λ p, (p.1, LRUBase.value p.2)) now)).
  2:{ intros [k it] s'. unfold visit, bind, get_state, ret. cbn [fst snd andb].
      destruct (JSMap.has k (LRUBase._cache s')); [done|]. cbn [negb].
      destruct (LRUBase._deleteIfExpired k it now s') as [[] ?|]; done. }
  assert (Ho1 : JSMap.wf (LRUBase._oldCache s1)).
  { unfold s1. rewrite oldCache_purge. by apply JSMapFacts.wf_filter. }
  rewrite (loop_old false _ now _ s1 (LRUBase._cache s1));
    [|by apply no_throw_purge|by apply wf_reverse|done|].
  - rewrite !filter_reverse. fold (dead_old now s1). fold (live_old now s1).
    unfold ret. by rewrite fmap_app.
  - intros [k it] Hp. rewrite elem_of_reverse in Hp.
      by apply JSMapFacts.elem_of_get.
Qed.

(** *** Resize *)

Lemma wf_live now s :
  JSMap.wf (LRUBase._cache s) → JSMap.wf (LRUBase._oldCache s) →
  JSMap.wf (live now s).
Proof.
  intros Hc Ho. unfold live, JSMap.wf, JSMap.keys. rewrite fmap_app.
  apply NoDup_app. split_and!.
  - by apply JSMapFacts.wf_filter.
  - intros k [p [-> Hp]]%list_elem_of_fmap [q [Hq Hq']]%list_elem_of_fmap.
    apply list_elem_of_filter in Hp as [[Hp _] _].
    apply list_elem_of_filter in Hq' as [_ Hq'].
    apply JSMapFacts.has_false in Hp. apply Hp. rewrite Hq.
    apply list_elem_of_fmap. by exists q.
  - by apply JSMapFacts.wf_filter.
Qed.

Lemma wf_sublist l1 l2 : l1 `sublist_of` l2 → JSMap.wf l2 → JSMap.wf l1.
Proof.
  unfold JSMap.wf, JSMap.keys. intros Hsub Hnd.
  eapply sublist_NoDup; [done|]. by apply fmap_sublist.
Qed.

Lemma resize_TypeError m now s :
  m ≤ 0 → LRUBase.resize m now s = Throw TypeError s.
Proof.
  intros Hm. unfold LRUBase.resize.
  by replace (0 <? m) with false by (symmetry; apply Z.ltb_ge; lia).
Qed.

Lemma resize_ok m now s :
  no_throw s →
  JSMap.wf (LRUBase._cache s) → JSMap.wf (LRUBase._oldCache s) →
  0 < m → LRUBase.resize m now s = Ret tt (resized m now s).
Proof.
  intros Hs Hc Ho Hm. unfold LRUBase.resize, resized.
  replace (0 <? m) with true by (symmetry; apply Z.ltb_lt; lia).
  cbn [negb]. unfold bind at 1. rewrite _entriesAscending_ok by done.
  pose proof (wf_live now s Hc Ho) as Hlive.
  set (items := live now s) in *.
  set (s1 := purge _ (purge _ s)).
  assert (Hs1 : no_throw s1) by (by do 2 apply no_throw_purge).
  destruct (Z.of_nat (length items) - m <? 0) eqn:Hneg; run_m.
  - by rewrite JSMapFacts.from_entries_wf.
  - rewrite (JSMapFacts.from_entries_wf (drop _ items))
      by (eapply wf_sublist; [apply sublist_drop|done]).
    destruct (0 <? Z.of_nat (length items) - m) eqn:Hpos.
    + rewrite (JSMapFacts.from_entries_wf (take _ items))
        by (eapply wf_sublist; [apply sublist_take|done]).
      by rewrite _emitEvictions_ok.
    + apply Z.ltb_ge in Hneg, Hpos.
      replace (Z.of_nat (length items) - m) with 0 by lia.
      simpl. by rewrite note_nil.
Qed.

Lemma Inv_resized m now s : Inv s → 0 < m → Inv (resized m now s).
Proof.
  intros [Hc Ho Hsz Hroom Hold] Hm. unfold resized.
  pose proof (wf_live now s Hc Ho) as Hlive.
  set (items := live now s) in *.
  destruct (Z.of_nat (length items) - m <? 0) eqn:Hneg.
  - apply Z.ltb_lt in Hneg.
    split; simpl; unfold JSMap.size; simpl; try done; try lia.
    apply NoDup_nil_2.
  - apply Z.ltb_ge in Hneg.
    split; simpl; rewrite ?oldCache_note; simpl; unfold JSMap.size; simpl;
      try done; try lia.
    + apply NoDup_nil_2.
    + eapply wf_sublist; [apply sublist_drop|done].
    + rewrite length_drop. lia.
Qed.

(** *** Every operation keeps the invariant *)

Lemma Inv_constructor options s0 :
  LRUBase.constructor options = inr s0 → Inv s0.
Proof.
  unfold LRUBase.constructor.
  destruct (0 <? LRUBase.opt_maxSize options) eqn:Hm; [|done].
  apply Z.ltb_lt in Hm. cbn [negb].
  assert (Hinv : ∀ a (f : option (K → V → bool)),
    Inv {| LRUBase._size := 0; LRUBase._cache := []; LRUBase._oldCache := [];
           LRUBase._maxSize := LRUBase.opt_maxSize options;
           LRUBase._maxAge := a; LRUBase._onEviction := f;
           LRUBase._notified := [] |}).
  { intros a f. split; simpl; unfold JSMap.size; simpl;
      try apply NoDup_nil_2; lia. }
  destruct (LRUBase.opt_maxAge options) as [[[| |]|]|];
    intros Heq; try done; injection Heq as <-; apply Hinv.
Qed.

Lemma onEviction_store key it s :
  LRUBase._onEviction (store key it s) = LRUBase._onEviction s.
Proof.
  unfold store, rotate, insert.
  destruct (LRUBase._maxSize s <=? LRUBase._size s + 1); simpl; [|done].
  by rewrite onEviction_note.
Qed.

Lemma onEviction_resized m now s :
  LRUBase._onEviction (resized m now s) = LRUBase._onEviction s.
Proof.
  unfold resized.
  destruct (Z.of_nat (length (live now s)) - m <? 0); simpl;
    by rewrite ?onEviction_note, !onEviction_purge.
Qed.

Lemma exec_Inv o now s :
  Inv s → no_throw s →
  Inv (exec o now s) ∧
  LRUBase._onEviction (exec o now s) = LRUBase._onEviction s.
Proof.
  intros HI Hs. pose proof HI as [Hc Ho _ _ _].
  destruct o as [key|key v maxAge|key|key|key| |m| |]; unfold exec.
  - (* get *)
    destruct (JSMap.get key (LRUBase._cache s)) as [it|] eqn:Hkc.
    + rewrite (get_active key it) by done.
      destruct (stale it now); simpl; [|done].
      split; [by apply Inv_del, Inv_note | apply onEviction_note].
    + destruct (JSMap.get key (LRUBase._oldCache s)) as [it|] eqn:Hko.
      * rewrite (get_previous key it) by done.
        destruct (LRUBase.is_expired it now); cbn [state_of].
        -- split; [by apply Inv_del, Inv_note | apply onEviction_note].
        -- split; [by apply Inv_promote|]. unfold promote.
           by rewrite onEviction_store.
      * by rewrite get_absent.
  - (* set *)
    rewrite set_ok by done. cbn [state_of].
    destruct (JSMap.has key (LRUBase._cache s)) eqn:Hkc.
    + split; [by apply Inv_overwrite | done].
    + split; [by apply Inv_store | apply onEviction_store].
  - (* has *)
    destruct (entry key s) as [it|] eqn:Hk.
    + rewrite (has_present key it) by done.
      destruct (LRUBase.is_expired it now); simpl; [|done].
      split; [by apply Inv_del, Inv_note | apply onEviction_note].
    + by rewrite has_absent.
  - (* peek *)
    destruct (entry key s) as [it|] eqn:Hk.
    + rewrite (peek_present key it) by done.
      destruct (stale it now); simpl; [|done].
      split; [by apply Inv_del, Inv_note | apply onEviction_note].
    + by rewrite peek_absent.
  - (* delete *)
    rewrite delete_ok. cbn [state_of]. split; [by apply Inv_del | done].
  - (* clear *)
    rewrite clear_ok. cbn [state_of]. split; [by apply Inv_clear | done].
  - (* resize *)
    destruct (decide (0 < m)) as [Hm|Hm].
    + rewrite resize_ok by done. cbn [state_of].
      split; [by apply Inv_resized | apply onEviction_resized].
    + rewrite resize_TypeError by lia. done.
  - (* entriesAscending *)
    unfold LRUBase.entriesAscending, bind.
    rewrite _entriesAscending_ok by done. cbn [ret state_of].
    split; [by do 2 apply Inv_purge | by rewrite !onEviction_purge].
  - (* entriesDescending *)
    rewrite entriesDescending_ok by done. cbn [state_of].
    split; [by do 2 apply Inv_purge | by rewrite !onEviction_purge].
Qed.

Lemma no_throw_eq s s' :
  LRUBase._onEviction s' = LRUBase._onEviction s → no_throw s → no_throw s'.
Proof. unfold no_throw. by intros ->. Qed.

Lemma run_Inv ops s :
  Inv s → no_throw s → Inv (run ops s) ∧ no_throw (run ops s).
Proof.
  revert s. induction ops as [|[now o] ops IH]; intros s HI Hs; [done|].
  destruct (exec_Inv o now s HI Hs) as [HI' He].
  apply IH; [done|]. by apply (no_throw_eq s).
Qed.

Lemma reachable_Inv s : reachable s → Inv s ∧ no_throw s.
Proof.
  intros (options & s0 & ops & Hnew & Hs0 & ->).
  apply run_Inv; [by eapply Inv_constructor | done].
Qed.

(** *** The reported size *)

Lemma count_unshadowed c (ks : list K) (a : Z) :
  fold_left (λ n key, if JSMap.has key c then n else n + 1) ks a =
  a + Z.of_nat (length (filter (λ key, JSMap.has key c = false) ks)).
Proof.
  revert a. induction ks as [|k ks IH]; intros a; simpl; [lia|].
  rewrite IH, filter_cons. destruct (JSMap.has k c); simpl; lia.
Qed.

Lemma size_eq s :
  Inv s →
  LRUBase.size s =
  Z.min (LRUBase._maxSize s)
        (LRUBase._size s + Z.of_nat (length (unshadowed s))).
Proof.
  intros [Hc Ho Hsz Hroom Hold]. unfold LRUBase.size, unshadowed.
  rewrite count_unshadowed. unfold JSMap.size in *.
  destruct (LRUBase._size s =? 0) eqn:Hz; [|lia].
  apply Z.eqb_eq in Hz. rewrite Hz in *.
  destruct (LRUBase._cache s) as [|p c]; [|simpl in Hsz; lia].
  assert (Hall : filter (λ key, JSMap.has key (@nil (K * item)) = false)
                   (JSMap.keys (LRUBase._oldCache s))
                 = JSMap.keys (LRUBase._oldCache s)).
  { induction (JSMap.keys (LRUBase._oldCache s)) as [|k ks IH]; [done|].
    rewrite filter_cons_True by done. by rewrite IH. }
  rewrite Hall. unfold JSMap.keys. rewrite length_fmap. lia.
Qed.

Lemma NoDup_present_keys s : Inv s → NoDup (present_keys s).
Proof.
  intros [Hc Ho _ _ _]. unfold present_keys, unshadowed.
  apply NoDup_app. split_and!; [done| |by apply NoDup_filter].
  intros k Hk [Hk' _]%list_elem_of_filter. by apply JSMapFacts.has_false in Hk'.
Qed.

Lemma elem_of_present_keys s k : k ∈ present_keys s ↔ is_Some (entry k s).
Proof.
  unfold present_keys, unshadowed, entry.
  rewrite elem_of_app, list_elem_of_filter, <- !JSMapFacts.has_true.
  rewrite !JSMapFacts.has_get.
  destruct (JSMap.get k (LRUBase._cache s)) as [it|] eqn:Hc.
  - split; [by eexists|]. intros _. left. by eexists.
  - split; [|intros Ho; right; split; [|done]].
    + intros [[? ?]|[_ ?]]; done.
    + unfold JSMap.has. by rewrite Hc.
Qed.

(** *** The claims about the size *)

(** C1, as amended.  For every sequence of operations (get, set, has,
    peek, delete, clear, resize and the two ordered iterations) on a
    cache built by the constructor with an eviction callback that never
    throws, or with none, the reported size is at most the current
    maxSize after every operation. *)
Theorem size_le_maxSize s :
  reachable s → LRUBase.size s ≤ LRUBase.maxSize s.
Proof.
  intros [HI _]%reachable_Inv. rewrite size_eq by done.
  unfold LRUBase.maxSize. lia.
Qed.

(** C6, as amended.  At every reachable state the reported size is
    min(maxSize, active-count + number of keys of previous that are not
    in active); that sum is the number of distinct keys held by the two
    generations, a shadowed key counted once, whether or not the entry
    has expired. *)
Theorem size_counts_present s :
  reachable s →
  LRUBase.size s =
    Z.min (LRUBase._maxSize s)
          (LRUBase._size s + Z.of_nat (length (unshadowed s))) ∧
  LRUBase._size s + Z.of_nat (length (unshadowed s)) =
    Z.of_nat (length (present_keys s)) ∧
  NoDup (present_keys s) ∧
  (∀ k, k ∈ present_keys s ↔ is_Some (entry k s)).
Proof.
  intros [HI _]%reachable_Inv. split_and!.
  - by apply size_eq.
  - destruct HI as [_ _ Hsz _ _]. unfold present_keys, JSMap.size in *.
    rewrite length_app. unfold JSMap.keys at 1. rewrite length_fmap. lia.
  - by apply NoDup_present_keys.
  - apply elem_of_present_keys.
Qed.

(** *** Resize without overflow *)

Lemma notified_note_purge E evs s :
  LRUBase._notified (note evs (purge E s)) =
  LRUBase._notified (note (events E ++ evs) s).
Proof.
  unfold note at 1. rewrite onEviction_purge.
  destruct (LRUBase._onEviction s) eqn:Hf.
  - simpl. rewrite notified_purge. unfold note. rewrite Hf. simpl.
    by rewrite app_assoc.
  - rewrite notified_purge. unfold note. by rewrite Hf.
Qed.

Lemma notified_walk now s :
  LRUBase._notified (purge (dead_cache now s) (purge (dead_old now s) s)) =
  LRUBase._notified (note (events (dead_old now s ++ dead_cache now s)) s).
Proof.
  rewrite notified_purge, notified_note_purge. unfold events.
  by rewrite map_app.
Qed.

(** C4, as amended.  Let [live now s] be the entries the walk collects.
    When they are fewer than the new bound they become the active
    generation, previous becomes empty and active-count is their number.
    When they are exactly as many as the new bound they become the
    previous generation, active becomes empty and active-count is 0.  In
    both cases maxSize is updated and the only notifications are those of
    the entries the walk found expired. *)
Theorem resize_without_overflow s m now :
  reachable s → 0 < m → Z.of_nat (length (live now s)) ≤ m →
  ∃ s',
    LRUBase.resize m now s = Ret tt s' ∧
    LRUBase._maxSize s' = m ∧
    LRUBase._notified s' =
      LRUBase._notified
        (note (events (dead_old now s ++ dead_cache now s)) s) ∧
    (none_expired now s → LRUBase._notified s' = LRUBase._notified s) ∧
    (Z.of_nat (length (live now s)) < m →
       LRUBase._cache s' = live now s ∧
       LRUBase._oldCache s' = [] ∧
       LRUBase._size s' = Z.of_nat (length (live now s))) ∧
    (Z.of_nat (length (live now s)) = m →
       LRUBase._oldCache s' = live now s ∧
       LRUBase._cache s' = [] ∧
       LRUBase._size s' = 0).
Proof.
  intros [HI Hs]%reachable_Inv Hm Hle. pose proof HI as [Hc Ho _ _ _].
  exists (resized m now s). split; [by apply resize_ok|].
  assert (Hnote : LRUBase._notified (resized m now s) =
    LRUBase._notified (note (events (dead_old now s ++ dead_cache now s)) s)).
  { unfold resized.
    destruct (Z.of_nat (length (live now s)) - m <? 0) eqn:Hneg; simpl.
    - apply notified_walk.
    - apply Z.ltb_ge in Hneg.
      replace (Z.of_nat (length (live now s)) - m) with 0 by lia.
      simpl. rewrite note_nil. apply notified_walk. }
  split_and!.
  - done.
  - done.
  - intros [H1 H2]%purge_nil_of_none_expired. rewrite Hnote, H1, H2. simpl.
    by rewrite note_nil.
  - intros Hlt. unfold resized.
    by replace (Z.of_nat (length (live now s)) - m <? 0) with true
      by (symmetry; apply Z.ltb_lt; lia).
  - intros Heq. unfold resized.
    replace (Z.of_nat (length (live now s)) - m <? 0) with false
      by (symmetry; apply Z.ltb_ge; lia).
    replace (Z.of_nat (length (live now s)) - m) with 0 by lia.
    simpl. by rewrite ?oldCache_note.
Qed.

Lemma none_expiredb_true now s :
  none_expiredb now s = true → none_expired now s.
Proof.
  unfold none_expiredb, none_expired. rewrite forallb_forall.
  intros Hall. split; intros p Hp; apply negb_true_iff, Hall, in_app_iff;
    [left|right]; by apply list_elem_of_In.
Qed.

(** *** The walks when no entry is expired *)

Lemma filter_ext_elem {A} (P Q : A → Prop)
    `{!∀ x, Decision (P x), !∀ x, Decision (Q x)} (xs : list A) :
  (∀ x, x ∈ xs → (P x ↔ Q x)) → filter P xs = filter Q xs.
Proof.
  induction xs as [|x xs IH]; intros HPQ; [done|].
  rewrite !filter_cons.
  rewrite IH by (intros y Hy; apply HPQ; by apply list_elem_of_further).
  apply decide_ext, HPQ, list_elem_of_here.
Qed.

Lemma loop_quiet {Y} (sel : state → list (K * item)) (lv guard : bool)
    (proj : K * item → Y) now l s :
  (∀ p, p ∈ l → LRUBase.is_expired p.2 now = false) →
  (∀ p, p ∈ l → JSMap.get p.1 (sel s) = Some p.2) →
  for_array (visit sel lv guard proj now) l s =
  Ret (map proj
         (filter (λ p, guard && JSMap.has p.1 (LRUBase._cache s) = false) l))
      s.
Proof.
  induction l as [|[k it] l IH]; intros Hexp Hget; [done|].
  rewrite for_array_cons, filter_cons. cbn [fst snd].
  assert (Hv : visit sel lv guard proj now (k, it) s =
    Ret (if guard && JSMap.has k (LRUBase._cache s)
         then None else Some (proj (k, it))) s).
  { pose proof (Hget (k, it) (list_elem_of_here _ _)) as Hk.
    pose proof (Hexp (k, it) (list_elem_of_here _ _)) as He.
    cbn [fst snd] in Hk, He. unfold visit. run_m. rewrite Hk.
    replace (if lv then Some it else Some it) with (Some it)
      by (by destruct lv).
    destruct (guard && JSMap.has k (LRUBase._cache s)); [done|].
    unfold LRUBase._deleteIfExpired. by rewrite He. }
  rewrite Hv, IH.
  - by destruct (guard && JSMap.has k (LRUBase._cache s)).
  - intros p Hp. apply Hexp. by apply list_elem_of_further.
  - intros p Hp. apply Hget. by apply list_elem_of_further.
Qed.

Lemma live_old_quiet now s :
  none_expired now s → live_old now s = unshadowed_entries s.
Proof.
  intros [_ Ho]. unfold live_old, unshadowed_entries.
  apply filter_ext_elem. intros p Hp. specialize (Ho p Hp). tauto.
Qed.

Lemma live_cache_quiet now s :
  none_expired now s → live_cache now s = LRUBase._cache s.
Proof.
  intros [Hc _]. unfold live_cache.
  induction (LRUBase._cache s) as [|p c IH]; [done|].
  rewrite filter_cons_True by (apply Hc, list_elem_of_here).
  rewrite IH; [done|]. intros q Hq. apply Hc. by apply list_elem_of_further.
Qed.

Lemma filter_true {A} (xs : list A) : filter (λ _, false = false) xs = xs.
Proof. induction xs as [|x xs IH]; [done|]. by rewrite filter_cons_True, IH. Qed.

Lemma _entriesAscending_quiet now s :
  JSMap.wf (LRUBase._cache s) → JSMap.wf (LRUBase._oldCache s) →
  none_expired now s →
  LRUBase._entriesAscending now s =
  Ret (unshadowed_entries s ++ LRUBase._cache s) s.
Proof.
  intros Hc Ho Hq. pose proof Hq as [Hqc Hqo].
  unfold LRUBase._entriesAscending, bind.
  rewrite (for_of_visit LRUBase._oldCache true id now).
  2:{ intros k it s'. unfold bind, get_state, ret. cbn [andb].
      destruct (JSMap.has k (LRUBase._cache s')); [done|]. cbn [negb].
      destruct (LRUBase._deleteIfExpired k it now s') as [[] ?|]; done. }
  rewrite loop_quiet; [|done|].
  2:{ intros [k it] Hp. by apply JSMapFacts.elem_of_get. }
  rewrite (for_of_visit LRUBase._cache false id now).
  2:{ intros k it s'. unfold bind, ret. cbn [andb].
      destruct (LRUBase._deleteIfExpired k it now s') as [[] ?|]; done. }
  rewrite loop_quiet; [|done|].
  2:{ intros [k it] Hp. by apply JSMapFacts.elem_of_get. }
  unfold ret. cbn [andb]. rewrite !list_fmap_id, filter_true. done.
Qed.

Lemma entriesAscending_quiet now s :
  JSMap.wf (LRUBase._cache s) → JSMap.wf (LRUBase._oldCache s) →
  none_expired now s →
  LRUBase.entriesAscending now s =
  Ret (view <$> (unshadowed_entries s ++ LRUBase._cache s)) s.
Proof.
  intros Hc Ho Hq. unfold LRUBase.entriesAscending, bind.
  by rewrite _entriesAscending_quiet.
Qed.

Lemma entriesDescending_quiet now s :
  JSMap.wf (LRUBase._cache s) → JSMap.wf (LRUBase._oldCache s) →
  none_expired now s →
  LRUBase.entriesDescending now s =
  Ret (view <$> (reverse (LRUBase._cache s)
                 ++ reverse (unshadowed_entries s))) s.
Proof.
  intros Hc Ho Hq. pose proof Hq as [Hqc Hqo].
  unfold LRUBase.entriesDescending.
  unfold bind at 1. unfold get_state at 1. unfold bind at 1.
  rewrite (for_array_ext _ (visit LRUBase._cache false false view now)).
  2:{ intros [k it] s'. unfold visit, bind, get_state, ret. cbn [fst snd andb].
      destruct (LRUBase._deleteIfExpired k it now s') as [[] ?|]; done. }
  rewrite loop_quiet.
  2:{ intros p Hp. rewrite elem_of_reverse in Hp. by apply Hqc. }
  2:{ intros [k it] Hp. rewrite elem_of_reverse in Hp.
      by apply JSMapFacts.elem_of_get. }
  unfold bind at 1. unfold get_state at 1. unfold bind at 1.
  rewrite (for_array_ext _ (visit LRUBase._oldCache false true view now)).
  2:{ intros [k it] s'. unfold visit, bind, get_state, ret. cbn [fst snd andb].
      destruct (JSMap.has k (LRUBase._cache s')); [done|]. cbn [negb].
      destruct (LRUBase._deleteIfExpired k it now s') as [[] ?|]; done. }
  rewrite loop_quiet.
  2:{ intros p Hp. rewrite elem_of_reverse in Hp. by apply Hqo. }
  2:{ intros [k it] Hp. rewrite elem_of_reverse in Hp.
      by apply JSMapFacts.elem_of_get. }
  unfold ret. cbn [andb].
  rewrite filter_true, filter_reverse, fmap_app. done.
Qed.

(** C8.  In a state where no entry is expired, the descending iteration
    yields the active entries newest first, then the entries of previous
    that active does not shadow, newest first; this sequence is exactly
    the reverse of the one the ascending iteration yields (unshadowed
    previous entries in insertion order, then active entries in
    insertion order).  Neither iteration changes the state. *)
Theorem descending_reverses_ascending s now :
  JSMap.wf (LRUBase._cache s) → JSMap.wf (LRUBase._oldCache s) →
  none_expired now s →
  ∃ xs,
    LRUBase.entriesAscending now s = Ret xs s ∧
    LRUBase.entriesDescending now s = Ret (reverse xs) s ∧
    xs = view <$> (unshadowed_entries s ++ LRUBase._cache s) ∧
    reverse xs =
      view <$> (reverse (LRUBase._cache s) ++ reverse (unshadowed_entries s)).
Proof.
  intros Hc Ho Hq.
  exists (view <$> (unshadowed_entries s ++ LRUBase._cache s)).
  assert (Hrev : reverse (view <$> (unshadowed_entries s ++ LRUBase._cache s))
    = view <$> (reverse (LRUBase._cache s) ++ reverse (unshadowed_entries s))).
  { by rewrite <- fmap_reverse, reverse_app. }
  split_and!; [|rewrite Hrev| |]; try done.
  - by apply entriesAscending_quiet.
  - by apply entriesDescending_quiet.
Qed.

(** With expired entries too, as long as the callback does not throw,
    the descending iteration yields the reverse of what the ascending
    one yields from the same state: both skip, and purge, the expired
    entries. *)
Lemma live_old_after_dead_cache now s :
  live_old now (purge (reverse (dead_cache now s)) s) = live_old now s.
Proof.
  unfold live_old. rewrite oldCache_purge, cache_purge, list_filter_filter.
  apply list_filter_iff. intros [k it]. cbn [fst snd].
  rewrite !JSMapFacts.has_false. unfold JSMap.keys.
  rewrite !list_elem_of_fmap.
  split.
  - intros [[Hsh Hexp] Hdead]. split; [|done].
    intros [[k' it'] [Hk Hin]]. simpl in Hk. subst k'.
    destruct (LRUBase.is_expired it' now) eqn:Hexp'.
    + apply Hdead. exists (k, it'). split; [done|].
      apply elem_of_reverse. unfold dead_cache.
      by apply list_elem_of_filter.
    + apply Hsh. exists (k, it'). split; [done|].
      apply list_elem_of_filter. split; [|done]. cbn [fst].
      rewrite list_elem_of_fmap.
      intros [[k' it''] [Hk Hin']]. simpl in Hk. subst k'.
      apply Hdead. by exists (k, it'').
  - intros [Hsh Hexp]. split_and!; [|done|].
    + intros [[k' it'] [Hk Hin]]. simpl in Hk. subst k'.
      apply list_elem_of_filter in Hin as [_ Hin].
      apply Hsh. by exists (k, it').
    + intros [[k' it'] [Hk Hin]]. simpl in Hk. subst k'.
      rewrite elem_of_reverse in Hin. unfold dead_cache in Hin.
      apply list_elem_of_filter in Hin as [_ Hin].
      apply Hsh. by exists (k, it').
Qed.

Lemma descending_reverses_ascending_purging s now :
  no_throw s →
  JSMap.wf (LRUBase._cache s) → JSMap.wf (LRUBase._oldCache s) →
  ∃ s1 s2,
    LRUBase.entriesAscending now s = Ret (view <$> live now s) s1 ∧
    LRUBase.entriesDescending now s =
      Ret (reverse (view <$> live now s)) s2.
Proof.
  intros Hs Hc Ho. do 2 eexists. split.
  - unfold LRUBase.entriesAscending, bind.
    by rewrite _entriesAscending_ok.
  - rewrite entriesDescending_ok by done.
    rewrite live_old_after_dead_cache. unfold live.
    by rewrite <- fmap_reverse, reverse_app.
Qed.

(** *** When the callback throws *)

Lemma call_Throw f key (v : V) s e s' :
  LRUBase.call f key v s = Throw e s' →
  e = CallbackError ∧
  s' = LRUBase.with_notified (LRUBase._notified s ++ [(key, v)]) s.
Proof.
  unfold LRUBase.call. run_m. destruct (f key v); [|done].
  by intros [= <- <-].
Qed.

Lemma call_Ret f key (v : V) s u s' :
  LRUBase.call f key v s = Ret u s' →
  s' = LRUBase.with_notified (LRUBase._notified s ++ [(key, v)]) s.
Proof.
  unfold LRUBase.call. run_m. destruct (f key v); [done|].
  by intros [= <- <-].
Qed.

Lemma emit_loop_Throw f c s e s' :
  LRUBase.emit_loop f c s = Throw e s' →
  e = CallbackError ∧
  ∃ evs, evs ≠ [] ∧ evs `prefix_of` events c ∧
         s' = LRUBase.with_notified (LRUBase._notified s ++ evs) s.
Proof.
  revert s. induction c as [|[k it] c IH]; intros s; [done|].
  simpl. unfold bind.
  destruct (LRUBase.call f k (LRUBase.value it) s) as [u s1|e1 s1] eqn:Hcall.
  - apply call_Ret in Hcall as ->. intros [-> (evs & Hne & Hpre & ->)]%IH.
    split; [done|]. exists ((k, LRUBase.value it) :: evs). split_and!.
    + done.
    + by apply prefix_cons.
    + simpl. by rewrite <- app_assoc.
  - apply call_Throw in Hcall as [-> ->]. intros [= <- <-].
    split; [done|]. exists [(k, LRUBase.value it)]. split_and!; [done| |done].
    apply prefix_cons, prefix_nil.
Qed.

Lemma _emitEvictions_Throw c s e s' :
  LRUBase._emitEvictions c s = Throw e s' →
  e = CallbackError ∧
  ∃ evs, evs ≠ [] ∧ evs `prefix_of` events c ∧
         s' = LRUBase.with_notified (LRUBase._notified s ++ evs) s.
Proof.
  unfold LRUBase._emitEvictions. run_m.
  destruct (LRUBase._onEviction s) as [f|]; [|done]. apply emit_loop_Throw.
Qed.

Lemma _deleteIfExpired_Throw key it now s e s' :
  LRUBase._deleteIfExpired key it now s = Throw e s' →
  e = CallbackError ∧ LRUBase.is_expired it now = true ∧
  s' = LRUBase.with_notified
         (LRUBase._notified s ++ [(key, LRUBase.value it)]) s.
Proof.
  unfold LRUBase._deleteIfExpired.
  destruct (LRUBase.is_expired it now); [|done]. run_m.
  destruct (LRUBase._onEviction s) as [f|].
  - destruct (LRUBase.call f key (LRUBase.value it) s) as [u s1|e1 s1] eqn:Hc.
    + by rewrite delete_ok.
    + apply call_Throw in Hc as [-> ->]. by intros [= <- <-].
  - by rewrite delete_ok.
Qed.

Lemma _set_Throw key it s e s' :
  LRUBase._set key it s = Throw e s' →
  e = CallbackError ∧
  ∃ evs, evs ≠ [] ∧ evs `prefix_of` events (LRUBase._oldCache s) ∧
         s' = LRUBase.with_notified (LRUBase._notified s ++ evs)
                (LRUBase.with_size 0 (insert key it s)).
Proof.
  unfold LRUBase._set. run_m.
  destruct (LRUBase._maxSize s <=? LRUBase._size s + 1); [|done].
  destruct (LRUBase._emitEvictions _ _) as [u s1|e1 s1] eqn:Hemit; [done|].
  apply _emitEvictions_Throw in Hemit as [-> (evs & Hne & Hpre & ->)].
  intros [= <- <-]. split; [done|]. by exists evs.
Qed.

Lemma resize_Throw m now s e s' :
  JSMap.wf (LRUBase._cache s) → JSMap.wf (LRUBase._oldCache s) →
  none_expired now s →
  LRUBase.resize m now s = Throw e s' →
  (e = TypeError ∧ m ≤ 0 ∧ s' = s) ∨
  (e = CallbackError ∧
   ∃ evs, evs ≠ [] ∧
          evs `prefix_of` events (unshadowed_entries s ++ LRUBase._cache s) ∧
          s' = LRUBase.with_notified (LRUBase._notified s ++ evs) s).
Proof.
  intros Hc Ho Hq. unfold LRUBase.resize.
  destruct (0 <? m) eqn:Hm; cbn [negb].
  2:{ apply Z.ltb_ge in Hm. intros [= <- <-]. by left. }
  unfold bind at 1. rewrite _entriesAscending_quiet by done.
  set (items := unshadowed_entries s ++ LRUBase._cache s).
  assert (Hitems : JSMap.wf items).
  { unfold items. rewrite <- (live_old_quiet now), <- (live_cache_quiet now s)
      by done. by apply wf_live. }
  destruct (Z.of_nat (length items) - m <? 0); [done|]. run_m.
  destruct (0 <? Z.of_nat (length items) - m); [|done].
  rewrite (JSMapFacts.from_entries_wf (take _ items))
    by (eapply wf_sublist; [apply sublist_take|done]).
  destruct (LRUBase._emitEvictions _ _) as [u s1|e1 s1] eqn:Hemit; [done|].
  apply _emitEvictions_Throw in Hemit as [-> (evs & Hne & Hpre & ->)].
  intros [= <- <-]. right. split; [done|]. exists evs. split_and!; try done.
  etrans; [done|]. unfold events. rewrite fmap_take. apply prefix_take.
Qed.

Lemma _deleteIfExpired_throws key it f now s :
  LRUBase.is_expired it now = true →
  LRUBase._onEviction s = Some f → f key (LRUBase.value it) = true →
  LRUBase._deleteIfExpired key it now s =
  Throw CallbackError
    (LRUBase.with_notified
       (LRUBase._notified s ++ [(key, LRUBase.value it)]) s).
Proof.
  intros Hexp Hf Hthrow. unfold LRUBase._deleteIfExpired, LRUBase.call.
  rewrite Hexp. run_m. rewrite Hf. run_m. by rewrite Hthrow.
Qed.

Lemma expired_throws key it e f now s :
  entry key s = Some it → LRUBase.expiry it = Some e → e ≠ 0 → e ≤ now →
  LRUBase._onEviction s = Some f → f key (LRUBase.value it) = true →
  let s' := LRUBase.with_notified
              (LRUBase._notified s ++ [(key, LRUBase.value it)]) s in
  LRUBase.get key now s = Throw CallbackError s' ∧
  LRUBase.has key now s = Throw CallbackError s' ∧
  LRUBase.peek key now s = Throw CallbackError s'.
Proof.
  intros Hit He Hne Hle Hf Hthrow s'.
  assert (Hexp : LRUBase.is_expired it now = true).
  { unfold LRUBase.is_expired. rewrite He. by apply Z.leb_le. }
  pose proof (_deleteIfExpired_throws key it f now s Hexp Hf Hthrow) as Hdel.
  fold s' in Hdel.
  assert (Hval : LRUBase._getItemValue key it now s = Throw CallbackError s').
  { unfold LRUBase._getItemValue, LRUBase._getOrDeleteIfExpired, bind.
    rewrite He. replace (e =? 0) with false by (symmetry; by apply Z.eqb_neq).
    by rewrite Hdel. }
  unfold entry in Hit.
  unfold LRUBase.get, LRUBase.has, LRUBase.peek, LRUBase._peek.
  unfold bind, get_state.
  destruct (JSMap.get key (LRUBase._cache s)) as [it'|] eqn:Hc.
  - injection Hit as ->. rewrite (JSMapFacts.get_has _ _ _ Hc), Hc.
    by rewrite Hval, Hdel.
  - rewrite Hit. unfold JSMap.has at 1. rewrite Hc.
    rewrite (JSMapFacts.get_has _ _ _ Hit), Hit. by rewrite Hval, Hdel.
Qed.

(** A loop throws when one of its turns does. *)
Lemma for_array_Throw {X Y} (body : X → M state (option Y)) xs s e s' :
  for_array body xs s = Throw e s' →
  ∃ x s0, x ∈ xs ∧ body x s0 = Throw e s'.
Proof.
  revert s. induction xs as [|x xs IH]; intros s; [done|].
  simpl. unfold bind at 1.
  destruct (body x s) as [y s1|e1 s1] eqn:Hx.
  - unfold bind at 1.
    destruct (for_array body xs s1) as [ys s2|e2 s2] eqn:Hxs; [done|].
    intros [= <- <-]. destruct (IH _ Hxs) as (x' & s0 & Hin & Hb).
    exists x', s0. split; [by apply list_elem_of_further|done].
  - intros [= <- <-]. exists x, s. split; [apply list_elem_of_here|done].
Qed.

Lemma for_of_Throw {Y} (sel : state → list (K * item))
    (body : K * item → M state (option Y)) s e s' :
  LRUBase.for_of sel body s = Throw e s' →
  ∃ key it s0, JSMap.get key (sel s0) = Some it ∧
               body (key, it) s0 = Throw e s'.
Proof.
  unfold LRUBase.for_of. unfold bind at 1. unfold get_state at 1.
  intros (p & s0 & _ & Hb)%for_array_Throw.
  unfold bind, get_state in Hb.
  destruct (JSMap.get p.1 (sel s0)) as [it|] eqn:Hget; [|done].
  by exists p.1, it, s0.
Qed.

(** The collecting walk throws only from the notification of an expired
    entry, which is then still in its generation. *)
Lemma _entriesAscending_Throw now s e s' :
  LRUBase._entriesAscending now s = Throw e s' →
  ∃ key it s0,
    (JSMap.get key (LRUBase._oldCache s0) = Some it
     ∨ JSMap.get key (LRUBase._cache s0) = Some it) ∧
    LRUBase._deleteIfExpired key it now s0 = Throw e s'.
Proof.
  unfold LRUBase._entriesAscending. unfold bind at 1.
  destruct (LRUBase.for_of LRUBase._oldCache _ s) as [xs s1|e1 s1] eqn:Hold.
  - unfold bind at 1.
    destruct (LRUBase.for_of LRUBase._cache _ s1) as [ys s2|e2 s2] eqn:Hnew;
      [done|].
    intros [= <- <-].
    apply for_of_Throw in Hnew as (key & it & s0 & Hget & Hb).
    exists key, it, s0. split; [by right|].
    unfold bind, ret in Hb.
    destruct (LRUBase._deleteIfExpired key it now s0) as [[] ?|];
      [discriminate Hb|discriminate Hb|by injection Hb as -> ->].
  - intros [= <- <-].
    apply for_of_Throw in Hold as (key & it & s0 & Hget & Hb).
    exists key, it, s0. split; [by left|].
    unfold bind, get_state, ret in Hb.
    destruct (JSMap.has key (LRUBase._cache s0)); [done|]. cbn [negb] in Hb.
    destruct (LRUBase._deleteIfExpired key it now s0) as [[] ?|];
      [discriminate Hb|discriminate Hb|by injection Hb as -> ->].
Qed.

(** What leaves maxSize alone. *)
Lemma keeps_maxSize_ret {A} (a : A) : keeps_maxSize (ret a : M state A).
Proof. by intros s. Qed.

Lemma keeps_maxSize_bind {A B} (m : M state A) (f : A → M state B) :
  keeps_maxSize m → (∀ a, keeps_maxSize (f a)) → keeps_maxSize (bind m f).
Proof.
  intros Hm Hf s. unfold bind. specialize (Hm s).
  destruct (m s) as [a s1|e s1]; [|done]. simpl in Hm.
  by rewrite Hf.
Qed.

Lemma keeps_maxSize_get_state {B} (f : state → M state B) :
  (∀ a, keeps_maxSize (f a)) → keeps_maxSize (bind get_state f).
Proof. intros Hf s. unfold bind, get_state. apply Hf. Qed.

Lemma keeps_maxSize_modify (f : state → state) :
  (∀ s, LRUBase._maxSize (f s) = LRUBase._maxSize s) →
  keeps_maxSize (modify f).
Proof. intros Hf s. apply Hf. Qed.

Lemma keeps_maxSize_call f key (v : V) : keeps_maxSize (LRUBase.call f key v).
Proof. intros s. unfold LRUBase.call. run_m. by destruct (f key v). Qed.

Lemma keeps_maxSize_delete key :
  keeps_maxSize (LRUBase.delete key : M state bool).
Proof. intros s. by rewrite delete_ok. Qed.

Lemma keeps_maxSize__deleteIfExpired key it now :
  keeps_maxSize (LRUBase._deleteIfExpired key it now).
Proof.
  unfold LRUBase._deleteIfExpired.
  destruct (LRUBase.is_expired it now); [|apply keeps_maxSize_ret].
  apply keeps_maxSize_get_state. intros s0. apply keeps_maxSize_bind.
  - destruct (LRUBase._onEviction s0);
      [apply keeps_maxSize_call|apply keeps_maxSize_ret].
  - intros _. apply keeps_maxSize_delete.
Qed.

Lemma keeps_maxSize_for_array {X Y} (body : X → M state (option Y)) xs :
  (∀ x, keeps_maxSize (body x)) → keeps_maxSize (for_array body xs).
Proof.
  intros Hb. induction xs as [|x xs IH]; [apply keeps_maxSize_ret|].
  simpl. apply keeps_maxSize_bind; [done|]. intros y.
  apply keeps_maxSize_bind; [done|]. intros ys. apply keeps_maxSize_ret.
Qed.

Lemma keeps_maxSize_for_of {Y} (sel : state → list (K * item))
    (body : K * item → M state (option Y)) :
  (∀ p, keeps_maxSize (body p)) → keeps_maxSize (LRUBase.for_of sel body).
Proof.
  intros Hb. unfold LRUBase.for_of. apply keeps_maxSize_get_state. intros s0.
  apply keeps_maxSize_for_array. intros p.
  apply keeps_maxSize_get_state. intros s1.
  destruct (JSMap.get p.1 (sel s1)); [done|apply keeps_maxSize_ret].
Qed.

Lemma keeps_maxSize__entriesAscending now :
  keeps_maxSize (LRUBase._entriesAscending now : M state (list (K * item))).
Proof.
  unfold LRUBase._entriesAscending.
  apply keeps_maxSize_bind.
  - apply keeps_maxSize_for_of. intros [key it].
    apply keeps_maxSize_get_state. intros s0.
    destruct (negb (JSMap.has key (LRUBase._cache s0)));
      [|apply keeps_maxSize_ret].
    apply keeps_maxSize_bind; [apply keeps_maxSize__deleteIfExpired|].
    intros []; apply keeps_maxSize_ret.
  - intros xs. apply keeps_maxSize_bind.
    + apply keeps_maxSize_for_of. intros [key it].
      apply keeps_maxSize_bind; [apply keeps_maxSize__deleteIfExpired|].
      intros []; apply keeps_maxSize_ret.
    + intros ys. apply keeps_maxSize_ret.
Qed.

(** [resize] throws the callback's error either from the collecting
    walk, at the notification of an expired entry, or from the overflow
    notifications, made on the state the walk left. *)
Lemma resize_CallbackError m now s s' :
  LRUBase.resize m now s = Throw CallbackError s' →
  (∃ key it,
     LRUBase.is_expired it now = true ∧
     (JSMap.get key (LRUBase._oldCache s') = Some it
      ∨ JSMap.get key (LRUBase._cache s') = Some it) ∧
     last (LRUBase._notified s') = Some (key, LRUBase.value it) ∧
     LRUBase._maxSize s' = LRUBase._maxSize s) ∨
  (∃ items s1 evs,
     LRUBase._entriesAscending now s = Ret items s1 ∧
     0 < Z.of_nat (length items) - m ∧
     evs ≠ [] ∧
     evs `prefix_of`
       events (JSMap.from_entries
                 (take (Z.to_nat (Z.of_nat (length items) - m)) items)) ∧
     LRUBase._cache s' = LRUBase._cache s1 ∧
     LRUBase._oldCache s' = LRUBase._oldCache s1 ∧
     LRUBase._size s' = LRUBase._size s1 ∧
     LRUBase._maxSize s' = LRUBase._maxSize s ∧
     LRUBase._notified s' = LRUBase._notified s1 ++ evs).
Proof.
  unfold LRUBase.resize. destruct (0 <? m) eqn:Hm; cbn [negb]; [|done].
  unfold bind at 1.
  pose proof (keeps_maxSize__entriesAscending now s) as Hkeep.
  destruct (LRUBase._entriesAscending now s) as [items s1|e1 s1] eqn:Hwalk.
  - simpl in Hkeep.
    destruct (Z.of_nat (length items) - m <? 0); [done|]. run_m.
    destruct (0 <? Z.of_nat (length items) - m) eqn:Hover; [|done].
    apply Z.ltb_lt in Hover.
    destruct (LRUBase._emitEvictions _ _) as [u s2|e2 s2] eqn:Hemit; [done|].
    apply _emitEvictions_Throw in Hemit as [-> (evs & Hne & Hpre & ->)].
    intros [= <-]. right. exists items, s1, evs. by split_and!.
  - intros [= -> ->]. left. simpl in Hkeep.
    apply _entriesAscending_Throw in Hwalk as (key & it & s0 & Hget & Hdel).
    apply _deleteIfExpired_Throw in Hdel as (_ & Hexp & ->).
    exists key, it. split_and!; [done|done| |done].
    simpl. apply last_snoc.
Qed.

(** C5, as amended.  The callback is called before the change it
    reports.  When it throws from a lazy expiry, the state is the one
    before the call with the notification recorded: the expired entry
    has not been removed; this is what [get], [has] and [peek] leave
    behind.  When it throws from a rotation, the new entry is stored and
    the active-count is 0, but the previous generation has not been
    retired and the active generation not replaced.  When it throws from
    a resize, it does so either in the collecting walk, at the
    notification of an expired entry that is still in its generation, or
    at an overflow notification, made after the walk and before [resize]
    changes anything itself: the generations and the active-count are as
    the walk left them (as they were, when no entry is expired), and
    maxSize is unchanged in either case. *)
Theorem notified_before_change :
  (∀ s key it now e s',
     LRUBase._deleteIfExpired key it now s = Throw e s' →
     e = CallbackError ∧
     LRUBase._cache s' = LRUBase._cache s ∧
     LRUBase._oldCache s' = LRUBase._oldCache s ∧
     LRUBase._size s' = LRUBase._size s ∧
     LRUBase._notified s' = LRUBase._notified s ++ [(key, LRUBase.value it)]) ∧
  (∀ s key it e f now,
     entry key s = Some it → LRUBase.expiry it = Some e → e ≠ 0 → e ≤ now →
     LRUBase._onEviction s = Some f → f key (LRUBase.value it) = true →
     ∃ s', LRUBase.get key now s = Throw CallbackError s' ∧
           LRUBase.has key now s = Throw CallbackError s' ∧
           LRUBase.peek key now s = Throw CallbackError s' ∧
           entry key s' = Some it ∧
           LRUBase._size s' = LRUBase._size s) ∧
  (∀ s key it e s',
     LRUBase._set key it s = Throw e s' →
     e = CallbackError ∧
     LRUBase._cache s' = JSMap.set key it (LRUBase._cache s) ∧
     LRUBase._oldCache s' = LRUBase._oldCache s ∧
     LRUBase._size s' = 0 ∧
     ∃ evs, evs ≠ [] ∧ evs `prefix_of` events (LRUBase._oldCache s) ∧
            LRUBase._notified s' = LRUBase._notified s ++ evs) ∧
  (∀ s m now s',
     JSMap.wf (LRUBase._cache s) → JSMap.wf (LRUBase._oldCache s) →
     none_expired now s →
     LRUBase.resize m now s = Throw CallbackError s' →
     LRUBase._cache s' = LRUBase._cache s ∧
     LRUBase._oldCache s' = LRUBase._oldCache s ∧
     LRUBase._size s' = LRUBase._size s ∧
     LRUBase._maxSize s' = LRUBase._maxSize s ∧
     ∃ evs, evs ≠ [] ∧
            evs `prefix_of` events (unshadowed_entries s ++ LRUBase._cache s) ∧
            LRUBase._notified s' = LRUBase._notified s ++ evs) ∧
  (∀ s m now s',
     LRUBase.resize m now s = Throw CallbackError s' →
     (∃ key it,
        LRUBase.is_expired it now = true ∧
        (JSMap.get key (LRUBase._oldCache s') = Some it
         ∨ JSMap.get key (LRUBase._cache s') = Some it) ∧
        last (LRUBase._notified s') = Some (key, LRUBase.value it) ∧
        LRUBase._maxSize s' = LRUBase._maxSize s) ∨
     (∃ items s1 evs,
        LRUBase._entriesAscending now s = Ret items s1 ∧
        0 < Z.of_nat (length items) - m ∧
        evs ≠ [] ∧
        evs `prefix_of`
          events (JSMap.from_entries
                    (take (Z.to_nat (Z.of_nat (length items) - m)) items)) ∧
        LRUBase._cache s' = LRUBase._cache s1 ∧
        LRUBase._oldCache s' = LRUBase._oldCache s1 ∧
        LRUBase._size s' = LRUBase._size s1 ∧
        LRUBase._maxSize s' = LRUBase._maxSize s ∧
        LRUBase._notified s' = LRUBase._notified s1 ++ evs)).
Proof.
  split_and!.
  - intros s key it now e s' Hthrow.
    by apply _deleteIfExpired_Throw in Hthrow as (-> & _ & ->).
  - intros s key it e f now Hit He Hne Hle Hf Hthrow.
    destruct (expired_throws key it e f now s Hit He Hne Hle Hf Hthrow)
      as (Hget & Hhas & Hpeek).
    eexists. split_and!; [exact Hget|exact Hhas|exact Hpeek|exact Hit|done].
  - intros s key it e s' Hthrow.
    apply _set_Throw in Hthrow as [-> (evs & Hne & Hpre & ->)].
    split_and!; try done. by exists evs.
  - intros s m now s' Hc Ho Hq Hthrow.
    destruct (resize_Throw _ _ _ _ _ Hc Ho Hq Hthrow)
      as [[? _]|[_ (evs & Hne & Hpre & ->)]]; [done|].
    split_and!; try done. by exists evs.
  - intros s m now s'. apply resize_CallbackError.
Qed.

(** *** The entry that answers for a key *)

Lemma entry_note k evs s : entry k (note evs s) = entry k s.
Proof. unfold entry. by rewrite cache_note, oldCache_note. Qed.

Lemma entry_del k key s :
  entry k (del key s) = if decide (k = key) then None else entry k s.
Proof.
  unfold entry. simpl. rewrite !JSMapFacts.get_delete.
  by destruct (decide (k = key)).
Qed.

Lemma keeps_refl k s : keeps k s s.
Proof. by left. Qed.

Lemma keeps_trans k s1 s2 s3 : keeps k s1 s2 → keeps k s2 s3 → keeps k s1 s3.
Proof. unfold keeps. intros [H12|H12] [H23|H23]; rewrite ?H23, ?H12; auto. Qed.

Lemma keeps_del_note k key evs s : keeps k s (del key (note evs s)).
Proof.
  unfold keeps. rewrite entry_del, entry_note.
  destruct (decide (k = key)); auto.
Qed.

Lemma keeps_del k key s : keeps k s (del key s).
Proof. unfold keeps. rewrite entry_del. destruct (decide (k = key)); auto. Qed.

Lemma keeps_purge k E s : keeps k s (purge E s).
Proof.
  revert s. induction E as [|p E IH]; intros s; [apply keeps_refl|].
  simpl. eapply keeps_trans; [apply keeps_del_note|apply IH].
Qed.

Lemma entry_rotate k s :
  entry k (rotate s) = JSMap.get k (LRUBase._cache s).
Proof. by unfold entry, rotate. Qed.

Lemma entry_insert k key it s :
  entry k (insert key it s) =
  if decide (k = key) then Some it else entry k s.
Proof.
  unfold entry, insert. simpl. rewrite JSMapFacts.get_set.
  by destruct (decide (k = key)).
Qed.

Lemma entry_store_eq key it s : entry key (store key it s) = Some it.
Proof.
  unfold store. destruct (LRUBase._maxSize s <=? LRUBase._size s + 1).
  - rewrite entry_rotate. simpl. rewrite JSMapFacts.get_set.
    by rewrite decide_True.
  - rewrite entry_insert. by rewrite decide_True.
Qed.

Lemma keeps_store k key it s : k ≠ key → keeps k s (store key it s).
Proof.
  intros Hne. unfold keeps, store.
  destruct (LRUBase._maxSize s <=? LRUBase._size s + 1).
  - rewrite entry_rotate. simpl. rewrite JSMapFacts.get_set.
    rewrite decide_False by done. unfold entry.
    destruct (JSMap.get k (LRUBase._cache s)); auto.
  - rewrite entry_insert. rewrite decide_False by done. auto.
Qed.

Lemma entry_overwrite k key it s :
  entry k (LRUBase.with_cache (JSMap.set key it (LRUBase._cache s)) s) =
  if decide (k = key) then Some it else entry k s.
Proof.
  unfold entry. simpl. rewrite JSMapFacts.get_set.
  by destruct (decide (k = key)).
Qed.

Lemma keeps_promote k key it s :
  JSMap.get key (LRUBase._cache s) = None →
  JSMap.get key (LRUBase._oldCache s) = Some it →
  keeps k s (promote key it s).
Proof.
  intros Hc Ho. unfold promote. destruct (decide (k = key)) as [->|Hne].
  - left. rewrite entry_store_eq. unfold entry. by rewrite Hc, Ho.
  - eapply keeps_trans; [|by apply keeps_store].
    left. unfold entry. simpl. rewrite JSMapFacts.get_delete.
    by rewrite decide_False.
Qed.

Lemma live_entry k it now s :
  JSMap.wf (LRUBase._cache s) → JSMap.wf (LRUBase._oldCache s) →
  (k, it) ∈ live now s → entry k s = Some it.
Proof.
  intros Hc Ho. unfold live, live_old, live_cache, entry.
  rewrite elem_of_app, !list_elem_of_filter. cbn [fst snd].
  intros [[[Hsh _] Hin]|[_ Hin]].
  - rewrite (JSMapFacts.get_has_false _ _ Hsh).
    by apply JSMapFacts.elem_of_get.
  - by rewrite (JSMapFacts.elem_of_get _ _ _ Hc Hin).
Qed.

Lemma keeps_resized k m now s :
  JSMap.wf (LRUBase._cache s) → JSMap.wf (LRUBase._oldCache s) →
  keeps k s (resized m now s).
Proof.
  intros Hc Ho. unfold keeps.
  destruct (entry k (resized m now s)) as [it|] eqn:Hk; [left|by right].
  symmetry. apply (live_entry k it now); [done|done|].
  unfold resized, entry in Hk.
  destruct (Z.of_nat (length (live now s)) - m <? 0); simpl in Hk.
  - destruct (JSMap.get k (live now s)) as [it'|] eqn:Hget; [|done].
    injection Hk as ->. by apply JSMapFacts.get_elem_of.
  - apply JSMapFacts.get_elem_of in Hk.
    eapply subseteq_drop, Hk.
Qed.

Lemma exec_keeps k o now s :
  Inv s → no_throw s → ¬ sets_key k o → keeps k s (exec o now s).
Proof.
  intros HI Hs Hk. pose proof HI as [Hc Ho _ _ _].
  destruct o as [key|key v maxAge|key|key|key| |m| |]; unfold exec.
  - destruct (JSMap.get key (LRUBase._cache s)) as [it|] eqn:Hkc.
    + rewrite (get_active key it) by done.
      destruct (stale it now); cbn [state_of];
        [apply keeps_del_note|apply keeps_refl].
    + destruct (JSMap.get key (LRUBase._oldCache s)) as [it|] eqn:Hko.
      * rewrite (get_previous key it) by done.
        destruct (LRUBase.is_expired it now); cbn [state_of];
          [apply keeps_del_note|by apply keeps_promote].
      * rewrite get_absent by done. apply keeps_refl.
  - rewrite set_ok by done. cbn [state_of]. simpl in Hk.
    destruct (JSMap.has key (LRUBase._cache s)).
    + left. rewrite entry_overwrite. by rewrite decide_False by congruence.
    + apply keeps_store. congruence.
  - destruct (entry key s) as [it|] eqn:Hks.
    + rewrite (has_present key it) by done.
      destruct (LRUBase.is_expired it now); cbn [state_of];
        [apply keeps_del_note|apply keeps_refl].
    + rewrite has_absent by done. apply keeps_refl.
  - destruct (entry key s) as [it|] eqn:Hks.
    + rewrite (peek_present key it) by done.
      destruct (stale it now); cbn [state_of];
        [apply keeps_del_note|apply keeps_refl].
    + rewrite peek_absent by done. apply keeps_refl.
  - rewrite delete_ok. apply keeps_del.
  - rewrite clear_ok. by right.
  - destruct (decide (0 < m)) as [Hm|Hm].
    + rewrite resize_ok by done. by apply keeps_resized.
    + rewrite resize_TypeError by lia. apply keeps_refl.
  - unfold LRUBase.entriesAscending, bind.
    rewrite _entriesAscending_ok by done. cbn [ret state_of].
    eapply keeps_trans; apply keeps_purge.
  - rewrite entriesDescending_ok by done. cbn [state_of].
    eapply keeps_trans; apply keeps_purge.
Qed.

Lemma run_keeps k ops s :
  Inv s → no_throw s → Forall (λ x, ¬ sets_key k x.2) ops →
  keeps k s (run ops s).
Proof.
  revert s. induction ops as [|[now o] ops IH]; intros s HI Hs Hops.
  - apply keeps_refl.
  - apply Forall_cons in Hops as [Ho Hops]. simpl in *.
    destruct (exec_Inv o now s HI Hs) as [HI' He].
    eapply keeps_trans; [by apply exec_keeps|].
    apply IH; [done| |done]. by apply (no_throw_eq s).
Qed.

Lemma entry_after_set key v maxAge now s :
  no_throw s →
  entry key (exec (OSet key v maxAge) now s) = Some (new_item v maxAge now s).
Proof.
  intros Hs. unfold exec. rewrite set_ok by done. cbn [state_of].
  destruct (JSMap.has key (LRUBase._cache s)).
  - rewrite entry_overwrite. by rewrite decide_True.
  - apply entry_store_eq.
Qed.

Lemma stale_expired it now : stale it now = true → LRUBase.is_expired it now = true.
Proof.
  unfold stale, LRUBase.is_expired. destruct (LRUBase.expiry it); [|done].
  by intros [_ ?]%andb_true_iff.
Qed.

Lemma get_live key it now s :
  no_throw s → entry key s = Some it → LRUBase.is_expired it now = false →
  ∃ s', LRUBase.get key now s = Ret (Some (LRUBase.value it)) s'.
Proof.
  intros Hs Hit Hexp. unfold entry in Hit.
  destruct (JSMap.get key (LRUBase._cache s)) as [it'|] eqn:Hc.
  - injection Hit as ->. rewrite (get_active key it) by done.
    destruct (stale it now) eqn:Hst; [|by eexists].
    apply stale_expired in Hst. congruence.
  - rewrite (get_previous key it) by done. rewrite Hexp. by eexists.
Qed.

(** C2.  Take any reachable state, perform [set(key, v)], then any
    operations among which none is a [set] of [key].  If [key] is still
    held afterwards (it was not removed by delete, clear, rotation,
    resize or a lazy expiry) and the expiry given by that [set] has not
    been reached, then [get(key)] returns exactly [v]. *)
Theorem read_your_write s0 key v maxAge t0 ops t :
  reachable s0 →
  let s1 := exec (OSet key v maxAge) t0 s0 in
  let s2 := run ops s1 in
  Forall (λ x, ¬ sets_key key x.2) ops →
  is_Some (entry key s2) →
  LRUBase.is_expired (new_item v maxAge t0 s0) t = false →
  ∃ s3, LRUBase.get key t s2 = Ret (Some v) s3.
Proof.
  intros [HI0 Hs0]%reachable_Inv s1 s2 Hops [it Hit] Hexp.
  destruct (exec_Inv (OSet key v maxAge) t0 s0 HI0 Hs0) as [HI1 He1].
  assert (Hs1 : no_throw s1) by (by apply (no_throw_eq s0)).
  destruct (run_Inv ops s1 HI1 Hs1) as [HI2 Hs2]. fold s2 in HI2, Hs2.
  assert (Hit' : it = new_item v maxAge t0 s0).
  { destruct (run_keeps key ops s1 HI1 Hs1 Hops) as [Hk|Hk]; fold s2 in Hk.
    - rewrite Hit in Hk. unfold s1 in Hk. rewrite entry_after_set in Hk by done.
      by injection Hk.
    - congruence. }
  subst it. by apply (get_live key _ t s2 Hs2 Hit).
Qed.

(** C10.  An entry stored under a finite maxAge expires at the time
    of the [set] plus that maxAge (a number other than 0 when the clock
    is not negative and the maxAge is positive).  For an entry with a
    finite expiry [e] other than 0, once the clock [t] has reached [e],
    [e ≤ t], [get], [has] and [peek] report the key absent, delete the
    entry from both generations and notify the callback; before that,
    [t < e], they return the stored value.  At [t = e] the entry is
    expired.  (An expiry of 0 is falsy: [get] and [peek] would take the
    entry never to expire.) *)
Theorem expiry_inclusive :
  (∀ s key v maxAge a now,
     no_throw s →
     default (LRUBase._maxAge s) maxAge = LRUBase.Finite a →
     ∃ s', LRUBase.set key v maxAge now s = Ret tt s' ∧
           entry key s' =
             Some {| LRUBase.value := v; LRUBase.expiry := Some (now + a) |} ∧
           (0 ≤ now → 0 < a → now + a ≠ 0)) ∧
  (∀ s key it e t,
     no_throw s → entry key s = Some it →
     LRUBase.expiry it = Some e → e ≠ 0 →
     (e ≤ t →
        let s' := del key (note [(key, LRUBase.value it)] s) in
        LRUBase.get key t s = Ret None s' ∧
        LRUBase.has key t s = Ret false s' ∧
        LRUBase.peek key t s = Ret None s' ∧
        JSMap.has key (LRUBase._cache s') = false ∧
        JSMap.has key (LRUBase._oldCache s') = false ∧
        (is_Some (LRUBase._onEviction s) →
           LRUBase._notified s' =
             LRUBase._notified s ++ [(key, LRUBase.value it)])) ∧
     (t < e →
        (∃ s', LRUBase.get key t s = Ret (Some (LRUBase.value it)) s') ∧
        LRUBase.has key t s = Ret true s ∧
        LRUBase.peek key t s = Ret (Some (LRUBase.value it)) s)).
Proof.
  split.
  - intros s key v maxAge a now Hs Ha.
    pose proof (entry_after_set key v maxAge now s Hs) as Hentry.
    unfold exec in Hentry. rewrite set_ok in Hentry |- * by done.
    eexists. split_and!; [done| |lia]. cbn [state_of] in Hentry.
    rewrite Hentry. unfold new_item. by rewrite Ha.
  - intros s key it e t Hs Hit He Hne.
    assert (Hstale : stale it t = (e <=? t)).
    { unfold stale. rewrite He.
      by replace (e =? 0) with false by (symmetry; by apply Z.eqb_neq). }
    assert (Hexp : LRUBase.is_expired it t = (e <=? t)).
    { unfold LRUBase.is_expired. by rewrite He. }
    split.
    + intros Hle%Z.leb_le. rewrite Hle in Hstale, Hexp. split_and!.
      * pose proof Hit as Hit'. unfold entry in Hit'.
        destruct (JSMap.get key (LRUBase._cache s)) as [it'|] eqn:Hc.
        -- injection Hit' as ->. rewrite (get_active key it) by done.
           by rewrite Hstale.
        -- rewrite (get_previous key it) by done. by rewrite Hexp.
      * rewrite (has_present key it) by done. by rewrite Hexp.
      * rewrite (peek_present key it) by done. by rewrite Hstale.
      * simpl. rewrite JSMapFacts.has_delete. by rewrite decide_True.
      * simpl. rewrite JSMapFacts.has_delete. by rewrite decide_True.
      * intros [f Hf]. simpl. unfold note. by rewrite Hf.
    + intros Hlt%Z.leb_gt. rewrite Hlt in Hstale, Hexp. split_and!.
      * by apply (get_live key it).
      * rewrite (has_present key it) by done. by rewrite Hexp.
      * rewrite (peek_present key it) by done. by rewrite Hstale.
Qed.

End LRUFacts.
End LRUFacts.

(** ** Facts about the facade *)

Module QuickFacts.
Section QuickFacts.
Context {K V : Type} `{EqDecision K}.
Local Abbreviation facade := (QuickLRU.t K V).
Implicit Types (q : facade) (k key : K) (v : V) (m : list (K * V)).
Implicit Types (kvs : list (K * V)) (ks : list K).
Import QuickSpec.

Lemma on_base_state {A} (c : M (LRUBase.t K V) A) q :
  state_of (QuickLRU.on_base c q) =
  QuickLRU.with_base (state_of (c (QuickLRU._base q))) q.
Proof.
  unfold QuickLRU.on_base. by destruct (c (QuickLRU._base q)).
Qed.

(** What one facade operation does to the engine and to the mirror. *)
Lemma exec_base o now q :
  QuickLRU._base (exec o now q) =
  LRUSpec.exec (on_engine o) now (QuickLRU._base q).
Proof.
  destruct o as [|key|key|key|key v|key|n| |];
    unfold exec, QuickLRU.delete, QuickLRU.get, QuickLRU.has, QuickLRU.peek,
      QuickLRU.resize, QuickLRU.entriesAscending, QuickLRU.entriesDescending;
    try (by rewrite on_base_state).
  - unfold QuickLRU.clear, QuickLRU.on_base, bind. by simpl.
  - unfold QuickLRU.set, QuickLRU.on_base, bind. simpl.
    by destruct (LRUBase.set key v None now (QuickLRU._base q)).
Qed.

Lemma exec_map o now q :
  LRUSpec.no_throw (QuickLRU._base q) →
  QuickLRU._map (exec o now q) =
  match o with
  | OClear => []
  | OSet key v => JSMap.set key v (QuickLRU._map q)
  | _ => QuickLRU._map q
  end.
Proof.
  intros Hq. destruct o as [|key|key|key|key v|key|n| |];
    unfold exec, QuickLRU.delete, QuickLRU.get, QuickLRU.has, QuickLRU.peek,
      QuickLRU.resize, QuickLRU.entriesAscending, QuickLRU.entriesDescending;
    try (by rewrite on_base_state).
  - done.
  - unfold QuickLRU.set, QuickLRU.on_base, bind.
    by rewrite LRUFacts.set_ok.
Qed.

Lemma run_map ops q :
  LRUSpec.Inv (QuickLRU._base q) → LRUSpec.no_throw (QuickLRU._base q) →
  Forall (λ x, x.2 ≠ OClear) ops →
  QuickLRU._map (run ops q) =
    fold_left (λ m p, JSMap.set p.1 p.2 m) (sets ops) (QuickLRU._map q) ∧
  LRUSpec.Inv (QuickLRU._base (run ops q)) ∧
  LRUSpec.no_throw (QuickLRU._base (run ops q)).
Proof.
  revert q. induction ops as [|[now o] ops IH]; intros q HI Hq Hops; [done|].
  apply Forall_cons in Hops as [Ho Hops]. simpl in Ho.
  destruct (LRUFacts.exec_Inv (on_engine o) now _ HI Hq) as [HI' He].
  rewrite <- exec_base in HI', He.
  assert (Hq' : LRUSpec.no_throw (QuickLRU._base (exec o now q))).
  { by apply (LRUFacts.no_throw_eq (QuickLRU._base q)). }
  destruct (IH (exec o now q) HI' Hq' Hops) as (Hmap & HI'' & Hq'').
  split_and!; [|done|done].
  change (run ((now, o) :: ops) q) with (run ops (exec o now q)).
  rewrite Hmap, exec_map by done. by destruct o.
Qed.

Lemma filter_not_elem_of_nil ks : filter (λ x, x ∉ @nil K) ks = ks.
Proof.
  induction ks as [|k ks IH]; [done|].
  rewrite filter_cons_True by apply not_elem_of_nil. by rewrite IH.
Qed.

Lemma keys_fold_set kvs m :
  JSMap.keys (fold_left (λ m p, JSMap.set p.1 p.2 m) kvs m) =
  JSMap.keys m ++
  filter (λ x, x ∉ JSMap.keys m) (first_occurrences (JSMap.keys kvs)).
Proof.
  revert m. induction kvs as [|[k v] kvs IH]; intros m.
  - simpl. by rewrite app_nil_r.
  - change (JSMap.keys ((k, v) :: kvs)) with (k :: JSMap.keys kvs).
    cbn [fold_left first_occurrences fst snd]. rewrite IH, filter_cons.
    destruct (JSMap.has k m) eqn:Hk.
    + rewrite JSMapFacts.keys_set_present by done.
      apply JSMapFacts.has_true in Hk. rewrite decide_False by tauto.
      f_equal. rewrite list_filter_filter. apply list_filter_iff.
      intros x. split; [|tauto]. intros Hx. split; [done|]. by intros ->.
    + rewrite JSMapFacts.set_absent by done.
      apply JSMapFacts.has_false in Hk. rewrite decide_True by done.
      assert (Hkeys : JSMap.keys (m ++ [(k, v)]) = JSMap.keys m ++ [k]).
      { unfold JSMap.keys. by rewrite fmap_app. }
      rewrite Hkeys, <- app_assoc. f_equal. simpl. f_equal.
      rewrite list_filter_filter. apply list_filter_iff.
      intros x. rewrite not_elem_of_app, list_elem_of_singleton. tauto.
Qed.

Lemma get_fold_set k kvs m :
  JSMap.get k (fold_left (λ m p, JSMap.set p.1 p.2 m) kvs m) =
  match latest k kvs with Some v => Some v | None => JSMap.get k m end.
Proof.
  unfold latest. revert m. induction kvs as [|[k' v'] kvs IH]; intros m.
  - done.
  - cbn [fold_left fst snd]. rewrite IH, reverse_cons.
    assert (Happ : ∀ l1 l2 : list (K * V),
      JSMap.get k (l1 ++ l2) =
      match JSMap.get k l1 with Some v => Some v | None => JSMap.get k l2 end).
    { intros l1 l2. induction l1 as [|[k1 v1] l1 IH1]; [done|].
      simpl. by destruct (decide (k = k1)). }
    rewrite Happ. destruct (JSMap.get k (reverse kvs)); [done|].
    rewrite JSMapFacts.get_set. simpl. by destruct (decide (k = k')).
Qed.

Lemma NoDup_first_occurrences ks : NoDup (first_occurrences ks).
Proof.
  induction ks as [|k ks IH]; simpl; [apply NoDup_nil_2|].
  apply NoDup_cons. split; [|by apply NoDup_filter].
  by intros [? _]%list_elem_of_filter.
Qed.

Lemma elem_of_first_occurrences k ks : k ∈ first_occurrences ks ↔ k ∈ ks.
Proof.
  induction ks as [|k' ks IH]; simpl; [done|].
  rewrite !elem_of_cons, list_elem_of_filter, IH.
  destruct (decide (k = k')); tauto.
Qed.

Lemma filter_ne_absent k ks : k ∉ ks → filter (λ x, x ≠ k) ks = ks.
Proof.
  induction ks as [|k' ks IH]; [done|]. intros [Hne Hk]%not_elem_of_cons.
  rewrite filter_cons_True by (by intros ->). by rewrite IH.
Qed.

Lemma first_occurrences_NoDup ks : NoDup ks → first_occurrences ks = ks.
Proof.
  induction ks as [|k ks IH]; [done|]. intros [Hk Hnd]%NoDup_cons.
  simpl. rewrite IH by done. f_equal. by apply filter_ne_absent.
Qed.

(** C9, as amended.  As long as [clear] is not called and the eviction
    callback never throws, the facade's mirror keeps every key ever set:
    after any sequence of operations, [keys()]
    yields the distinct keys of the [set] calls in the order of their
    first [set], and [entries()] pairs each with the value of its latest
    [set], whatever the engine has evicted since.  Hence the number of
    keys yielded is the number of distinct keys set, which no maxSize
    bounds, while the engine's size stays within maxSize. *)
Theorem mirror_keeps_every_key options q0 ops :
  QuickLRU.constructor options = inr q0 →
  LRUSpec.no_throw (QuickLRU._base q0) →
  Forall (λ x, x.2 ≠ OClear) ops →
  let q := run ops q0 in
  QuickLRU.keys q = first_occurrences (JSMap.keys (sets ops)) ∧
  (∀ k, JSMap.get k (QuickLRU.entries q) = latest k (sets ops)) ∧
  QuickLRU.values q = (QuickLRU.entries q).*2 ∧
  (NoDup (JSMap.keys (sets ops)) →
     length (QuickLRU.keys q) = length (sets ops)) ∧
  QuickLRU.size q ≤ QuickLRU.maxSize q.
Proof.
  intros Hnew Hq0 Hops q. unfold QuickLRU.constructor in Hnew.
  destruct (LRUBase.constructor options) as [e|b] eqn:Hb; [done|].
  injection Hnew as <-. simpl in Hq0.
  pose proof (LRUFacts.Inv_constructor _ _ Hb) as HI0.
  destruct (run_map ops {| QuickLRU._base := b; QuickLRU._map := [] |}
              HI0 Hq0 Hops) as (Hmap & HI & Hq).
  fold q in Hmap, HI, Hq. simpl in Hmap.
  assert (Hkeys : QuickLRU.keys q = first_occurrences (JSMap.keys (sets ops))).
  { unfold QuickLRU.keys. rewrite Hmap.
    pose proof (keys_fold_set (sets ops) []) as Hk. unfold JSMap.keys in Hk at 1.
    rewrite Hk. simpl. apply filter_not_elem_of_nil. }
  split_and!.
  - done.
  - intros k. unfold QuickLRU.entries. rewrite Hmap, get_fold_set.
    by destruct (latest k (sets ops)).
  - done.
  - intros Hnd. rewrite Hkeys, first_occurrences_NoDup by done.
    unfold JSMap.keys. by rewrite length_fmap.
  - unfold QuickLRU.size, QuickLRU.maxSize, LRUBase.maxSize.
    rewrite LRUFacts.size_eq by done. lia.
Qed.

End QuickFacts.
End QuickFacts.

(** ** The claims on concrete caches *)

Module ScenarioFacts.
Import Scenario LRUSpec.

Lemma reachable_run m a f ops :
  0 < m → a ≠ LRUBase.Finite 0 →
  match f with Some g => ∀ k v, g k v = false | None => True end →
  reachable (run ops (fresh m a f)).
Proof.
  intros Hm Ha Hf. exists (options m (Some a) f), (fresh m a f), ops.
  split_and!; [|done|done].
  unfold LRUBase.constructor, options. simpl.
  replace (0 <? m) with true by (symmetry; apply Z.ltb_lt; lia).
  simpl. destruct a as [[]|]; done.
Defined.

Lemma size_le_maxSize_witness :
  let s := run [(0, OSet "a" 1 None); (1, OSet "b" 2 None);
                (2, OSet "c" 3 None); (3, OResize 1)]
               (fresh 2 LRUBase.Infinite (Some quiet)) in
  LRUBase.size s ≤ LRUBase.maxSize s.
Proof.
  intros s. apply LRUFacts.size_le_maxSize.
  apply reachable_run; [lia|done|done].
Defined.

(** C1, as stated, fails: once the callback has thrown out of a
    rotation, the active generation keeps its entries while its counter
    is back at 0, so it can grow past maxSize; a later rotation, in a
    [set] that returns normally, makes it the previous generation, and
    the reported size is then its number of entries. *)
Lemma size_bounded_always_counterexample :
  let r := run [(0, OSet "a" 1 None); (0, OSet "b" 2 None);
                (0, OSet "c" 3 None)]
               (fresh 2 LRUBase.Infinite (Some (throwing_on "a"))) in
  let r1 := state_of (LRUBase.set "d" 4 None 0 r) in
  let s := run [(0, ODelete "a"); (0, OSet "e" 5 None)] r1 in
  let s' := state_of (LRUBase.set "f" 6 None 0 s) in
  (LRUBase.set "d" 4 None 0 r = Throw CallbackError r1 ∧
   LRUBase._size r1 = 0 ∧
   LRUBase._cache r1 = [("c", entry_of 3 None); ("d", entry_of 4 None)]) ∧
  (LRUBase.set "f" 6 None 0 s = Ret tt s' ∧
   LRUBase.size s' = 4 ∧ LRUBase.maxSize s' = 2) ∧
  ¬ @size_bounded_always string Z _.
Proof.
  intros r r1 s s'. split_and!; try reflexivity.
  intros Hclaim.
  specialize (Hclaim (options 2 None (Some (throwing_on "a")))
                (fresh 2 LRUBase.Infinite (Some (throwing_on "a")))
                [(0, OSet "a" 1 None); (0, OSet "b" 2 None);
                 (0, OSet "c" 3 None); (0, OSet "d" 4 None);
                 (0, ODelete "a"); (0, OSet "e" 5 None);
                 (0, OSet "f" 6 None)] eq_refl).
  vm_compute in Hclaim. by apply Hclaim.
Qed.

Lemma size_counts_present_witness :
  let s := run [(0, OSet "a" 1 (Some (LRUBase.Finite 10)))]
               (fresh 5 LRUBase.Infinite (Some quiet)) in
  LRUBase.size s = 1 ∧ length (present_keys s) = 1%nat.
Proof.
  intros s.
  destruct (LRUFacts.size_counts_present s) as (H1 & H2 & _).
  { apply reachable_run; [lia|done|done]. }
  split; [rewrite H1|]; reflexivity.
Defined.

(** C6, as stated, fails: an entry whose expiry has passed is still
    counted until an operation visits it. *)
Lemma size_counts_live_counterexample :
  let s := run [(0, OSet "a" 1 (Some (LRUBase.Finite 10)))]
               (fresh 5 LRUBase.Infinite (Some quiet)) in
  LRUBase.size s = 1 ∧ length (live 100 s) = 0%nat ∧
  ¬ @size_counts_live string Z _.
Proof.
  intros s. split_and!; [reflexivity|reflexivity|].
  intros Hclaim. specialize (Hclaim s 100).
  assert (Hs : reachable s) by (apply reachable_run; [lia|done|done]).
  specialize (Hclaim Hs). vm_compute in Hclaim. discriminate.
Qed.

Lemma resize_without_overflow_witness :
  let s := run [(0, OSet "a" 1 None); (0, OSet "b" 2 None)]
               (fresh 3 LRUBase.Infinite (Some quiet)) in
  ∃ s', LRUBase.resize 2 0 s = Ret tt s' ∧ LRUBase._maxSize s' = 2.
Proof.
  intros s.
  destruct (LRUFacts.resize_without_overflow s 2 0) as (s' & H1 & H2 & _).
  - apply reachable_run; [lia|done|done].
  - lia.
  - vm_compute. discriminate.
  - by exists s'.
Defined.

(** C4, as stated, fails at the boundary: with two live entries,
    [resize(2)] makes them the previous generation and leaves the active
    one empty.  It also fails on the notifications: the walk notifies
    the expired entries it removes. *)
Lemma resize_fills_active_counterexample :
  let s := run [(0, OSet "a" 1 None); (0, OSet "b" 2 None)]
               (fresh 3 LRUBase.Infinite (Some quiet)) in
  let s' := state_of (LRUBase.resize 2 0 s) in
  let r := run [(0, OSet "a" 1 (Some (LRUBase.Finite 10)))]
               (fresh 3 LRUBase.Infinite (Some quiet)) in
  let r' := state_of (LRUBase.resize 5 100 r) in
  (live 0 s = [("a", entry_of 1 None); ("b", entry_of 2 None)] ∧
   LRUBase._cache s' = [] ∧
   LRUBase._oldCache s' = [("a", entry_of 1 None); ("b", entry_of 2 None)] ∧
   LRUBase._size s' = 0) ∧
  (live 100 r = [] ∧ LRUBase._notified r = [] ∧
   LRUBase._notified r' = [("a", 1)]) ∧
  ¬ @resize_fills_active string Z _.
Proof.
  intros s s' r r'. split_and!; try reflexivity.
  intros Hclaim.
  assert (Hs : reachable s) by (apply reachable_run; [lia|done|done]).
  destruct (Hclaim s 2 0 Hs) as [Hcache _]; [lia|vm_compute; discriminate|].
  vm_compute in Hcache. discriminate.
Qed.

Lemma notified_before_change_witness :
  let s := run [(0, OSet "a" 1 (Some (LRUBase.Finite 10)));
                (0, OSet "b" 2 None)]
               (fresh 3 LRUBase.Infinite (Some throwing)) in
  let it := entry_of 1 (Some 10) in
  let r := run [(0, OSet "x" 0 (Some (LRUBase.Finite 10)));
                (0, OSet "a" 1 None); (0, OSet "b" 2 None)]
               (fresh 5 LRUBase.Infinite (Some (throwing_on "a"))) in
  (∃ s', LRUBase.get "a" 10 s = Throw CallbackError s' ∧
         entry "a" s' = Some it) ∧
  (∃ s', LRUBase._deleteIfExpired "a" it 10 s = Throw CallbackError s' ∧
         LRUBase._cache s' = LRUBase._cache s) ∧
  (∃ s', LRUBase._set "c" (entry_of 3 None) (LRUBase.with_oldCache
           [("z", entry_of 0 None)] s) = Throw CallbackError s' ∧
         LRUBase._oldCache s' = [("z", entry_of 0 None)]) ∧
  (∃ s', LRUBase.resize 1 0 s = Throw CallbackError s' ∧
         LRUBase._maxSize s' = 3) ∧
  (∃ s', LRUBase.resize 1 100 r = Throw CallbackError s' ∧
         LRUBase._maxSize s' = 5 ∧
         LRUBase._cache s' = [("a", entry_of 1 None); ("b", entry_of 2 None)] ∧
         LRUBase._size s' = 2 ∧
         LRUBase._notified s' = [("x", 0); ("a", 1)]).
Proof.
  intros s it r.
  destruct (@LRUFacts.notified_before_change string Z _)
    as (Ha & Hpub & Hb & Hc & Hd).
  split_and!.
  - destruct (Hpub s "a" it 10 throwing 10) as (s' & Hget & _ & _ & Hit & _);
      [reflexivity|reflexivity|lia|lia|reflexivity|reflexivity|].
    by exists s'.
  - set (s' := state_of (LRUBase._deleteIfExpired "a" it 10 s)).
    assert (E : LRUBase._deleteIfExpired "a" it 10 s = Throw CallbackError s')
      by (vm_compute; reflexivity).
    exists s'. split; [exact E|]. by destruct (Ha _ _ _ _ _ _ E) as (_ & ? & _).
  - set (s0 := LRUBase.with_oldCache [("z", entry_of 0 None)] s).
    set (s' := state_of (LRUBase._set "c" (entry_of 3 None) s0)).
    assert (E : LRUBase._set "c" (entry_of 3 None) s0 = Throw CallbackError s')
      by (vm_compute; reflexivity).
    exists s'. split; [exact E|].
    by destruct (Hb _ _ _ _ _ E) as (_ & _ & ? & _).
  - set (s' := state_of (LRUBase.resize 1 0 s)).
    assert (E : LRUBase.resize 1 0 s = Throw CallbackError s')
      by (vm_compute; reflexivity).
    exists s'. split; [exact E|].
    destruct (Hc s 1 0 s') as (_ & _ & _ & ? & _); try done.
    + apply (bool_decide_unpack _). by vm_compute.
    + apply (bool_decide_unpack _). by vm_compute.
    + by apply LRUFacts.none_expiredb_true.
  - set (s' := state_of (LRUBase.resize 1 100 r)).
    assert (E : LRUBase.resize 1 100 r = Throw CallbackError s')
      by (vm_compute; reflexivity).
    exists s'. split; [exact E|].
    split; [|split_and!; vm_compute; reflexivity].
    destruct (Hd r 1 100 s' E)
      as [(key & it' & _ & _ & _ & Hm)
         |(items & s1 & evs & _ & _ & _ & _ & _ & _ & _ & Hm & _)];
      rewrite Hm; reflexivity.
Defined.

(** C5, as stated, fails: when the callback throws during [get] of an
    expired entry, the entry is still in the active generation; when it
    throws during a rotation, the previous generation is still in place
    and the active one still full; when it throws during [resize], the
    generations and maxSize are unchanged. *)
Lemma notified_after_change_counterexample :
  let s := run [(0, OSet "a" 1 (Some (LRUBase.Finite 10)));
                (0, OSet "b" 2 None)]
               (fresh 3 LRUBase.Infinite (Some throwing)) in
  let s1 := state_of (LRUBase.get "a" 10 s) in
  let r := run [(0, OSet "a" 1 None); (0, OSet "b" 2 None);
                (0, OSet "c" 3 None)]
               (fresh 2 LRUBase.Infinite (Some throwing)) in
  let r1 := state_of (LRUBase.set "d" 4 None 0 r) in
  let s2 := state_of (LRUBase.resize 1 0 s) in
  (LRUBase.get "a" 10 s = Throw CallbackError s1 ∧
   entry "a" s1 = Some (entry_of 1 (Some 10)) ∧
   LRUBase._notified s1 = [("a", 1)]) ∧
  (LRUBase.set "d" 4 None 0 r = Throw CallbackError r1 ∧
   LRUBase._oldCache r = [("a", entry_of 1 None); ("b", entry_of 2 None)] ∧
   LRUBase._oldCache r1 = [("a", entry_of 1 None); ("b", entry_of 2 None)] ∧
   LRUBase._cache r1 = [("c", entry_of 3 None); ("d", entry_of 4 None)] ∧
   LRUBase._size r1 = 0 ∧
   LRUBase._notified r1 = [("a", 1)]) ∧
  (LRUBase.resize 1 0 s = Throw CallbackError s2 ∧
   LRUBase._cache s2 = LRUBase._cache s ∧
   LRUBase._maxSize s2 = 3 ∧
   LRUBase._notified s2 = [("a", 1)]) ∧
  ¬ @notified_after_change string Z _.
Proof.
  intros s s1 r r1 s2. split_and!; try reflexivity.
  intros (Ha & _ & _).
  specialize (Ha s "a" (entry_of 1 (Some 10)) 10
                (state_of (LRUBase._deleteIfExpired "a"
                             (entry_of 1 (Some 10)) 10 s)) eq_refl).
  vm_compute in Ha. discriminate.
Qed.

Lemma descending_reverses_ascending_witness :
  let s := run [(0, OSet "a" 1 None); (0, OSet "b" 2 None);
                (0, OSet "c" 3 None); (0, OSet "b" 20 None);
                (0, OSet "d" 4 None)]
               (fresh 3 LRUBase.Infinite (Some quiet)) in
  ∃ xs,
    LRUBase.entriesAscending 0 s = Ret xs s ∧
    LRUBase.entriesDescending 0 s = Ret (reverse xs) s ∧
    xs = [("a", 1); ("c", 3); ("b", 20); ("d", 4)].
Proof.
  intros s.
  destruct (LRUFacts.descending_reverses_ascending s 0)
    as (xs & H1 & H2 & H3 & _).
  - apply (bool_decide_unpack _). by vm_compute.
  - apply (bool_decide_unpack _). by vm_compute.
  - by apply LRUFacts.none_expiredb_true.
  - exists xs. split_and!; [done|done|]. rewrite H3. reflexivity.
Defined.

Lemma read_your_write_witness :
  let s0 := run [] (fresh 2 LRUBase.Infinite (Some quiet)) in
  let s1 := exec (OSet "a" 1 (Some (LRUBase.Finite 100))) 0 s0 in
  let s2 := run [(1, OSet "b" 2 None); (2, OGet "a"); (3, OSet "c" 3 None);
                 (4, ODelete "b")] s1 in
  ∃ s3, LRUBase.get "a" 50 s2 = Ret (Some 1) s3.
Proof.
  intros s0 s1 s2.
  apply (LRUFacts.read_your_write s0 "a" 1 (Some (LRUBase.Finite 100)) 0
           [(1, OSet "b" 2 None); (2, OGet "a"); (3, OSet "c" 3 None);
            (4, ODelete "b")] 50).
  - apply reachable_run; [lia|done|done].
  - repeat (apply Forall_cons; split); try apply Forall_nil; simpl;
      try tauto; discriminate.
  - vm_compute. by eexists.
  - reflexivity.
Defined.

Lemma expiry_inclusive_witness :
  let s := run [(0, OSet "a" 1 (Some (LRUBase.Finite 10)))]
               (fresh 2 LRUBase.Infinite (Some quiet)) in
  (∃ s', LRUBase.set "b" 2 (Some (LRUBase.Finite 5)) 7 s = Ret tt s' ∧
         entry "b" s' = Some (entry_of 2 (Some 12))) ∧
  LRUBase.get "a" 10 s =
    Ret None (del "a" (note [("a", 1)] s)) ∧
  LRUBase.has "a" 9 s = Ret true s.
Proof.
  intros s. destruct (@LRUFacts.expiry_inclusive string Z _) as [Hset Hexp].
  split_and!.
  - destruct (Hset s "b" 2 (Some (LRUBase.Finite 5)) 5 7)
      as (s' & Hs' & Hentry & _); [done|reflexivity|].
    by exists s'.
  - destruct (Hexp s "a" (entry_of 1 (Some 10)) 10 10) as [Hdead _];
      [done|reflexivity|reflexivity|lia|].
    destruct Hdead as (Hget & _); [lia|]. exact Hget.
  - destruct (Hexp s "a" (entry_of 1 (Some 10)) 10 9) as [_ Halive];
      [done|reflexivity|reflexivity|lia|].
    destruct Halive as (_ & Hhas & _); [lia|]. exact Hhas.
Defined.

Lemma mirror_keeps_every_key_witness :
  let q := QuickSpec.run
             [(0, QuickSpec.OSet "a" 1); (1, QuickSpec.OSet "b" 2);
              (2, QuickSpec.OSet "c" 3); (3, QuickSpec.ODelete "c");
              (4, QuickSpec.OSet "a" 10)]
             (fresh_facade 1 LRUBase.Infinite (Some quiet)) in
  QuickLRU.keys q = ["a"; "b"; "c"] ∧
  QuickLRU.entries q = [("a", 10); ("b", 2); ("c", 3)] ∧
  QuickLRU.maxSize q = 1 ∧
  QuickLRU.get "b" 5 q = Ret None q.
Proof.
  intros q.
  destruct (QuickFacts.mirror_keeps_every_key
              (options 1 None (Some quiet))
              (fresh_facade 1 LRUBase.Infinite (Some quiet))
              [(0, QuickSpec.OSet "a" 1); (1, QuickSpec.OSet "b" 2);
               (2, QuickSpec.OSet "c" 3); (3, QuickSpec.ODelete "c");
               (4, QuickSpec.OSet "a" 10)]) as (Hkeys & _).
  - reflexivity.
  - done.
  - repeat (apply Forall_cons; split); try apply Forall_nil; simpl; done.
  - unfold q. split_and!; [rewrite Hkeys| | |]; vm_compute; reflexivity.
Defined.

(** C9, as stated, fails: the facade's [set] stores in the engine
    before it stores in the mirror, so when the callback throws out of
    the rotation the key is in the engine and not in the mirror. *)
Lemma mirror_keeps_always_counterexample :
  let q := QuickSpec.run
             [(0, QuickSpec.OSet "a" 1); (0, QuickSpec.OSet "b" 2);
              (0, QuickSpec.OSet "c" 3)]
             (fresh_facade 2 LRUBase.Infinite (Some (throwing_on "a"))) in
  let q' := state_of (QuickLRU.set "d" 4 0 q) in
  QuickLRU.set "d" 4 0 q = Throw CallbackError q' ∧
  QuickLRU.keys q' = ["a"; "b"; "c"] ∧
  QuickLRU.get "d" 0 q' = Ret (Some 4) q' ∧
  ¬ @QuickSpec.mirror_keeps_always string Z _.
Proof.
  intros q q'. split_and!; try reflexivity.
  intros Hclaim.
  specialize (Hclaim (options 2 None (Some (throwing_on "a")))
                (fresh_facade 2 LRUBase.Infinite (Some (throwing_on "a")))
                [(0, QuickSpec.OSet "a" 1); (0, QuickSpec.OSet "b" 2);
                 (0, QuickSpec.OSet "c" 3); (0, QuickSpec.OSet "d" 4)]
                eq_refl).
  assert (Hops : Forall (λ x : Z * QuickSpec.op, x.2 ≠ QuickSpec.OClear)
                   [(0, QuickSpec.OSet "a" 1); (0, QuickSpec.OSet "b" 2);
                    (0, QuickSpec.OSet "c" 3); (0, QuickSpec.OSet "d" 4)]).
  { repeat (apply Forall_cons; split); try apply Forall_nil; simpl; done. }
  specialize (Hclaim Hops). vm_compute in Hclaim. discriminate.
Qed.

(** C3.  The facade's [set] and [clear] change the engine and the
    mirror alike, but its [delete] changes the engine only: the mirror
    is left as it was, so a deleted key is still yielded by [keys],
    [values] and [entries]. *)
Theorem facade_delete_skips_mirror :
  (∀ (q : QuickLRU.t string Z) key,
     QuickLRU._map (state_of (QuickLRU.delete key q)) = QuickLRU._map q) ∧
  let q0 := fresh_facade 2 LRUBase.Infinite (Some quiet) in
  let q1 := state_of (QuickLRU.set "a" 1 0 q0) in
  let q2 := state_of (QuickLRU.delete "a" q1) in
  QuickLRU.set "a" 1 0 q0 = Ret tt q1 ∧
  QuickLRU.delete "a" q1 = Ret true q2 ∧
  QuickLRU.has "a" 0 q2 = Ret false q2 ∧
  QuickLRU.get "a" 0 q2 = Ret None q2 ∧
  QuickLRU.keys q2 = ["a"] ∧
  QuickLRU.values q2 = [1] ∧
  QuickLRU.entries q2 = [("a", 1)].
Proof.
  split.
  - intros q key. unfold QuickLRU.delete. by rewrite QuickFacts.on_base_state.
  - intros q0 q1 q2. split_and!; vm_compute; reflexivity.
Qed.

(** C7.  The scenario with maxSize 2 and no TTL. *)
Theorem rotation_scenario (t1 t2 t3 t4 t5 t6 t7 : Z) :
  let s0 := fresh 2 LRUBase.Infinite (Some quiet) in
  let s1 := state_of (LRUBase.set "a" 1 None t1 s0) in
  let s2 := state_of (LRUBase.set "b" 2 None t2 s1) in
  let s3 := state_of (LRUBase.get "a" t3 s2) in
  let s4 := state_of (LRUBase.set "c" 3 None t4 s3) in
  let s5 := state_of (LRUBase.get "a" t6 s4) in
  let s6 := state_of (LRUBase.get "c" t7 s5) in
  (* set(a,1), set(b,2): a rotation, no notification *)
  LRUBase.set "a" 1 None t1 s0 = Ret tt s1 ∧
  LRUBase.set "b" 2 None t2 s1 = Ret tt s2 ∧
  LRUBase._cache s2 = [] ∧
  LRUBase._oldCache s2 = [("a", entry_of 1 None); ("b", entry_of 2 None)] ∧
  LRUBase._notified s2 = [] ∧
  (* get(a) returns 1 and promotes a *)
  LRUBase.get "a" t3 s2 = Ret (Some 1) s3 ∧
  LRUBase._cache s3 = [("a", entry_of 1 None)] ∧
  LRUBase._oldCache s3 = [("b", entry_of 2 None)] ∧
  LRUBase._notified s3 = [] ∧
  (* set(c,3): a second rotation, one notification (b,2) *)
  LRUBase.set "c" 3 None t4 s3 = Ret tt s4 ∧
  LRUBase._cache s4 = [] ∧
  LRUBase._oldCache s4 = [("a", entry_of 1 None); ("c", entry_of 3 None)] ∧
  LRUBase._notified s4 = [("b", 2)] ∧
  (* afterwards *)
  LRUBase.get "b" t5 s4 = Ret None s4 ∧
  LRUBase.get "a" t6 s4 = Ret (Some 1) s5 ∧
  LRUBase.get "c" t7 s5 = Ret (Some 3) s6 ∧
  LRUBase._notified s6 = [("b", 2)].
Proof.
  intros s0 s1 s2 s3 s4 s5 s6. split_and!; vm_compute; reflexivity.
Qed.

End ScenarioFacts.

(** ** Further facts about the engine *)

Module LRUMore.
Section LRUMore.
Context {K V : Type} `{EqDecision K}.
Local Abbreviation item := (LRUBase.CacheItem V).
Local Abbreviation state := (LRUBase.t K V).
Implicit Types (s : state) (key k : K) (it : item) (now : Z).
Implicit Types (c l E : list (K * item)) (p q : K * item).
Import LRUSpec.

(** *** An empty cache *)

Lemma empty_lookup s key now :
  LRUBase._cache s = [] → LRUBase._oldCache s = [] →
  LRUBase.get key now s = Ret None s ∧
  LRUBase.has key now s = Ret false s ∧
  LRUBase.peek key now s = Ret None s ∧
  LRUBase.entriesAscending now s = Ret [] s ∧
  LRUBase.entriesDescending now s = Ret [] s.
Proof.
  intros Hc Ho.
  assert (Hentry : entry key s = None) by (unfold entry; by rewrite Hc, Ho).
  assert (Hq : none_expired now s).
  { split; intros p; rewrite ?Hc, ?Ho; by intros ?%elem_of_nil. }
  assert (Hwc : JSMap.wf (LRUBase._cache s)) by (rewrite Hc; apply NoDup_nil_2).
  assert (Hwo : JSMap.wf (LRUBase._oldCache s))
    by (rewrite Ho; apply NoDup_nil_2).
  split_and!.
  - apply LRUFacts.get_absent; by rewrite ?Hc, ?Ho.
  - by apply LRUFacts.has_absent.
  - by apply LRUFacts.peek_absent.
  - rewrite LRUFacts.entriesAscending_quiet by done.
    unfold unshadowed_entries. by rewrite Hc, Ho.
  - rewrite LRUFacts.entriesDescending_quiet by done.
    unfold unshadowed_entries. by rewrite Hc, Ho.
Qed.

(** X1.  The constructor throws a TypeError when maxSize is not
    positive or maxAge is the number 0, and only then.  Otherwise it
    builds a cache of that maxSize whose size is 0, in which every
    lookup misses and both iterations yield nothing. *)
Theorem constructor_spec (options : LRUBase.Options K V) :
  (LRUBase.opt_maxSize options ≤ 0
   ∨ LRUBase.opt_maxAge options = Some (LRUBase.Finite 0) →
   LRUBase.constructor options = inl TypeError) ∧
  (0 < LRUBase.opt_maxSize options →
   LRUBase.opt_maxAge options ≠ Some (LRUBase.Finite 0) →
   ∃ s0,
     LRUBase.constructor options = inr s0 ∧
     LRUBase.size s0 = 0 ∧
     LRUBase.maxSize s0 = LRUBase.opt_maxSize options ∧
     LRUBase._maxAge s0 =
       default LRUBase.Infinite (LRUBase.opt_maxAge options) ∧
     ∀ key now,
       LRUBase.get key now s0 = Ret None s0 ∧
       LRUBase.has key now s0 = Ret false s0 ∧
       LRUBase.peek key now s0 = Ret None s0 ∧
       LRUBase.entriesAscending now s0 = Ret [] s0 ∧
       LRUBase.entriesDescending now s0 = Ret [] s0).
Proof.
  unfold LRUBase.constructor. split.
  - intros [Hm|Ha].
    + by replace (0 <? LRUBase.opt_maxSize options) with false
        by (symmetry; apply Z.ltb_ge; lia).
    + rewrite Ha. by destruct (0 <? LRUBase.opt_maxSize options).
  - intros Hm Ha.
    replace (0 <? LRUBase.opt_maxSize options) with true
      by (symmetry; apply Z.ltb_lt; lia).
    cbn [negb].
    exists {| LRUBase._size := 0; LRUBase._cache := [];
              LRUBase._oldCache := [];
              LRUBase._maxSize := LRUBase.opt_maxSize options;
              LRUBase._maxAge :=
                default LRUBase.Infinite (LRUBase.opt_maxAge options);
              LRUBase._onEviction := LRUBase.opt_onEviction options;
              LRUBase._notified := [] |}.
    split.
    + destruct (LRUBase.opt_maxAge options) as [[[| |]|]|]; done.
    + split_and!; [done..|]. intros key now. by apply empty_lookup.
Qed.

(** X2.  [clear] empties the cache whatever its state: afterwards the
    size is 0, every lookup misses, maxSize is unchanged, and no
    eviction is notified, not even for the entries dropped.  Clearing
    again changes nothing. *)
Theorem clear_spec s :
  ∃ s',
    LRUBase.clear s = Ret tt s' ∧
    LRUBase.size s' = 0 ∧
    LRUBase.maxSize s' = LRUBase.maxSize s ∧
    LRUBase._notified s' = LRUBase._notified s ∧
    LRUBase.clear s' = Ret tt s' ∧
    ∀ key now,
      LRUBase.get key now s' = Ret None s' ∧
      LRUBase.has key now s' = Ret false s' ∧
      LRUBase.peek key now s' = Ret None s' ∧
      LRUBase.entriesAscending now s' = Ret [] s' ∧
      LRUBase.entriesDescending now s' = Ret [] s'.
Proof.
  eexists. split; [apply LRUFacts.clear_ok|].
  split_and!; [done..|]. intros key now. by apply empty_lookup.
Qed.

(** X3.  [delete] returns true exactly when the key was held by one of
    the generations.  Afterwards the key is held by neither, so [get]
    and [has] miss; every other key keeps its entry; nothing is
    notified. *)
Theorem delete_spec key s :
  ∃ b s',
    LRUBase.delete key s = Ret b s' ∧
    (b = true ↔ is_Some (entry key s)) ∧
    JSMap.has key (LRUBase._cache s') = false ∧
    JSMap.has key (LRUBase._oldCache s') = false ∧
    (∀ k, k ≠ key → entry k s' = entry k s) ∧
    LRUBase._notified s' = LRUBase._notified s ∧
    LRUBase._maxSize s' = LRUBase._maxSize s ∧
    ∀ now,
      LRUBase.get key now s' = Ret None s' ∧
      LRUBase.has key now s' = Ret false s' ∧
      LRUBase.peek key now s' = Ret None s'.
Proof.
  do 2 eexists. split; [apply LRUFacts.delete_ok|].
  assert (Hgone : entry key (del key s) = None).
  { rewrite LRUFacts.entry_del. by rewrite decide_True. }
  split_and!; try done.
  - unfold entry. rewrite orb_true_iff, !JSMapFacts.has_get.
    destruct (JSMap.get key (LRUBase._cache s)) as [it|].
    + split; [by eexists|]. intros _. right. by eexists.
    + split; [by intros [?|[? ?]]|]. intros ?. by left.
  - simpl. rewrite JSMapFacts.has_delete. by rewrite decide_True.
  - simpl. rewrite JSMapFacts.has_delete. by rewrite decide_True.
  - intros k Hne. rewrite LRUFacts.entry_del. by rewrite decide_False.
  - intros now. split_and!.
    + unfold entry in Hgone.
      destruct (JSMap.get key (LRUBase._cache (del key s))) eqn:Hc; [done|].
      by apply LRUFacts.get_absent.
    + by apply LRUFacts.has_absent.
    + by apply LRUFacts.peek_absent.
Qed.

(** *** Resize with overflow *)

(** X4.  When more entries are live than the new bound allows,
    [resize] evicts the oldest ones, as many as the excess, notifying
    each once in the order they were collected (after the notifications
    of the entries the walk found expired).  The others become the
    previous generation, the active generation is empty, and the size is
    the new bound.  The evicted keys are gone and the kept keys have the
    entry they had. *)
Theorem resize_overflow s m now :
  reachable s → 0 < m → m < Z.of_nat (length (live now s)) →
  let n := Z.to_nat (Z.of_nat (length (live now s)) - m) in
  ∃ s',
    LRUBase.resize m now s = Ret tt s' ∧
    LRUBase._maxSize s' = m ∧
    LRUBase._cache s' = [] ∧
    LRUBase._oldCache s' = drop n (live now s) ∧
    LRUBase.size s' = m ∧
    LRUBase._notified s' =
      LRUBase._notified
        (note (events (dead_old now s) ++ events (dead_cache now s)
               ++ events (take n (live now s))) s) ∧
    (∀ k it, (k, it) ∈ take n (live now s) → entry k s' = None) ∧
    (∀ k it, (k, it) ∈ drop n (live now s) →
       entry k s' = Some it ∧ entry k s = Some it).
Proof.
  intros [HI Hs]%LRUFacts.reachable_Inv Hm Hlt n.
  pose proof HI as [Hc Ho _ _ _].
  pose proof (LRUFacts.wf_live now s Hc Ho) as Hlive.
  exists (resized m now s). split; [by apply LRUFacts.resize_ok|].
  assert (Hfields :
    LRUBase._cache (resized m now s) = [] ∧
    LRUBase._oldCache (resized m now s) = drop n (live now s) ∧
    LRUBase._size (resized m now s) = 0 ∧
    LRUBase._notified (resized m now s) =
      LRUBase._notified
        (note (events (take n (live now s)))
           (purge (dead_cache now s) (purge (dead_old now s) s)))).
  { unfold resized.
    replace (Z.of_nat (length (live now s)) - m <? 0) with false
      by (symmetry; apply Z.ltb_ge; lia).
    done. }
  destruct Hfields as (Hcache & Hold & Hsize & Hnote).
  assert (Hentry : ∀ k, entry k (resized m now s)
                        = JSMap.get k (drop n (live now s))).
  { intros k. unfold entry. by rewrite Hcache, Hold. }
  assert (Hdrop : JSMap.wf (drop n (live now s))).
  { eapply LRUFacts.wf_sublist; [apply sublist_drop|done]. }
  split_and!; try done.
  - unfold LRUBase.size. rewrite Hsize, Hold. simpl. unfold JSMap.size.
    rewrite length_drop. lia.
  - by rewrite Hnote, !LRUFacts.notified_note_purge.
  - intros k it Hin. rewrite Hentry. apply JSMapFacts.get_None.
    unfold JSMap.wf, JSMap.keys in Hlive.
    rewrite <- (take_drop n (live now s)), fmap_app in Hlive.
    apply NoDup_app in Hlive as (_ & Hdisj & _). apply Hdisj.
    apply list_elem_of_fmap. by exists (k, it).
  - intros k it Hin. split.
    + rewrite Hentry. by apply JSMapFacts.elem_of_get.
    + apply (LRUFacts.live_entry k it now); [done|done|].
      eapply subseteq_drop, Hin.
Qed.

(** X5.  On a cache whose callback does not throw, [resize] throws
    exactly when the new bound is not positive; it then throws a
    TypeError and leaves the cache as it was (whatever the callback). *)
Theorem resize_throws_iff s m now :
  (m ≤ 0 → LRUBase.resize m now s = Throw TypeError s) ∧
  (reachable s →
   ((∃ e s', LRUBase.resize m now s = Throw e s') ↔ m ≤ 0)).
Proof.
  split; [apply LRUFacts.resize_TypeError|].
  intros [HI Hs]%LRUFacts.reachable_Inv. pose proof HI as [Hc Ho _ _ _].
  split.
  - intros (e & s' & Hthrow). destruct (decide (0 < m)) as [Hm|Hm]; [|lia].
    by rewrite LRUFacts.resize_ok in Hthrow.
  - intros Hm. do 2 eexists. by apply LRUFacts.resize_TypeError.
Qed.

(** *** Lookups *)

Lemma stale_is_expired it now :
  LRUBase.expiry it ≠ Some 0 → stale it now = LRUBase.is_expired it now.
Proof.
  unfold stale, LRUBase.is_expired. destruct (LRUBase.expiry it) as [e|]; [|done].
  intros Hne. by replace (e =? 0) with false
    by (symmetry; apply Z.eqb_neq; congruence).
Qed.

(** X6.  For a key whose entry does not carry the expiry 0, [get],
    [peek] and [has] agree: [peek] returns what [get] returns and [has]
    says whether that is a value.  [peek] and [has] leave the same state
    behind; when a value is found they leave the cache untouched (no
    promotion, no rotation, no notification), and on a miss [get] does
    no more than they do. *)
Theorem lookups_agree s key now :
  no_throw s →
  (∀ it, entry key s = Some it → LRUBase.expiry it ≠ Some 0) →
  ∃ r sg sp,
    LRUBase.get key now s = Ret r sg ∧
    LRUBase.peek key now s = Ret r sp ∧
    LRUBase.has key now s =
      Ret (match r with Some _ => true | None => false end) sp ∧
    (is_Some r → sp = s) ∧
    (r = None → sg = sp).
Proof.
  intros Hs Hne. destruct (entry key s) as [it|] eqn:Hit.
  - specialize (Hne it eq_refl).
    pose proof (stale_is_expired it now Hne) as Hst.
    rewrite (LRUFacts.peek_present key it), (LRUFacts.has_present key it)
      by done.
    rewrite Hst. pose proof Hit as Hit'. unfold entry in Hit'.
    destruct (JSMap.get key (LRUBase._cache s)) as [it'|] eqn:Hc.
    + injection Hit' as ->. rewrite (LRUFacts.get_active key it) by done.
      rewrite Hst. destruct (LRUBase.is_expired it now).
      * do 3 eexists. split_and!; first [done | by intros [? ?]].
      * do 3 eexists. split_and!; done.
    + rewrite (LRUFacts.get_previous key it) by done.
      destruct (LRUBase.is_expired it now).
      * do 3 eexists. split_and!; first [done | by intros [? ?]].
      * do 3 eexists. split_and!; done.
  - rewrite LRUFacts.peek_absent, LRUFacts.has_absent by done.
    unfold entry in Hit.
    destruct (JSMap.get key (LRUBase._cache s)) eqn:Hc; [done|].
    rewrite LRUFacts.get_absent by done.
    do 3 eexists. split_and!; first [done | by intros [? ?]].
Qed.

(** *** The ascending iteration and the lookups *)

Lemma get_filter_keys (X : list K) c k :
  JSMap.get k (filter (λ q, q.1 ∉ X) c) =
  if decide (k ∈ X) then None else JSMap.get k c.
Proof.
  induction c as [|[k' it'] c IH].
  - by destruct (decide (k ∈ X)).
  - rewrite filter_cons. cbn [fst].
    destruct (decide (k' ∉ X)) as [Hk'|Hk']; simpl.
    + rewrite IH. destruct (decide (k = k')) as [->|]; [|done].
      by rewrite decide_False.
    + rewrite IH. destruct (decide (k = k')) as [->|]; [|done].
      destruct (decide (k' ∈ X)); [done|]. by exfalso.
Qed.

Lemma entry_purge k E s :
  entry k (purge E s) =
  if decide (k ∈ JSMap.keys E) then None else entry k s.
Proof.
  unfold entry. rewrite LRUFacts.cache_purge, LRUFacts.oldCache_purge.
  rewrite !get_filter_keys. by destruct (decide (k ∈ JSMap.keys E)).
Qed.

Lemma elem_of_live k it now s :
  JSMap.wf (LRUBase._cache s) → JSMap.wf (LRUBase._oldCache s) →
  (k, it) ∈ live now s ↔
  entry k s = Some it ∧ LRUBase.is_expired it now = false.
Proof.
  intros Hc Ho. split.
  - intros Hin. split; [by apply (LRUFacts.live_entry k it now)|].
    unfold live, live_old, live_cache in Hin.
    rewrite elem_of_app, !list_elem_of_filter in Hin. cbn [fst snd] in Hin.
    by destruct Hin as [[[_ ?] _]|[? _]].
  - intros [Hit Hexp]. unfold entry in Hit.
    unfold live, live_old, live_cache.
    rewrite elem_of_app, !list_elem_of_filter. cbn [fst snd].
    destruct (JSMap.get k (LRUBase._cache s)) as [it'|] eqn:Hkc.
    + injection Hit as ->. right. split; [done|].
      by apply JSMapFacts.get_elem_of.
    + left. split_and!; [|done|by apply JSMapFacts.get_elem_of].
      unfold JSMap.has. by rewrite Hkc.
Qed.

Lemma keys_dead_cache k now s :
  JSMap.wf (LRUBase._cache s) →
  k ∈ JSMap.keys (dead_cache now s) ↔
  ∃ it, JSMap.get k (LRUBase._cache s) = Some it
        ∧ LRUBase.is_expired it now = true.
Proof.
  intros Hc. unfold JSMap.keys, dead_cache. rewrite list_elem_of_fmap. split.
  - intros [[k' it] [-> [Hexp Hin]%list_elem_of_filter]]. exists it.
    split; [by apply JSMapFacts.elem_of_get|done].
  - intros (it & Hget & Hexp). exists (k, it). split; [done|].
    apply list_elem_of_filter. split; [done|].
    by apply JSMapFacts.get_elem_of.
Qed.

Lemma keys_dead_old k now s :
  JSMap.wf (LRUBase._oldCache s) →
  k ∈ JSMap.keys (dead_old now s) ↔
  JSMap.get k (LRUBase._cache s) = None ∧
  ∃ it, JSMap.get k (LRUBase._oldCache s) = Some it
        ∧ LRUBase.is_expired it now = true.
Proof.
  intros Ho. unfold JSMap.keys, dead_old. rewrite list_elem_of_fmap. split.
  - intros [[k' it] [-> [[Hsh Hexp] Hin]%list_elem_of_filter]].
    cbn [fst snd] in *. split; [by apply JSMapFacts.get_has_false|].
    exists it. split; [by apply JSMapFacts.elem_of_get|done].
  - intros (Hsh & it & Hget & Hexp). exists (k, it). split; [done|].
    apply list_elem_of_filter. cbn [fst snd]. split_and!; [|done|].
    + unfold JSMap.has. by rewrite Hsh.
    + by apply JSMapFacts.get_elem_of.
Qed.

(** X7.  The ascending iteration yields exactly the keys that a lookup
    would find at that time, each once, with the value [get] would
    return: [(k, v)] is yielded if and only if the entry answering for
    [k] is not expired and holds [v].  Afterwards these entries are
    still in place and no key is answered by an expired entry. *)
Theorem ascending_lists_live s now :
  reachable s →
  ∃ xs s',
    LRUBase.entriesAscending now s = Ret xs s' ∧
    NoDup xs.*1 ∧
    (∀ k v, (k, v) ∈ xs ↔
       ∃ it, entry k s = Some it ∧ LRUBase.is_expired it now = false
             ∧ LRUBase.value it = v) ∧
    (∀ k, entry k s' =
       match entry k s with
       | Some it => if LRUBase.is_expired it now then None else Some it
       | None => None
       end).
Proof.
  intros [HI Hs]%LRUFacts.reachable_Inv. pose proof HI as [Hc Ho _ _ _].
  do 2 eexists. split.
  { unfold LRUBase.entriesAscending, bind.
    rewrite LRUFacts._entriesAscending_ok by done. reflexivity. }
  change (map ?f ?l) with (f <$> l). split_and!.
  - rewrite <- list_fmap_compose.
    assert (Hfst : (fst ∘ (λ p : K * item, (p.1, LRUBase.value p.2)))
                   = (fst : K * item → K)) by done.
    rewrite Hfst. by apply LRUFacts.wf_live.
  - intros k v. rewrite list_elem_of_fmap. split.
    + intros [[k' it] [[= -> ->] Hin]]. exists it.
      apply elem_of_live in Hin as [? ?]; done.
    + intros (it & Hit & Hexp & <-). exists (k, it). split; [done|].
      by apply elem_of_live.
  - intros k. rewrite !entry_purge.
    destruct (decide (k ∈ JSMap.keys (dead_cache now s))) as [Hdc|Hdc].
    + apply keys_dead_cache in Hdc as (it & Hget & Hexp); [|done].
      unfold entry. by rewrite Hget, Hexp.
    + destruct (decide (k ∈ JSMap.keys (dead_old now s))) as [Hdo|Hdo].
      * apply keys_dead_old in Hdo as (Hsh & it & Hget & Hexp); [|done].
        unfold entry. by rewrite Hsh, Hget, Hexp.
      * destruct (entry k s) as [it|] eqn:Hit; [|done].
        destruct (LRUBase.is_expired it now) eqn:Hexp; [|done].
        exfalso. unfold entry in Hit.
        destruct (JSMap.get k (LRUBase._cache s)) as [it'|] eqn:Hkc.
        -- injection Hit as ->. apply Hdc, keys_dead_cache; [done|].
           by exists it.
        -- apply Hdo, keys_dead_old; [done|]. split; [done|]. by exists it.
Qed.

(** *** How long a key is retained *)

Import Retention.

Lemma elem_of_set c key it p :
  p ∈ JSMap.set key it c → p = (key, it) ∨ p ∈ c.
Proof.
  induction c as [|[k' it'] c IH]; simpl.
  - intros ->%list_elem_of_singleton. by left.
  - destruct (decide (key = k')) as [->|Hne]; rewrite !elem_of_cons.
    + intros [->|?]; auto.
    + intros [->|?]; [auto|]. destruct IH as [?|?]; auto.
Qed.

Lemma no_ttl_fresh s now :
  no_ttl s → none_expired now s.
Proof.
  intros [_ Hnone].
  split; intros p Hp; unfold LRUBase.is_expired;
    by rewrite Hnone by (apply elem_of_app; auto).
Qed.

Lemma no_ttl_entry s k it now :
  no_ttl s → entry k s = Some it →
  LRUBase.is_expired it now = false ∧ stale it now = false.
Proof.
  intros [_ Hnone] Hit. unfold entry in Hit.
  assert (Hin : (k, it) ∈ LRUBase._cache s ++ LRUBase._oldCache s).
  { apply elem_of_app.
    destruct (JSMap.get k (LRUBase._cache s)) as [it'|] eqn:Hc.
    - injection Hit as ->. left. by apply JSMapFacts.get_elem_of.
    - right. by apply JSMapFacts.get_elem_of. }
  apply Hnone in Hin. cbn [snd] in Hin.
  unfold LRUBase.is_expired, stale. by rewrite Hin.
Qed.

Lemma no_ttl_store key it s :
  no_ttl s → LRUBase.expiry it = None → no_ttl (store key it s).
Proof.
  intros [Hage Hnone] Hit. unfold store, rotate, insert.
  destruct (LRUBase._maxSize s <=? LRUBase._size s + 1); split; simpl;
    rewrite ?LRUFacts.maxAge_note; try done.
  - intros p [->|Hp]%elem_of_set; [done|]. apply Hnone, elem_of_app. auto.
  - intros p [[->|Hp]%elem_of_set|Hp]%elem_of_app; [done| |];
      apply Hnone, elem_of_app; auto.
Qed.

Lemma no_ttl_overwrite key it s :
  no_ttl s → LRUBase.expiry it = None →
  no_ttl (LRUBase.with_cache (JSMap.set key it (LRUBase._cache s)) s).
Proof.
  intros [Hage Hnone] Hit. split; [done|]. simpl.
  intros p [[->|Hp]%elem_of_set|Hp]%elem_of_app; [done| |];
    apply Hnone, elem_of_app; auto.
Qed.

Lemma no_ttl_drop_old key s :
  no_ttl s →
  no_ttl (LRUBase.with_oldCache (JSMap.delete key (LRUBase._oldCache s)) s).
Proof.
  intros [Hage Hnone]. split; [done|]. simpl.
  intros p [Hp|[_ Hp]%list_elem_of_filter]%elem_of_app;
    apply Hnone, elem_of_app; auto.
Qed.

Lemma maxSize_store key it s :
  LRUBase._maxSize (store key it s) = LRUBase._maxSize s.
Proof.
  unfold store, rotate, insert.
  destruct (LRUBase._maxSize s <=? LRUBase._size s + 1); simpl; [|done].
  by rewrite LRUFacts.maxSize_note.
Qed.

Lemma credit_store_eq key it s :
  LRUBase._size s < LRUBase._maxSize s →
  LRUBase._maxSize s - 1 ≤ credit key (store key it s).
Proof.
  intros Hroom. unfold credit, store, rotate, insert.
  destruct (LRUBase._maxSize s <=? LRUBase._size s + 1) eqn:Hfull; simpl;
    rewrite ?LRUFacts.maxSize_note, ?LRUFacts.size_note; simpl.
  - rewrite JSMapFacts.has_set, decide_True by done. lia.
  - apply Z.leb_gt in Hfull.
    rewrite JSMapFacts.has_set, decide_True by done. lia.
Qed.

Lemma credit_store_ne k key it s :
  LRUBase._size s < LRUBase._maxSize s → k ≠ key → 1 ≤ credit k s →
  credit k s - 1 ≤ credit k (store key it s).
Proof.
  intros Hroom Hne. unfold credit, store, rotate, insert.
  destruct (LRUBase._maxSize s <=? LRUBase._size s + 1) eqn:Hfull; simpl;
    rewrite ?LRUFacts.maxSize_note, ?LRUFacts.oldCache_note,
      ?LRUFacts.size_note; simpl;
    rewrite JSMapFacts.has_set, decide_False by done.
  - apply Z.leb_le in Hfull.
    destruct (JSMap.has k (LRUBase._cache s)); [lia|].
    destruct (JSMap.has k (LRUBase._oldCache s)); lia.
  - destruct (JSMap.has k (LRUBase._cache s)); [lia|].
    destruct (JSMap.has k (LRUBase._oldCache s)); lia.
Qed.

Lemma credit_present k s :
  0 ≤ credit k s → is_Some (entry k s).
Proof.
  unfold credit, entry, JSMap.has.
  destruct (JSMap.get k (LRUBase._cache s)); [by eexists|].
  destruct (JSMap.get k (LRUBase._oldCache s)); [by eexists|lia].
Qed.

Lemma plain_step k o now s :
  Inv s → no_throw s → no_ttl s → plain o → ¬ sets_key k o →
  1 ≤ credit k s →
  no_ttl (exec o now s) ∧
  LRUBase._maxSize (exec o now s) = LRUBase._maxSize s ∧
  credit k s - 1 ≤ credit k (exec o now s).
Proof.
  intros HI Hs Httl Hplain Hk Hcredit.
  pose proof HI as [Hc Ho Hsz Hroom _]. unfold JSMap.size in Hsz.
  assert (Hsame : no_ttl s ∧ LRUBase._maxSize s = LRUBase._maxSize s
                  ∧ credit k s - 1 ≤ credit k s) by (split_and!; [done..|lia]).
  destruct o as [key|key v [a|]|key|key|key| |m| |]; try done; unfold exec.
  - (* get *)
    destruct (JSMap.get key (LRUBase._cache s)) as [it|] eqn:Hkc.
    + rewrite (LRUFacts.get_active key it) by done.
      destruct (no_ttl_entry s key it now Httl) as [_ ->]; [|done].
      unfold entry. by rewrite Hkc.
    + destruct (JSMap.get key (LRUBase._oldCache s)) as [it|] eqn:Hko.
      * rewrite (LRUFacts.get_previous key it) by done.
        assert (Hit : entry key s = Some it)
          by (unfold entry; by rewrite Hkc, Hko).
        destruct (no_ttl_entry s key it now Httl Hit) as [-> _].
        cbn [state_of]. unfold promote.
        set (s0 := LRUBase.with_oldCache _ s).
        assert (Hitnone : LRUBase.expiry it = None).
        { destruct Httl as [_ Hnone].
          apply (Hnone (key, it)), elem_of_app. right.
          by apply JSMapFacts.get_elem_of. }
        split_and!.
        -- apply no_ttl_store; [by apply no_ttl_drop_old|done].
        -- by rewrite maxSize_store.
        -- destruct (decide (k = key)) as [->|Hne].
           ++ etrans; [|by apply credit_store_eq].
              unfold credit, JSMap.has. rewrite Hkc, Hko. simpl. lia.
           ++ assert (Hmid : credit k s0 = credit k s).
              { unfold credit, s0. simpl. rewrite JSMapFacts.has_delete.
                by rewrite decide_False. }
              rewrite <- Hmid. apply credit_store_ne; [done|done|].
              by rewrite Hmid.
      * by rewrite LRUFacts.get_absent.
  - (* set without a maxAge *)
    rewrite LRUFacts.set_ok by done. cbn [state_of]. simpl in Hk.
    assert (Hnew : LRUBase.expiry (new_item v None now s) = None).
    { unfold new_item. simpl. destruct Httl as [-> _]. done. }
    destruct (JSMap.has key (LRUBase._cache s)) eqn:Hkc.
    + split_and!; [by apply no_ttl_overwrite|done|].
      unfold credit. simpl. rewrite JSMapFacts.has_set.
      rewrite decide_False by congruence. lia.
    + split_and!; [by apply no_ttl_store|apply maxSize_store|].
      apply credit_store_ne; [done|congruence|done].
  - (* has *)
    destruct (entry key s) as [it|] eqn:Hit.
    + rewrite (LRUFacts.has_present key it) by done.
      by destruct (no_ttl_entry s key it now Httl Hit) as [-> _].
    + by rewrite LRUFacts.has_absent.
  - (* peek *)
    destruct (entry key s) as [it|] eqn:Hit.
    + rewrite (LRUFacts.peek_present key it) by done.
      by destruct (no_ttl_entry s key it now Httl Hit) as [_ ->].
    + by rewrite LRUFacts.peek_absent.
Qed.

Lemma plain_run k ops s :
  Inv s → no_throw s → no_ttl s →
  Forall (λ x, plain x.2 ∧ ¬ sets_key k x.2) ops →
  Z.of_nat (length ops) ≤ credit k s →
  Inv (run ops s) ∧ no_throw (run ops s) ∧ no_ttl (run ops s) ∧
  0 ≤ credit k (run ops s).
Proof.
  revert s. induction ops as [|[now o] ops IH]; intros s HI Hs Httl Hops Hlen.
  - simpl in *. split_and!; [done..|lia].
  - apply Forall_cons in Hops as [[Hplain Hk] Hops]. simpl in Hplain, Hk.
    simpl in Hlen.
    destruct (LRUFacts.exec_Inv o now s HI Hs) as [HI' He].
    destruct (plain_step k o now s HI Hs Httl Hplain Hk) as (Httl' & _ & Hc);
      [lia|].
    change (run ((now, o) :: ops) s) with (run ops (exec o now s)).
    apply IH; [done|by apply (LRUFacts.no_throw_eq s)|done|done|lia].
Qed.

(** X8.  With no time-to-live in play, a key that was just set is
    retained through any [maxSize - 1] further lookups and stores of
    other keys ([get], [has], [peek], [set]): a [get] then returns the
    value that was set. *)
Theorem retention s0 key v t0 ops t :
  reachable s0 → no_ttl s0 →
  Forall (λ x, plain x.2 ∧ ¬ sets_key key x.2) ops →
  Z.of_nat (length ops) < LRUBase.maxSize s0 →
  ∃ s3,
    LRUBase.get key t (run ops (exec (OSet key v None) t0 s0))
    = Ret (Some v) s3.
Proof.
  intros [HI0 Hs0]%LRUFacts.reachable_Inv Httl0 Hops Hlen.
  unfold LRUBase.maxSize in Hlen.
  set (s1 := exec (OSet key v None) t0 s0).
  destruct (LRUFacts.exec_Inv (OSet key v None) t0 s0 HI0 Hs0) as [HI1 He1].
  fold s1 in HI1, He1.
  assert (Hs1 : no_throw s1) by (by apply (LRUFacts.no_throw_eq s0)).
  pose proof (LRUFacts.entry_after_set key v None t0 s0 Hs0) as Hentry.
  fold s1 in Hentry.
  assert (Hnew : LRUBase.expiry (new_item v None t0 s0) = None).
  { unfold new_item. simpl. destruct Httl0 as [-> _]. done. }
  pose proof HI0 as [_ _ Hsz0 Hroom0 _]. unfold JSMap.size in Hsz0.
  assert (Hstep : no_ttl s1 ∧ LRUBase._maxSize s0 - 1 ≤ credit key s1).
  { unfold s1, exec. rewrite LRUFacts.set_ok by done. cbn [state_of].
    destruct (JSMap.has key (LRUBase._cache s0)) eqn:Hkc.
    - split; [by apply no_ttl_overwrite|].
      unfold credit. simpl. rewrite JSMapFacts.has_set.
      rewrite decide_True by done. lia.
    - split; [by apply no_ttl_store|by apply credit_store_eq]. }
  destruct Hstep as [Httl1 Hcredit].
  destruct (plain_run key ops s1 HI1 Hs1 Httl1 Hops) as (HI2 & Hs2 & Httl2 & Hc);
    [lia|].
  apply credit_present in Hc as [it Hit].
  assert (Hops' : Forall (λ x, ¬ sets_key key x.2) ops).
  { eapply Forall_impl; [done|]. by intros x [_ ?]. }
  destruct (LRUFacts.run_keeps key ops s1 HI1 Hs1 Hops') as [Hk|Hk];
    [|congruence].
  rewrite Hit, Hentry in Hk. injection Hk as ->.
  apply (LRUFacts.get_live key _ t _ Hs2 Hit).
  unfold LRUBase.is_expired. by rewrite Hnew.
Qed.

(** *** Iteration with expired entries *)

Lemma keys_reverse k E : k ∈ JSMap.keys (reverse E) ↔ k ∈ JSMap.keys E.
Proof. unfold JSMap.keys. by rewrite fmap_reverse, elem_of_reverse. Qed.

Lemma entry_after_ascending k now s :
  JSMap.wf (LRUBase._cache s) → JSMap.wf (LRUBase._oldCache s) →
  entry k (purge (dead_cache now s) (purge (dead_old now s) s)) =
  match entry k s with
  | Some it => if LRUBase.is_expired it now then None else Some it
  | None => None
  end.
Proof.
  intros Hc Ho. rewrite !entry_purge.
  destruct (decide (k ∈ JSMap.keys (dead_cache now s))) as [Hdc|Hdc].
  - apply keys_dead_cache in Hdc as (it & Hget & Hexp); [|done].
    unfold entry. by rewrite Hget, Hexp.
  - destruct (decide (k ∈ JSMap.keys (dead_old now s))) as [Hdo|Hdo].
    + apply keys_dead_old in Hdo as (Hsh & it & Hget & Hexp); [|done].
      unfold entry. by rewrite Hsh, Hget, Hexp.
    + destruct (entry k s) as [it|] eqn:Hit; [|done].
      destruct (LRUBase.is_expired it now) eqn:Hexp; [|done].
      exfalso. unfold entry in Hit.
      destruct (JSMap.get k (LRUBase._cache s)) as [it'|] eqn:Hkc.
      * injection Hit as ->. apply Hdc, keys_dead_cache; [done|].
        by exists it.
      * apply Hdo, keys_dead_old; [done|]. split; [done|]. by exists it.
Qed.

Lemma entry_after_descending k now s :
  JSMap.wf (LRUBase._cache s) → JSMap.wf (LRUBase._oldCache s) →
  let s1 := purge (reverse (dead_cache now s)) s in
  entry k (purge (reverse (dead_old now s1)) s1) =
  match entry k s with
  | Some it => if LRUBase.is_expired it now then None else Some it
  | None => None
  end.
Proof.
  intros Hc Ho s1. rewrite entry_purge.
  assert (Ho1 : JSMap.wf (LRUBase._oldCache s1)).
  { unfold s1. rewrite LRUFacts.oldCache_purge.
    by apply JSMapFacts.wf_filter. }
  destruct (decide (k ∈ JSMap.keys (dead_cache now s))) as [Hdc|Hdc].
  - assert (Hnone : entry k s1 = None).
    { unfold s1. rewrite entry_purge. rewrite decide_True; [done|].
      by apply keys_reverse. }
    apply keys_dead_cache in Hdc as (it & Hget & Hexp); [|done].
    unfold entry at 2. rewrite Hget, Hexp, Hnone.
    by destruct (decide _).
  - assert (Hsame : entry k s1 = entry k s).
    { unfold s1. rewrite entry_purge. rewrite decide_False; [done|].
      by rewrite keys_reverse. }
    assert (Hcache : JSMap.get k (LRUBase._cache s1)
                     = JSMap.get k (LRUBase._cache s)).
    { unfold s1. rewrite LRUFacts.cache_purge, get_filter_keys.
      rewrite decide_False; [done|]. by rewrite keys_reverse. }
    assert (Hold : JSMap.get k (LRUBase._oldCache s1)
                   = JSMap.get k (LRUBase._oldCache s)).
    { unfold s1. rewrite LRUFacts.oldCache_purge, get_filter_keys.
      rewrite decide_False; [done|]. by rewrite keys_reverse. }
    rewrite Hsame.
    destruct (decide (k ∈ JSMap.keys (reverse (dead_old now s1)))) as [Hdo|Hdo].
    + apply keys_reverse, keys_dead_old in Hdo as (Hsh & it & Hget & Hexp);
        [|done].
      rewrite Hcache in Hsh. rewrite Hold in Hget.
      unfold entry. by rewrite Hsh, Hget, Hexp.
    + destruct (entry k s) as [it|] eqn:Hit; [|done].
      destruct (LRUBase.is_expired it now) eqn:Hexp; [|done].
      exfalso. unfold entry in Hit.
      destruct (JSMap.get k (LRUBase._cache s)) as [it'|] eqn:Hkc.
      * injection Hit as ->. apply Hdc, keys_dead_cache; [done|].
        by exists it.
      * apply Hdo, keys_reverse, keys_dead_old; [done|].
        rewrite Hcache, Hold. split; [done|]. by exists it.
Qed.

(** X9.  On a reachable cache, expired entries included, the descending
    iteration yields the reverse of what the ascending iteration yields
    from the same state: the live entries, each expired entry being
    skipped and purged by both.  After either iteration a key is
    answered by the entry it had if that entry is live, and by none if
    it is expired. *)
Theorem descending_reverses_live s now :
  reachable s →
  ∃ xs s1 s2,
    LRUBase.entriesAscending now s = Ret xs s1 ∧
    LRUBase.entriesDescending now s = Ret (reverse xs) s2 ∧
    xs = view <$> live now s ∧
    (∀ k, entry k s1 =
       match entry k s with
       | Some it => if LRUBase.is_expired it now then None else Some it
       | None => None
       end) ∧
    (∀ k, entry k s2 = entry k s1).
Proof.
  intros [HI Hs]%LRUFacts.reachable_Inv. pose proof HI as [Hc Ho _ _ _].
  exists (view <$> live now s),
    (purge (dead_cache now s) (purge (dead_old now s) s)),
    (purge (reverse (dead_old now (purge (reverse (dead_cache now s)) s)))
       (purge (reverse (dead_cache now s)) s)).
  split_and!.
  - unfold LRUBase.entriesAscending, bind.
    by rewrite LRUFacts._entriesAscending_ok.
  - rewrite LRUFacts.entriesDescending_ok by done.
    rewrite LRUFacts.live_old_after_dead_cache. unfold live.
    by rewrite <- fmap_reverse, reverse_app.
  - done.
  - intros k. by apply entry_after_ascending.
  - intros k. rewrite entry_after_ascending by done.
    by apply entry_after_descending.
Qed.

(** *** What [set] notifies *)

(** X21.  [set] notifies evictions only when it rotates the
    generations, that is when it adds a key that the active generation
    does not hold and the active generation thereby reaches maxSize.  It
    then notifies every entry of the previous generation, in insertion
    order, the shadowed ones included: a key held by both generations is
    notified with its previous value although it stays in the cache with
    its current one. *)
Theorem set_notifies_on_rotation s key v maxAge now :
  no_throw s →
  ∃ s',
    LRUBase.set key v maxAge now s = Ret tt s' ∧
    (JSMap.has key (LRUBase._cache s) = true
     ∨ LRUBase._size s + 1 < LRUBase._maxSize s →
     LRUBase._notified s' = LRUBase._notified s
     ∧ LRUBase._oldCache s' = LRUBase._oldCache s) ∧
    (JSMap.has key (LRUBase._cache s) = false →
     LRUBase._maxSize s ≤ LRUBase._size s + 1 →
     LRUBase._notified s' =
       LRUBase._notified (note (events (LRUBase._oldCache s)) s) ∧
     LRUBase._cache s' = [] ∧
     LRUBase._oldCache s' =
       JSMap.set key (new_item v maxAge now s) (LRUBase._cache s) ∧
     ∀ k it, JSMap.get k (LRUBase._cache s) = Some it →
             entry k s' = Some it).
Proof.
  intros Hs. eexists. split; [by apply LRUFacts.set_ok|].
  split.
  - intros [Hk|Hroom].
    + by rewrite Hk.
    + destruct (JSMap.has key (LRUBase._cache s)); [done|].
      unfold store.
      by replace (LRUBase._maxSize s <=? LRUBase._size s + 1) with false
        by (symmetry; apply Z.leb_gt; lia).
  - intros Hk Hfull. rewrite Hk. unfold store.
    replace (LRUBase._maxSize s <=? LRUBase._size s + 1) with true
      by (symmetry; apply Z.leb_le; lia).
    split_and!.
    + unfold rotate, insert, note. simpl.
      by destruct (LRUBase._onEviction s).
    + done.
    + done.
    + intros k it Hit. rewrite LRUFacts.entry_rotate. cbn.
      rewrite JSMapFacts.get_set. rewrite decide_False; [done|].
      intros ->. apply JSMapFacts.get_has_false in Hk. congruence.
Qed.

End LRUMore.
End LRUMore.

(** ** Further facts about the facade *)

Module QuickMore.
Section QuickMore.
Context {K V : Type} `{EqDecision K}.
Local Abbreviation facade := (QuickLRU.t K V).
Implicit Types (q : facade) (k key : K) (v : V) (now : Z).
Import QuickSpec Mirror.

Lemma get_Some_entry k v now (s s' : LRUBase.t K V) :
  LRUSpec.no_throw s → LRUBase.get k now s = Ret (Some v) s' →
  ∃ it, LRUSpec.entry k s = Some it ∧ LRUBase.value it = v.
Proof.
  intros Hs. destruct (LRUSpec.entry k s) as [it|] eqn:Hit.
  - intros Hget. exists it. split; [done|]. unfold LRUSpec.entry in Hit.
    destruct (JSMap.get k (LRUBase._cache s)) as [it'|] eqn:Hc.
    + injection Hit as ->. rewrite (LRUFacts.get_active k it) in Hget by done.
      destruct (LRUSpec.stale it now); congruence.
    + rewrite (LRUFacts.get_previous k it) in Hget by done.
      destruct (LRUBase.is_expired it now); congruence.
  - unfold LRUSpec.entry in Hit.
    destruct (JSMap.get k (LRUBase._cache s)) eqn:Hc; [done|].
    by rewrite LRUFacts.get_absent.
Qed.

Lemma covered_step o now q :
  LRUSpec.Inv (QuickLRU._base q) → LRUSpec.no_throw (QuickLRU._base q) →
  covered q → covered (exec o now q).
Proof.
  intros HI Hq Hcov k it. rewrite QuickFacts.exec_base, QuickFacts.exec_map by done.
  assert (Hkeep : ∀ o', ¬ LRUSpec.sets_key k o' →
    LRUSpec.entry k (LRUSpec.exec o' now (QuickLRU._base q)) = Some it →
    JSMap.get k (QuickLRU._map q) = Some (LRUBase.value it)).
  { intros o' Hset Hit.
    destruct (LRUFacts.exec_keeps k o' now _ HI Hq Hset) as [Hk|Hk];
      rewrite Hk in Hit; [by apply Hcov|done]. }
  destruct o as [|key|key|key|key v|key|n| |]; cbn [on_engine];
    try (intros Hit; eapply Hkeep; [|exact Hit]; simpl; tauto).
  - unfold LRUSpec.exec. by rewrite LRUFacts.clear_ok.
  - rewrite JSMapFacts.get_set. destruct (decide (k = key)) as [->|Hne].
    + rewrite LRUFacts.entry_after_set by done. by intros [= <-].
    + intros Hit. eapply Hkeep; [|exact Hit]. simpl. congruence.
Qed.

Lemma covered_run ops q :
  LRUSpec.Inv (QuickLRU._base q) → LRUSpec.no_throw (QuickLRU._base q) →
  covered q →
  covered (run ops q) ∧ LRUSpec.no_throw (QuickLRU._base (run ops q)).
Proof.
  revert q. induction ops as [|[now o] ops IH]; intros q HI Hq Hcov; [done|].
  change (run ((now, o) :: ops) q) with (run ops (exec o now q)).
  destruct (LRUFacts.exec_Inv (on_engine o) now _ HI Hq) as [HI' He].
  rewrite <- QuickFacts.exec_base in HI', He.
  apply IH; [done| |by apply covered_step].
  by apply (LRUFacts.no_throw_eq (QuickLRU._base q)).
Qed.

(** X10.  On a facade whose eviction callback never throws, whatever
    sequence of operations is run, [clear] and [delete] included, the
    mirror covers the engine: every key the engine still holds is in the
    mirror with the same value.  So a value returned by [get] is always
    among the pairs [entries()] yields.  (When the callback throws out
    of a [set], the key is stored in the engine and not in the
    mirror.) *)
Theorem mirror_covers_engine options q0 ops :
  QuickLRU.constructor options = inr q0 →
  LRUSpec.no_throw (QuickLRU._base q0) →
  let q := run ops q0 in
  (∀ k it, LRUSpec.entry k (QuickLRU._base q) = Some it →
           JSMap.get k (QuickLRU.entries q) = Some (LRUBase.value it)) ∧
  (∀ k v now q', QuickLRU.get k now q = Ret (Some v) q' →
                 (k, v) ∈ QuickLRU.entries q ∧ k ∈ QuickLRU.keys q).
Proof.
  intros Hnew Hq0 q. unfold QuickLRU.constructor in Hnew.
  destruct (LRUBase.constructor options) as [e|b] eqn:Hb; [done|].
  injection Hnew as <-. simpl in Hq0.
  pose proof (LRUFacts.Inv_constructor _ _ Hb) as HI0.
  assert (Hcov0 : covered {| QuickLRU._base := b; QuickLRU._map := [] |}).
  { intros k it. simpl. unfold LRUBase.constructor in Hb.
    destruct (negb _); [done|].
    destruct (LRUBase.opt_maxAge options) as [[[| |]|]|];
      try done; by injection Hb as <-. }
  destruct (covered_run ops {| QuickLRU._base := b; QuickLRU._map := [] |}
              HI0 Hq0 Hcov0) as [Hcov Hq]. fold q in Hcov, Hq.
  split; [exact Hcov|].
  intros k v now q' Hget. unfold QuickLRU.get, QuickLRU.on_base in Hget.
  destruct (LRUBase.get k now (QuickLRU._base q)) as [r b'|] eqn:Hg; [|done].
  injection Hget as -> _.
  destruct (get_Some_entry k v now _ _ Hq Hg) as (it & Hit & <-).
  apply Hcov in Hit. apply JSMapFacts.get_elem_of in Hit.
  split; [done|]. unfold QuickLRU.keys. apply list_elem_of_fmap.
  by exists (k, LRUBase.value it).
Qed.

End QuickMore.
End QuickMore.

(** ** The statement caches *)

Module StatementCacheFacts.

Section Engine.
Context {K V : Type} `{EqDecision K}.
Import LRUSpec.
Implicit Types (s : LRUBase.t K V) (key : K) (now : Z).

Lemma get_returns key now s :
  no_throw s → ∃ r, LRUBase.get key now s = Ret r (exec (OGet key) now s).
Proof.
  intros Hs. unfold exec.
  destruct (JSMap.get key (LRUBase._cache s)) as [it|] eqn:Hc.
  - rewrite (LRUFacts.get_active key it) by done.
    destruct (stale it now); by eexists.
  - destruct (JSMap.get key (LRUBase._oldCache s)) as [it|] eqn:Ho.
    + rewrite (LRUFacts.get_previous key it) by done.
      destruct (LRUBase.is_expired it now); by eexists.
    + rewrite LRUFacts.get_absent by done. by eexists.
Qed.

Lemma maxAge_stored key it s :
  LRUBase._maxAge (store key it s) = LRUBase._maxAge s.
Proof.
  unfold store, rotate, insert.
  destruct (LRUBase._maxSize s <=? LRUBase._size s + 1); simpl; [|done].
  by rewrite LRUFacts.maxAge_note.
Qed.

(** [get], [set], [delete] and [clear] leave the bound and the default
    maxAge as they are. *)
Lemma config_kept o now s :
  no_throw s →
  match o with OGet _ | OSet _ _ _ | ODelete _ | OClear => True | _ => False end →
  LRUBase._maxSize (exec o now s) = LRUBase._maxSize s ∧
  LRUBase._maxAge (exec o now s) = LRUBase._maxAge s.
Proof.
  intros Hs Ho.
  destruct o as [key|key v maxAge|key|key|key| |m| |]; try done; unfold exec.
  - destruct (JSMap.get key (LRUBase._cache s)) as [it|] eqn:Hkc.
    + rewrite (LRUFacts.get_active key it) by done.
      destruct (stale it now); cbn [state_of]; [|done].
      unfold del. simpl. by rewrite LRUFacts.maxSize_note, LRUFacts.maxAge_note.
    + destruct (JSMap.get key (LRUBase._oldCache s)) as [it|] eqn:Hko.
      * rewrite (LRUFacts.get_previous key it) by done.
        destruct (LRUBase.is_expired it now); cbn [state_of].
        -- unfold del. simpl.
           by rewrite LRUFacts.maxSize_note, LRUFacts.maxAge_note.
        -- unfold promote. by rewrite LRUMore.maxSize_store, maxAge_stored.
      * by rewrite LRUFacts.get_absent.
  - rewrite LRUFacts.set_ok by done. cbn [state_of].
    destruct (JSMap.has key (LRUBase._cache s)); [done|].
    by rewrite LRUMore.maxSize_store, maxAge_stored.
  - by rewrite LRUFacts.delete_ok.
Qed.

Lemma size_bounds s :
  Inv s → 0 ≤ LRUBase.size s ≤ LRUBase._maxSize s.
Proof.
  intros HI. rewrite LRUFacts.size_eq by done.
  destruct HI as [_ _ Hsz Hroom _]. unfold JSMap.size in Hsz. lia.
Qed.

End Engine.

Section Enhanced.
Context {V : Type}.
Import EnhancedStatementCache.
Local Abbreviation esc := (EnhancedStatementCache.t V).
Implicit Types (e : esc) (sql : string) (now : Z) (o : @op V).

Lemma stmt_get_ok sql now e :
  LRUSpec.no_throw (engine e) →
  ∃ r, LRUBase.get sql now (engine e) =
         Ret r (LRUSpec.exec (LRUSpec.OGet sql) now (engine e)) ∧
       get sql now e =
         Ret r {| cache := QuickLRU.with_base
                             (LRUSpec.exec (LRUSpec.OGet sql) now (engine e))
                             (cache e);
                  stats_hits :=
                    match r with
                    | Some _ => stats_hits e + 1
                    | None => stats_hits e
                    end;
                  stats_misses :=
                    match r with
                    | Some _ => stats_misses e
                    | None => stats_misses e + 1
                    end;
                  stats_size := stats_size e;
                  stats_totalQueries := stats_totalQueries e + 1 |}.
Proof.
  intros Hs. destruct (get_returns sql now _ Hs) as [r Hr]. exists r.
  split; [done|].
  unfold get, bind, modify, on_cache, QuickLRU.get, QuickLRU.on_base.
  cbn [cache with_totalQueries]. unfold engine in Hr. rewrite Hr.
  by destruct r.
Qed.

Lemma stmt_set_ok sql statement now e :
  LRUSpec.no_throw (engine e) →
  set sql statement now e =
  Ret tt (let b := LRUSpec.exec (LRUSpec.OSet sql statement None) now
                     (engine e) in
          {| cache := {| QuickLRU._base := b;
                         QuickLRU._map :=
                           JSMap.set sql statement (QuickLRU._map (cache e)) |};
             stats_hits := stats_hits e; stats_misses := stats_misses e;
             stats_size := LRUBase.size b;
             stats_totalQueries := stats_totalQueries e |}).
Proof.
  intros Hs. unfold set, bind, modify, on_cache, QuickLRU.set, bind, modify,
    QuickLRU.on_base, LRUSpec.exec, engine in *.
  by rewrite LRUFacts.set_ok.
Qed.

Lemma stmt_delete_ok sql e :
  delete sql e =
  Ret tt (let b := LRUSpec.exec (LRUSpec.ODelete sql) 0 (engine e) in
          {| cache := QuickLRU.with_base b (cache e);
             stats_hits := stats_hits e; stats_misses := stats_misses e;
             stats_size := LRUBase.size b;
             stats_totalQueries := stats_totalQueries e |}).
Proof.
  unfold delete, bind, modify, on_cache, QuickLRU.delete,
    QuickLRU.on_base, LRUSpec.exec, engine.
  by rewrite LRUFacts.delete_ok.
Qed.

Lemma stmt_clear_ok e :
  clear e =
  Ret tt {| cache := {| QuickLRU._base :=
                          LRUSpec.exec LRUSpec.OClear 0 (engine e);
                        QuickLRU._map := [] |};
            stats_hits := stats_hits e; stats_misses := stats_misses e;
            stats_size := 0;
            stats_totalQueries := stats_totalQueries e |}.
Proof. done. Qed.

Lemma exec_engine o now e :
  LRUSpec.no_throw (engine e) →
  engine (exec o now e) = LRUSpec.exec (on_engine o) now (engine e).
Proof.
  intros Hs. destruct o as [sql|sql statement|sql|]; unfold exec.
  - destruct (stmt_get_ok sql now e Hs) as (r & _ & ->). done.
  - by rewrite stmt_set_ok.
  - by rewrite stmt_delete_ok.
  - by rewrite stmt_clear_ok.
Qed.

Lemma counted_step m n o now e :
  counted m n e →
  counted m (if is_get o then S n else n) (exec o now e).
Proof.
  intros [Hq Hg Hh Hm Hsz Hb HI Hs].
  destruct (LRUFacts.exec_Inv (on_engine o) now _ HI Hs) as [HI' He].
  rewrite <- exec_engine in HI', He by done.
  assert (Hs' : LRUSpec.no_throw (engine (exec o now e))).
  { by apply (LRUFacts.no_throw_eq (engine e)). }
  assert (Hb' : LRUBase._maxSize (engine (exec o now e)) = m).
  { rewrite exec_engine by done. rewrite <- Hb.
    apply config_kept; [done|]. by destruct o. }
  pose proof (size_bounds _ HI') as Hbound. rewrite Hb' in Hbound.
  destruct o as [sql|sql statement|sql|]; unfold exec in *; cbn [is_get].
  - destruct (stmt_get_ok sql now e Hs) as (r & _ & Hget). rewrite Hget in *.
    cbn [state_of] in *. split; cbn; try done; try (destruct r; lia).
  - rewrite stmt_set_ok in * by done. cbn [state_of] in *. by split.
  - rewrite stmt_delete_ok in *. cbn [state_of] in *. by split.
  - rewrite stmt_clear_ok in *. cbn [state_of] in *. split; cbn; try done; lia.
Qed.

Lemma counted_run m n ops e :
  counted m n e →
  counted m (n + length (filter (λ x, is_get x.2) ops)) (run ops e).
Proof.
  revert n e. induction ops as [|[now o] ops IH]; intros n e He.
  - simpl. by rewrite Nat.add_0_r.
  - change (run ((now, o) :: ops) e) with (run ops (exec o now e)).
    apply (counted_step _ _ o now) in He. apply IH in He.
    rewrite filter_cons. cbn [snd]. destruct (is_get o) eqn:Ho.
    + rewrite decide_True by done. simpl length.
      by rewrite Nat.add_succ_r.
    + rewrite decide_False; [done|]. by intros [].
Qed.

Lemma counted_constructor maxSize maxAge onEviction e0 :
  constructor maxSize maxAge onEviction = inr e0 →
  (∀ sql statement, counting onEviction sql statement = false) →
  counted maxSize 0 e0.
Proof.
  intros Hnew Hf. unfold constructor, QuickLRU.constructor in Hnew.
  destruct (LRUBase.constructor _) as [x|b] eqn:Hb; [done|].
  injection Hnew as <-.
  pose proof (LRUFacts.Inv_constructor _ _ Hb) as HI.
  unfold LRUBase.constructor in Hb. cbn in Hb.
  destruct (negb (0 <? maxSize)); [done|].
  assert (Hb' : LRUBase._maxSize b = maxSize ∧
                LRUBase._onEviction b = Some (counting onEviction)).
  { destruct maxAge as [[[| |]|]|]; try done; by injection Hb as <-. }
  destruct Hb' as [Hm Hev].
  split; cbn; try done.
  - destruct HI as [_ _ Hsz Hroom _]. unfold engine in Hm. cbn in Hm.
    unfold JSMap.size in Hsz. lia.
  - unfold LRUSpec.no_throw, engine. cbn. by rewrite Hev.
Qed.

(** X11.  The counters of a statement cache whose eviction callback
    never throws: after any sequence of [get], [set], [delete] and
    [clear], hits and misses add up to the total number of queries,
    which is the number of [get] calls made, and the recorded size lies
    between 0 and the configured maxSize. *)
Theorem stats_consistent maxSize maxAge onEviction e0 ops :
  constructor maxSize maxAge onEviction = inr e0 →
  (∀ sql statement, counting onEviction sql statement = false) →
  let st := getStats (run ops e0) in
  hits st + misses st = totalQueries st ∧
  totalQueries st = Z.of_nat (length (filter (λ x, is_get x.2) ops)) ∧
  0 ≤ hits st ∧ 0 ≤ misses st ∧
  0 ≤ size st ≤ maxSize.
Proof.
  intros Hnew Hf.
  pose proof (counted_constructor _ _ _ _ Hnew Hf) as H0.
  apply (counted_run _ _ ops) in H0. by destruct H0.
Qed.

Lemma maxAge_run m n ops e :
  counted m n e →
  LRUBase._maxAge (engine (run ops e)) = LRUBase._maxAge (engine e).
Proof.
  revert n e. induction ops as [|[now o] ops IH]; intros n e He; [done|].
  change (run ((now, o) :: ops) e) with (run ops (exec o now e)).
  rewrite (IH _ _ (counted_step _ _ o now _ He)).
  rewrite exec_engine by apply He.
  apply config_kept; [apply He|]. by destruct o.
Qed.

(** X12.  A statement stored in the cache is found by the next lookup,
    which counts as a hit: in any state of a statement cache whose
    callback never throws, [set(sql, statement)] followed by [get(sql)]
    returns the statement and adds one to hits and to the total, nothing
    to misses -- provided the configured maxAge, if there is a finite
    one, has not elapsed between the two calls. *)
Theorem stored_statement_hits maxSize maxAge onEviction e0 ops
    sql statement now now' :
  constructor maxSize maxAge onEviction = inr e0 →
  (∀ sql statement, counting onEviction sql statement = false) →
  match maxAge with Some (LRUBase.Finite a) => now' < now + a | _ => True end →
  let e := state_of (set sql statement now (run ops e0)) in
  ∃ e',
    get sql now' e = Ret (Some statement) e' ∧
    hits (getStats e') = hits (getStats e) + 1 ∧
    misses (getStats e') = misses (getStats e) ∧
    totalQueries (getStats e') = totalQueries (getStats e) + 1.
Proof.
  intros Hnew Hf Hage e.
  pose proof (counted_constructor _ _ _ _ Hnew Hf) as H0.
  pose proof (maxAge_run _ _ ops _ H0) as Ha.
  pose proof (counted_run _ _ ops _ H0) as H1.
  pose proof (counted_step _ _ (OSet sql statement) now _ H1) as H2.
  change (exec (OSet sql statement) now (run ops e0)) with e in H2.
  assert (Hit : LRUSpec.entry sql (engine e) =
                Some (LRUSpec.new_item statement None now
                        (engine (run ops e0)))).
  { unfold e.
    change (state_of (set sql statement now (run ops e0)))
      with (exec (OSet sql statement) now (run ops e0)).
    rewrite exec_engine by apply H1.
    apply LRUFacts.entry_after_set, H1. }
  assert (Hlive : LRUBase.is_expired
                    (LRUSpec.new_item statement None now
                       (engine (run ops e0))) now' = false).
  { unfold LRUBase.is_expired, LRUSpec.new_item. cbn. rewrite Ha.
    unfold constructor, QuickLRU.constructor in Hnew.
    destruct (LRUBase.constructor _) as [x|b] eqn:Hb; [done|].
    injection Hnew as <-. unfold LRUBase.constructor in Hb. cbn in Hb.
    destruct (negb (0 <? maxSize)); [done|].
    destruct maxAge as [[a|]|]; cbn.
    - assert (Hb' : LRUBase._maxAge b = LRUBase.Finite a).
      { destruct a; try done; by injection Hb as <-. }
      unfold engine. cbn. rewrite Hb'. apply Z.leb_gt. lia.
    - injection Hb as <-. done.
    - injection Hb as <-. done. }
  destruct (LRUFacts.get_live sql _ now' _ (counted_quiet _ _ _ H2) Hit Hlive)
    as [s' Hget].
  destruct (stmt_get_ok sql now' e (counted_quiet _ _ _ H2)) as (r & Hr & Hge).
  rewrite Hget in Hr. injection Hr as <- _. cbn in Hge.
  eexists. split; [exact Hge|]. done.
Qed.

(** X13.  [clear] and [delete] are not evictions: neither calls the
    eviction callback, so the eviction counter stays as it is.  After
    [clear] the recorded size is 0 and every lookup is a miss that
    returns nothing. *)
Theorem removal_is_not_eviction e sql now :
  evictions (getStats (state_of (delete sql e))) = evictions (getStats e) ∧
  evictions (getStats (state_of (clear e))) = evictions (getStats e) ∧
  size (getStats (state_of (clear e))) = 0 ∧
  ∃ e', get sql now (state_of (clear e)) = Ret None e' ∧
        misses (getStats e') = misses (getStats e) + 1 ∧
        hits (getStats e') = hits (getStats e).
Proof.
  rewrite stmt_delete_ok, stmt_clear_ok. cbn [state_of]. unfold LRUSpec.exec.
  rewrite LRUFacts.delete_ok, LRUFacts.clear_ok. split_and!; try done.
  unfold get, bind, modify, on_cache, QuickLRU.get, QuickLRU.on_base.
  cbn. eexists. split; [reflexivity|]. done.
Qed.

End Enhanced.

Section Default.
Context {V : Type}.
Import DefaultStatementCache.
Implicit Types (m : list (string * V)) (sql : string) (o : @op V).

Lemma exec_other sql o m :
  ¬ drops sql o → ¬ stores sql o →
  JSMap.get sql (exec o m) = JSMap.get sql m.
Proof.
  intros Hd Hs. destruct o as [k|k stmt|k|]; cbn in *.
  - done.
  - rewrite JSMapFacts.get_set. by rewrite decide_False by congruence.
  - rewrite JSMapFacts.get_delete. by rewrite decide_False by congruence.
  - by destruct Hd.
Qed.

(** X14.  The default statement cache never evicts: a statement stored
    under [sql] is returned by [get(sql)] after any number of further
    calls, as long as none of them stores under [sql] again, deletes
    [sql] or clears the cache; and the lookup changes nothing. *)
Theorem default_cache_keeps sql stmt ops m :
  Forall (λ o, ¬ drops sql o ∧ ¬ stores sql o) ops →
  let m' := run ops (state_of (set sql stmt m)) in
  get sql m' = Ret (Some stmt) m'.
Proof.
  intros Hops m'. unfold get, bind, get_state, ret. f_equal.
  unfold m'. clear m'.
  assert (H0 : JSMap.get sql (state_of (set sql stmt m)) = Some stmt).
  { cbn. rewrite JSMapFacts.get_set. by rewrite decide_True. }
  revert H0. generalize (state_of (set sql stmt m)).
  induction Hops as [|o ops [Hd Hs] _ IH]; intros m0 H0; [done|].
  apply IH. by rewrite exec_other.
Qed.

End Default.
End StatementCacheFacts.

(** ** Result codes *)

Module ErrorFacts.
Import NodeSqliteError.

Lemma primary_mod (e : t) : getPrimaryResultCode e = errcode e mod 256.
Proof.
  unfold getPrimaryResultCode, ToInt32.
  change 255 with (Z.ones 8). rewrite Z.land_ones by lia.
  change (2 ^ 8) with 256. change (2 ^ 31) with 2147483648.
  change (2 ^ 32) with 4294967296.
  Z.div_mod_to_equations. lia.
Qed.

(** X15.  The primary result code of an error is its errcode modulo
    256, a number from 0 to 255, whatever the errcode; so at most one of
    [isConstraintError], [isDatabaseLocked] and [isCorruption] holds of
    an error, and the extended code is reported exactly when the errcode
    exceeds 255. *)
Theorem primary_code_classifies (e : t) :
  getPrimaryResultCode e = errcode e mod 256 ∧
  0 ≤ getPrimaryResultCode e ≤ 255 ∧
  (isConstraintError e && isDatabaseLocked e = false) ∧
  (isConstraintError e && isCorruption e = false) ∧
  (isDatabaseLocked e && isCorruption e = false) ∧
  (getExtendedResultCode e = None ↔ errcode e ≤ 255) ∧
  (∀ x, getExtendedResultCode e = Some x → x = errcode e ∧ 255 < x).
Proof.
  pose proof (primary_mod e) as Hp.
  assert (Hr : 0 ≤ getPrimaryResultCode e ≤ 255).
  { rewrite Hp. pose proof (Z.mod_pos_bound (errcode e) 256). lia. }
  unfold isConstraintError, isDatabaseLocked, isCorruption,
    getExtendedResultCode.
  cbn [SqlitePrimaryResultCode.code].
  split_and!; try lia.
  - destruct (255 <? errcode e) eqn:H1.
    + apply Z.ltb_lt in H1. split; [done|lia].
    + apply Z.ltb_ge in H1. done.
  - intros x. destruct (255 <? errcode e) eqn:H1; [|done].
    apply Z.ltb_lt in H1. by intros [= <-].
Qed.

(** X16.  The numbers of the extended result codes agree with their
    names: an error carrying an extended code has the primary code its
    name announces, and reports that extended code.  So every
    SQLITE_CONSTRAINT_* code is a constraint error, every SQLITE_BUSY_*
    and SQLITE_LOCKED_* code is a locked database, every SQLITE_CORRUPT_*
    code is a corruption, and the I/O codes are none of the three. *)
Theorem extended_codes_classified (c : SqliteExtendedResultCode.t)
    (e : t) :
  errcode e = SqliteExtendedResultCode.code c →
  getPrimaryResultCode e =
    SqlitePrimaryResultCode.code (SqliteExtendedResultCode.family c) ∧
  getExtendedResultCode e = Some (SqliteExtendedResultCode.code c) ∧
  isConstraintError e =
    bool_decide (SqliteExtendedResultCode.family c =
                 SqlitePrimaryResultCode.SQLITE_CONSTRAINT) ∧
  isDatabaseLocked e =
    bool_decide (SqliteExtendedResultCode.family c =
                 SqlitePrimaryResultCode.SQLITE_BUSY ∨
                 SqliteExtendedResultCode.family c =
                 SqlitePrimaryResultCode.SQLITE_LOCKED) ∧
  isCorruption e =
    bool_decide (SqliteExtendedResultCode.family c =
                 SqlitePrimaryResultCode.SQLITE_CORRUPT).
Proof.
  intros He.
  unfold isConstraintError, isDatabaseLocked, isCorruption,
    getExtendedResultCode.
  rewrite primary_mod, He. by destruct c.
Qed.

(** X17.  [isConstraintType] compares the whole errcode with the given
    extended code and nothing else: when it answers true, the error is a
    constraint error exactly when the given code is one of the
    SQLITE_CONSTRAINT_* codes. *)
Theorem constraint_type_any_family (e : t)
    (type : SqliteExtendedResultCode.t) :
  isConstraintType e type = true →
  (isConstraintError e = true ↔
   SqliteExtendedResultCode.family type =
   SqlitePrimaryResultCode.SQLITE_CONSTRAINT) ∧
  getExtendedResultCode e = Some (SqliteExtendedResultCode.code type).
Proof.
  unfold isConstraintType. intros He%Z.eqb_eq.
  unfold isConstraintError, getExtendedResultCode.
  rewrite primary_mod, He. by destruct type.
Qed.

(** X18.  An error converted by [fromNodeSqlite] never has errcode 0:
    a source error without errcode, or with errcode 0, becomes the
    generic SQLITE_ERROR, which has no extended code and is neither a
    constraint error, nor a locked database, nor a corruption; any other
    errcode is kept as it is. *)
Theorem fromNodeSqlite_errcode c n s m :
  let e := fromNodeSqlite c n s m in
  errcode e ≠ 0 ∧
  (n = None ∨ n = Some 0 →
   errcode e = 1 ∧ getPrimaryResultCode e = 1 ∧
   getExtendedResultCode e = None ∧
   isConstraintError e = false ∧ isDatabaseLocked e = false ∧
   isCorruption e = false) ∧
  (∀ x, n = Some x → x ≠ 0 → errcode e = x).
Proof.
  split_and!.
  - by destruct n as [[| |]|].
  - by intros [->| ->].
  - intros x -> Hx. by destruct x.
Qed.

End ErrorFacts.

(** ** Pragma statements *)

Module PragmaFacts.
Import Pragmas.

Lemma elem_of_push_if {A} (x : option A) (text : A → string) l stmt :
  stmt ∈ push_if x text l ↔ stmt ∈ l ∨ ∃ a, x = Some a ∧ stmt = text a.
Proof.
  destruct x as [a|]; simpl.
  - rewrite elem_of_app, list_elem_of_singleton. split.
    + intros [? | ->]; [by left|right; by exists a].
    + intros [?|(a' & [= <-] & ->)]; [by left|by right].
  - split; [by left|]. by intros [?|(a & ? & _)].
Qed.

Lemma length_push_if {A} (x : option A) (text : A → string) l :
  length (push_if x text l) = (length l + counts x)%nat.
Proof.
  destruct x; simpl; [|lia]. rewrite length_app. simpl. lia.
Qed.

Lemma truthy_idemp x : truthy (truthy x) = truthy x.
Proof. by destruct x as [[| |]|]. Qed.

Lemma truthy_None x : truthy x = None ↔ unset x.
Proof.
  unfold unset. destruct x as [[| |]|]; simpl; split; try done; auto;
    by intros [|].
Qed.

(** X19.  Every statement [getPragmaStatements] produces has the shape
    [PRAGMA name=value;], and a configuration gives at most ten of them:
    one for each mode or boolean option that is present and one for each
    numeric option that is present and not 0. *)
Theorem pragma_statements_shape (config : PragmaConfig) :
  (∀ stmt, stmt ∈ getPragmaStatements config → is_pragma stmt) ∧
  length (getPragmaStatements config) =
    (counts (journalMode config) + counts (synchronous config)
     + counts (truthy (cacheSize config)) + counts (truthy (mmapSize config))
     + counts (tempStore config) + counts (lockingMode config)
     + counts (truthy (busyTimeout config)) + counts (foreignKeys config)
     + counts (truthy (walAutocheckpoint config))
     + counts (trustedSchema config))%nat ∧
  (length (getPragmaStatements config) ≤ 10)%nat.
Proof.
  assert (Hlen : length (getPragmaStatements config) =
    (counts (journalMode config) + counts (synchronous config)
     + counts (truthy (cacheSize config)) + counts (truthy (mmapSize config))
     + counts (tempStore config) + counts (lockingMode config)
     + counts (truthy (busyTimeout config)) + counts (foreignKeys config)
     + counts (truthy (walAutocheckpoint config))
     + counts (trustedSchema config))%nat).
  { unfold getPragmaStatements. cbv zeta. rewrite !length_push_if. simpl. lia. }
  split_and!.
  - intros stmt. unfold getPragmaStatements. cbv zeta.
    rewrite !elem_of_push_if, elem_of_nil.
    intros H. repeat destruct H as [H|H]; [done|..];
      destruct H as (a & _ & ->).
    + by exists "journal_mode", (JournalMode.to_string a).
    + by exists "synchronous", (SynchronousMode.to_string a).
    + by exists "cache_size", (pretty a).
    + by exists "mmap_size", (pretty a).
    + by exists "temp_store", (TempStore.to_string a).
    + by exists "locking_mode", (LockingMode.to_string a).
    + by exists "busy_timeout", (pretty a).
    + by exists "foreign_keys", (on_off a).
    + by exists "wal_autocheckpoint", (pretty a).
    + by exists "trusted_schema", (on_off a).
  - exact Hlen.
  - rewrite Hlen. unfold counts.
    repeat match goal with |- context [match ?x with _ => _ end] =>
      destruct x end; lia.
Qed.

(** X20.  A numeric option set to 0 is dropped like a missing one:
    [cacheSize], [mmapSize], [busyTimeout] and [walAutocheckpoint] equal
    to 0 produce no statement, whereas a boolean option set to false
    produces its [=OFF] statement.  So a configuration yields no
    statement at all exactly when its mode and boolean options are
    missing and its numeric options are missing or 0. *)
Theorem zero_is_dropped (config : PragmaConfig) :
  getPragmaStatements (without_zeros config) = getPragmaStatements config ∧
  (foreignKeys config = Some false →
   "PRAGMA foreign_keys=OFF;" ∈ getPragmaStatements config) ∧
  (trustedSchema config = Some false →
   "PRAGMA trusted_schema=OFF;" ∈ getPragmaStatements config) ∧
  (getPragmaStatements config = [] ↔
   journalMode config = None ∧ synchronous config = None ∧
   unset (cacheSize config) ∧ unset (mmapSize config) ∧
   tempStore config = None ∧ lockingMode config = None ∧
   unset (busyTimeout config) ∧ foreignKeys config = None ∧
   unset (walAutocheckpoint config) ∧ trustedSchema config = None).
Proof.
  split_and!.
  - unfold getPragmaStatements, without_zeros. cbn.
    by rewrite !truthy_idemp.
  - intros Hf. unfold getPragmaStatements. cbv zeta.
    rewrite !elem_of_push_if. left. left. right. exists false. by rewrite Hf.
  - intros Hf. unfold getPragmaStatements. cbv zeta.
    rewrite !elem_of_push_if. right. exists false. by rewrite Hf.
  - rewrite <- !truthy_None. rewrite <- length_zero_iff_nil.
    unfold getPragmaStatements. cbv zeta. rewrite !length_push_if.
    unfold counts. simpl.
    destruct (journalMode config), (synchronous config),
      (truthy (cacheSize config)), (truthy (mmapSize config)),
      (tempStore config), (lockingMode config),
      (truthy (busyTimeout config)), (foreignKeys config),
      (truthy (walAutocheckpoint config)), (trustedSchema config);
      simpl; split; first [lia | done | by intros (?&?&?&?&?&?&?&?&?&?)].
Qed.

End PragmaFacts.

(** ** Examples of the further facts *)

Module MoreScenarioFacts.
Import Scenario LRUSpec.

Lemma resize_overflow_witness :
  let s := run [(0, OSet "a" 1 None); (0, OSet "b" 2 None);
                (0, OSet "c" 3 None)]
               (fresh 5 LRUBase.Infinite (Some quiet)) in
  ∃ s', LRUBase.resize 2 0 s = Ret tt s' ∧ LRUBase.size s' = 2 ∧
        LRUBase._oldCache s' = drop 1 (live 0 s).
Proof.
  intros s.
  destruct (LRUMore.resize_overflow s 2 0)
    as (s' & H1 & _ & _ & H4 & H5 & _).
  - apply ScenarioFacts.reachable_run; [lia|done|done].
  - lia.
  - vm_compute. reflexivity.
  - by exists s'.
Defined.

Lemma lookups_agree_witness :
  let s := run [(0, OSet "a" 1 (Some (LRUBase.Finite 10)))]
               (fresh 5 LRUBase.Infinite (Some quiet)) in
  ∃ r sg sp,
    LRUBase.get "a" 10 s = Ret r sg ∧ LRUBase.peek "a" 10 s = Ret r sp.
Proof.
  intros s.
  destruct (LRUMore.lookups_agree s "a" 10) as (r & sg & sp & H1 & H2 & _).
  - intros k v. reflexivity.
  - intros it Hit. vm_compute in Hit. injection Hit as <-. discriminate.
  - by exists r, sg, sp.
Defined.

Lemma ascending_lists_live_witness :
  let s := run [(0, OSet "a" 1 (Some (LRUBase.Finite 10)));
                (0, OSet "b" 2 None)]
               (fresh 5 LRUBase.Infinite (Some quiet)) in
  ∃ xs s', LRUBase.entriesAscending 20 s = Ret xs s' ∧ NoDup xs.*1.
Proof.
  intros s.
  destruct (LRUMore.ascending_lists_live s 20) as (xs & s' & H1 & H2 & _).
  - apply ScenarioFacts.reachable_run; [lia|done|done].
  - by exists xs, s'.
Defined.

Lemma retention_witness :
  let s0 := fresh 3 LRUBase.Infinite (Some quiet) in
  ∃ s3,
    LRUBase.get "a" 3
      (run [(1, OSet "b" 2 None); (2, OSet "c" 3 None)]
         (exec (OSet "a" 1 None) 0 s0))
    = Ret (Some 1) s3.
Proof.
  intros s0.
  apply (LRUMore.retention s0 "a" 1 0
           [(1, OSet "b" 2 None); (2, OSet "c" 3 None)] 3).
  - apply (ScenarioFacts.reachable_run 3 LRUBase.Infinite (Some quiet) []);
      [lia|done|done].
  - split; [done|]. intros p Hp. by apply elem_of_nil in Hp.
  - repeat constructor; simpl; discriminate.
  - vm_compute. reflexivity.
Defined.

Lemma descending_reverses_live_witness :
  let s := run [(0, OSet "a" 1 (Some (LRUBase.Finite 10)));
                (0, OSet "b" 2 None); (0, OSet "c" 3 None)]
               (fresh 5 LRUBase.Infinite (Some quiet)) in
  ∃ xs s1 s2,
    LRUBase.entriesAscending 20 s = Ret xs s1 ∧
    LRUBase.entriesDescending 20 s = Ret (reverse xs) s2.
Proof.
  intros s.
  destruct (LRUMore.descending_reverses_live s 20)
    as (xs & s1 & s2 & H1 & H2 & _).
  - apply ScenarioFacts.reachable_run; [lia|done|done].
  - by exists xs, s1, s2.
Defined.

Lemma mirror_covers_engine_witness :
  let q := QuickSpec.run
             [(0, QuickSpec.OSet "a" 1); (0, QuickSpec.ODelete "a");
              (0, QuickSpec.OSet "b" 2); (0, QuickSpec.OClear);
              (0, QuickSpec.OSet "c" 3)]
             (fresh_facade 2 LRUBase.Infinite (Some quiet)) in
  JSMap.get "c" (QuickLRU.entries q) = Some 3.
Proof.
  intros q.
  destruct (QuickMore.mirror_covers_engine
              (options 2 (Some LRUBase.Infinite) (Some quiet))
              (fresh_facade 2 LRUBase.Infinite (Some quiet))
              [(0, QuickSpec.OSet "a" 1); (0, QuickSpec.ODelete "a");
               (0, QuickSpec.OSet "b" 2); (0, QuickSpec.OClear);
               (0, QuickSpec.OSet "c" 3)]) as [H _].
  - reflexivity.
  - intros k v. reflexivity.
  - apply (H "c" (entry_of 3 None)). vm_compute. reflexivity.
Defined.

Lemma stats_consistent_witness :
  let st := EnhancedStatementCache.getStats
              (EnhancedStatementCache.run
                 [(0, EnhancedStatementCache.OGet "select 1");
                  (0, EnhancedStatementCache.OSet "select 1" 7);
                  (1, EnhancedStatementCache.OGet "select 1");
                  (2, EnhancedStatementCache.OClear);
                  (3, EnhancedStatementCache.OGet "select 1")]
                 (StatementScenario.fresh 2)) in
  EnhancedStatementCache.hits st + EnhancedStatementCache.misses st =
  EnhancedStatementCache.totalQueries st.
Proof.
  intros st.
  apply (StatementCacheFacts.stats_consistent 2 None None
           (StatementScenario.fresh 2)).
  - reflexivity.
  - intros sql statement. reflexivity.
Defined.

Lemma stored_statement_hits_witness :
  let e := state_of (EnhancedStatementCache.set "select 1" 7 0
                       (EnhancedStatementCache.run
                          [(0, EnhancedStatementCache.OGet "select 1")]
                          (StatementScenario.fresh 2))) in
  ∃ e', EnhancedStatementCache.get "select 1" 5 e = Ret (Some 7) e'.
Proof.
  intros e.
  destruct (StatementCacheFacts.stored_statement_hits 2 None None
              (StatementScenario.fresh 2)
              [(0, EnhancedStatementCache.OGet "select 1")]
              "select 1" 7 0 5) as (e' & H1 & _).
  - reflexivity.
  - intros sql statement. reflexivity.
  - exact I.
  - by exists e'.
Defined.

Lemma default_cache_keeps_witness :
  let m' := DefaultStatementCache.run
              [DefaultStatementCache.OGet "q";
               DefaultStatementCache.OSet "r" 2;
               DefaultStatementCache.ODelete "r"]
              (state_of (DefaultStatementCache.set "q" 1 [])) in
  DefaultStatementCache.get "q" m' = Ret (Some 1) m'.
Proof.
  apply (StatementCacheFacts.default_cache_keeps "q" 1).
  repeat constructor; simpl; try tauto; discriminate.
Defined.

Lemma extended_codes_classified_witness :
  NodeSqliteError.isConstraintError (StatementScenario.error_of 2067) = true.
Proof.
  destruct (ErrorFacts.extended_codes_classified
              SqliteExtendedResultCode.SQLITE_CONSTRAINT_UNIQUE
              (StatementScenario.error_of 2067)) as (_ & _ & H & _).
  - reflexivity.
  - exact H.
Defined.

Lemma constraint_type_any_family_witness :
  NodeSqliteError.getExtendedResultCode (StatementScenario.error_of 266) =
  Some 266.
Proof.
  destruct (ErrorFacts.constraint_type_any_family
              (StatementScenario.error_of 266)
              SqliteExtendedResultCode.SQLITE_IOERR_READ) as [_ H].
  - reflexivity.
  - exact H.
Defined.

Lemma set_notifies_on_rotation_witness :
  let s := run [(0, OSet "a" 1 None); (0, OSet "b" 2 None);
                (0, OSet "a" 10 None)]
               (fresh 2 LRUBase.Infinite (Some quiet)) in
  ∃ s', LRUBase.set "c" 3 None 0 s = Ret tt s' ∧
        LRUBase._notified s' = [("a", 1); ("b", 2)] ∧
        entry "a" s' = Some (entry_of 10 None).
Proof.
  intros s.
  destruct (LRUMore.set_notifies_on_rotation s "c" 3 None 0)
    as (s' & H1 & _ & H3).
  - intros k v. reflexivity.
  - destruct H3 as (Hn & _ & _ & Hkeep).
    + vm_compute. reflexivity.
    + vm_compute. discriminate.
    + exists s'. split_and!; [done| |].
      * rewrite Hn. vm_compute. reflexivity.
      * apply Hkeep. vm_compute. reflexivity.
Defined.

End MoreScenarioFacts.
